(** * xonsh subprocess core: alias table, redirections, command resolver,
      proc-proxies and short-circuit stages

    A shallow embedding of [xonsh/built_ins.py], [xonsh/proc.py] and
    [xonsh/jobs_not_implemented.py].  Python strings are modelled as
    sequences of 8-bit characters (ASCII text), Python exceptions as an
    explicit [outcome], dictionaries as [gmap], sets as [gset]. *)

From Stdlib Require Import ZArith List Ascii String DecimalString Lia Bool.
From stdpp Require Import gmap strings list fin_maps.

Open Scope string_scope.
Open Scope list_scope.
Open Scope nat_scope.

(* stdpp's solvers clear hypotheses that may already be gone. *)
Set Warnings "-clear-no-such-hyp".

(** ** Python values, exceptions and outcomes *)

Module Py.

(** The exception classes the modelled code raises or lets through. *)
Inductive exn :=
| XonshError (msg : string)
| ValueError
| TypeError
| KeyError
| IndexError
| AttributeError
| PermissionError
| FileNotFoundError
| UnicodeDecodeError
| OtherError (name : string).

(** The result of running a piece of Python: a value or a raised exception. *)
Inductive outcome (A : Type) :=
| Ret (a : A)
| Raise (e : exn).
Arguments Ret {A} a.
Arguments Raise {A} e.

Definition bind {A B} (m : outcome A) (k : A -> outcome B) : outcome B :=
  match m with
  | Ret a => k a
  | Raise e => Raise e
  end.

(** The Python objects that flow through return codes and callables'
    results.  [PObj] is any other object, given by what [str()] makes of it
    ([None] when [__str__] raises). *)
#[warnings="-register-all"]
Inductive pyval :=
| PNone
| PBool (b : bool)
| PInt (z : Z)
| PStr (s : string)
| PSeq (items : list pyval)
| PObj (str_of : option string).

Definition is_none (v : pyval) : bool :=
  match v with PNone => true | _ => false end.

(** Code that also changes a state [S]: the state reached is kept when an
    exception is raised. *)
Definition stateful (S A : Type) : Type := S -> outcome A * S.

Definition ret {S A} (a : A) : stateful S A := fun s => (Ret a, s).

Definition raise {S A} (e : exn) : stateful S A := fun s => (Raise e, s).

Definition bind_st {S A B} (m : stateful S A) (k : A -> stateful S B)
  : stateful S B :=
  fun s =>
    match m s with
    | (Ret a, s') => k a s'
    | (Raise e, s') => (Raise e, s')
    end.

(** [try: body  except: handler] with a bare [except] *)
Definition try_except {S A} (body handler : stateful S A) : stateful S A :=
  fun s =>
    match body s with
    | (Ret a, s') => (Ret a, s')
    | (Raise _, s') => handler s'
    end.

End Py.
Export Py.

Notation "'do' x <- m ; k" := (bind m (fun x => k))
  (at level 10, x name, m at level 100, k at level 200).
Notation "'perform' x <- m ; k" := (bind_st m (fun x => k))
  (at level 10, x name, m at level 100, k at level 200).

(** ** shlex.split

    The word splitter of the Python standard library, as [shlex.split]
    configures it: POSIX mode, [whitespace_split], no comment characters.
    It is the state machine of [shlex.read_token] run until the end of the
    input. *)

Module Shlex.

Definition is_whitespace (c : ascii) : bool :=
  (c =? " ")%char || (c =? "009")%char || (c =? "013")%char || (c =? "010")%char.

Definition is_quote (c : ascii) : bool :=
  (c =? "'")%char || (c =? "034")%char.

Definition is_escape (c : ascii) : bool := (c =? "\")%char.

Definition is_escapedquote (c : ascii) : bool := (c =? "034")%char.

(** [state] of the lexer: [' '], ['a'], a quote character, or the escape
    character together with [escapedstate]. *)
Inductive lex_state :=
| LWhite
| LWord
| LQuote (q : ascii)
| LEscape (escapedstate : lex_state).

Definition snoc (tok : string) (c : ascii) : string := tok +:+ String c "".

(** A token is handed out when it is non-empty or was quoted. *)
Definition emit (quoted : bool) (tok : string) (rest : list string) : list string :=
  if quoted || negb (tok =? "")%string then tok :: rest else rest.

Fixpoint read_tokens (st : lex_state) (quoted : bool) (tok : string) (s : string)
  : outcome (list string) :=
  match s with
  | EmptyString =>
      match st with
      | LWhite => Ret []
      | LWord => Ret (emit quoted tok [])
      | LQuote _ => Raise ValueError      (* No closing quotation *)
      | LEscape _ => Raise ValueError     (* No escaped character *)
      end
  | String c s' =>
      match st with
      | LWhite =>
          if is_whitespace c then
            if quoted || negb (tok =? "")%string
            then do l <- read_tokens LWhite false "" s'; Ret (tok :: l)
            else read_tokens LWhite quoted tok s'
          else if is_escape c then read_tokens (LEscape LWord) quoted tok s'
          else if is_quote c then read_tokens (LQuote c) quoted tok s'
          else read_tokens LWord quoted (String c "") s'
      | LQuote q =>
          if (c =? q)%char then read_tokens LWord true tok s'
          else if is_escape c && is_escapedquote q
               then read_tokens (LEscape (LQuote q)) true tok s'
          else read_tokens (LQuote q) true (snoc tok c) s'
      | LEscape escapedstate =>
          let tok' :=
            match escapedstate with
            | LQuote q =>
                if negb (is_escape c) && negb (c =? q)%char
                then snoc tok "\" else tok
            | _ => tok
            end in
          read_tokens escapedstate quoted (snoc tok' c) s'
      | LWord =>
          if is_whitespace c then
            if quoted || negb (tok =? "")%string
            then do l <- read_tokens LWhite false "" s'; Ret (tok :: l)
            else read_tokens LWhite quoted tok s'
          else if is_quote c then read_tokens (LQuote c) quoted tok s'
          else if is_escape c then read_tokens (LEscape LWord) quoted tok s'
          else read_tokens LWord quoted (snoc tok c) s'
      end
  end.

Definition split (s : string) : outcome (list string) :=
  read_tokens LWhite false "" s.

End Shlex.

(** ** The alias table ([built_ins.Aliases]) *)

Module Aliases.

(** A callable alias takes the argument tokens and the standard input. *)
Definition callable := list string -> option string -> outcome pyval.

(** What [_raw] may hold under a key. *)
Inductive alias_val :=
| VNone                            (* None *)
| VList (tokens : list string)     (* an iterable of tokens *)
| VCallable (f : callable)
| VOther.                          (* neither iterable nor callable *)

(** What a lookup hands back: a token list or a callable. *)
Inductive alias_result :=
| AList (tokens : list string)
| ACallable (f : callable).

(** [lambda args, stdin=None: value(acc_args + args, stdin=stdin)] *)
Definition partial (value : callable) (acc_args : list string) : callable :=
  fun args stdin => value (acc_args ++ args) stdin.

(** [eval_alias].  Python recurses; each recursive call spends one unit of
    [fuel], and [None] means the fuel ran out before the call returned. *)
Fixpoint eval_alias (fuel : nat) (raw : gmap string alias_val) (value : alias_val)
    (seen_tokens : gset string) (acc_args : list string)
  : option (outcome alias_result) :=
  match value with
  | VCallable f =>
      match acc_args with
      | _ :: _ => Some (Ret (ACallable (partial f acc_args)))
      | [] => Some (Ret (ACallable f))
      end
  | VList [] => Some (Raise ValueError)        (* token, *rest = [] *)
  | VList (token :: rest) =>
      if bool_decide (token ∈ seen_tokens) || bool_decide (raw !! token = None)
      then Some (Ret (AList ((token :: rest) ++ acc_args)))
      else
        match fuel, raw !! token with
        | S fuel', Some v =>
            eval_alias fuel' raw v (seen_tokens ∪ {[token]}) (rest ++ acc_args)
        | S _, None => Some (Raise KeyError)
        | O, _ => None
        end
  | VNone | VOther => Some (Raise TypeError)   (* cannot unpack *)
  end.

(** [Aliases.get] *)
Definition get (fuel : nat) (raw : gmap string alias_val) (key : string)
    (default : option alias_result) : option (outcome (option alias_result)) :=
  match raw !! key with
  | None | Some VNone => Some (Ret default)
  | Some VOther => Some (Raise TypeError)
  | Some val =>
      match eval_alias fuel raw val {[key]} [] with
      | Some (Ret r) => Some (Ret (Some r))
      | Some (Raise e) => Some (Raise e)
      | None => None
      end
  end.

(** The lookup with the fuel that always suffices: one unit per key of the
    table. *)
Definition lookup (raw : gmap string alias_val) (key : string)
  : option (outcome (option alias_result)) :=
  get (size raw) raw key None.

(** The value handed to [__setitem__]: a string or anything else. *)
Inductive set_arg :=
| SString (s : string)
| SValue (v : alias_val).

(** [Aliases.__setitem__] *)
Definition __setitem__ (raw : gmap string alias_val) (key : string) (val : set_arg)
  : outcome (gmap string alias_val) :=
  match val with
  | SString s => do l <- Shlex.split s; Ret (<[key := VList l]> raw)
  | SValue v => Ret (<[key := v]> raw)
  end.

(** The table of the comment in [eval_alias]: [l=ls -CF], [ls=ls --color=auto]. *)
Definition ls_table : outcome (gmap string alias_val) :=
  do raw <- __setitem__ ∅ "l" (SString "ls -CF");
  __setitem__ raw "ls" (SString "ls --color=auto").

(** *** Termination *)

Lemma eval_alias_enough_fuel raw :
  ∀ fuel value seen acc,
    size (dom raw ∖ seen) ≤ fuel →
    ∃ r, eval_alias fuel raw value seen acc = Some r.
Proof.
  induction fuel as [|n IH]; intros value seen acc Hsz.
  - destruct value as [|[|token rest]|f|]; simpl; eauto.
    + destruct (bool_decide (token ∈ seen)) eqn:Hs; simpl; eauto.
      destruct (bool_decide (raw !! token = None)) eqn:Hr; simpl; eauto.
      apply bool_decide_eq_false in Hs, Hr.
      assert (token ∈ dom raw ∖ seen).
      { apply elem_of_difference. split; [|done].
        apply elem_of_dom. by apply not_eq_None_Some. }
      assert (dom raw ∖ seen ≡ ∅) as Hem by (apply size_empty_iff; lia).
      set_solver.
    + destruct acc; eauto.
  - destruct value as [|[|token rest]|f|]; simpl; eauto.
    + destruct (bool_decide (token ∈ seen)) eqn:Hs; simpl; eauto.
      destruct (bool_decide (raw !! token = None)) eqn:Hr; simpl; eauto.
      apply bool_decide_eq_false in Hs, Hr.
      destruct (raw !! token) as [v|] eqn:Hv; [|done].
      apply IH.
      assert (dom raw ∖ (seen ∪ {[token]}) ⊂ dom raw ∖ seen) as Hsub.
      { apply strict_spec_alt. split; [set_solver|].
        assert (token ∈ dom raw) by (apply elem_of_dom; eauto).
        intros Heq. assert (token ∈ dom raw ∖ seen) as Hin by set_solver.
        rewrite <- Heq in Hin. set_solver. }
      apply subset_size in Hsub. lia.
    + destruct acc; eauto.
Qed.

Lemma eval_alias_fuel_S raw :
  ∀ fuel value seen acc r,
    eval_alias fuel raw value seen acc = Some r →
    eval_alias (S fuel) raw value seen acc = Some r.
Proof.
  induction fuel as [|n IH]; intros value seen acc r H.
  - destruct value as [|[|token rest]|f|]; simpl in *; try done.
    destruct (bool_decide (token ∈ seen) || bool_decide (raw !! token = None));
      [done|discriminate].
  - destruct value as [|[|token rest]|f|]; try done.
    simpl in H. simpl.
    destruct (bool_decide (token ∈ seen) || bool_decide (raw !! token = None));
      [done|].
    destruct (raw !! token) as [v|]; [|done].
    apply IH in H. exact H.
Qed.

Lemma eval_alias_fuel_mono raw fuel fuel' value seen acc r :
  fuel ≤ fuel' →
  eval_alias fuel raw value seen acc = Some r →
  eval_alias fuel' raw value seen acc = Some r.
Proof.
  induction 1 as [|m Hle IH]; [done|].
  intros H. apply eval_alias_fuel_S. by apply IH.
Qed.

Lemma eval_alias_stops fuel raw token rest seen acc :
  token ∈ seen ∨ raw !! token = None →
  eval_alias fuel raw (VList (token :: rest)) seen acc
  = Some (Ret (AList (token :: rest ++ acc))).
Proof.
  intros H. destruct fuel; simpl.
  all: destruct H as [H|H];
    [rewrite (bool_decide_eq_true_2 _ H); done
    |rewrite (bool_decide_eq_true_2 (raw !! token = None) H), orb_true_r; done].
Qed.

Lemma get_enough_fuel raw key default :
  ∃ r, ∀ fuel, size raw - 1 ≤ fuel → get fuel raw key default = Some r.
Proof.
  unfold get. destruct (raw !! key) as [val|] eqn:Hk; [|eauto].
  assert (size (dom raw ∖ {[key]}) ≤ size raw - 1) as Hsz.
  { assert ({[key]} ⊆ dom raw) as Hsub.
    { apply singleton_subseteq_l, elem_of_dom. eauto. }
    rewrite (size_difference _ _ Hsub), size_singleton, size_dom. lia. }
  destruct (eval_alias_enough_fuel raw (size raw - 1) val {[key]} [] Hsz)
    as [r Hr].
  destruct val; eauto.
  all: exists (match r with Ret a => Ret (Some a) | Raise e => Raise e end).
  all: intros fuel Hle;
    rewrite (eval_alias_fuel_mono raw _ fuel _ _ _ _ Hle Hr); by destruct r.
Qed.

(** A token list that comes out of [eval_alias] is not empty, and its head
    is in the seen set the evaluation ended with or is not a key. *)
Lemma eval_alias_list_head raw :
  ∀ fuel value seen acc L,
    eval_alias fuel raw value seen acc = Some (Ret (AList L)) →
    ∃ token rest seen',
      L = token :: rest ∧ seen ⊆ seen' ∧ (token ∈ seen' ∨ raw !! token = None).
Proof.
  induction fuel as [|n IH]; intros value seen acc L H.
  all: destruct value as [|[|token rest]|f|]; simpl in H; try done.
  all: try (destruct acc; done).
  all: destruct (bool_decide (token ∈ seen)) eqn:Hs;
    [apply bool_decide_eq_true in Hs; simpl in H; simplify_eq;
     exists token, (rest ++ acc), seen; auto|].
  all: destruct (bool_decide (raw !! token = None)) eqn:Hr;
    [apply bool_decide_eq_true in Hr; simpl in H; simplify_eq;
     exists token, (rest ++ acc), seen; auto|].
  all: simpl in H; try done.
  destruct (raw !! token) as [v|]; [|done].
  destruct (IH _ _ _ _ H) as (t & r & seen' & -> & Hsub & Hstop).
  exists t, r, seen'. split; [done|]. split; [set_solver|done].
Qed.

(** *** The example table *)

Definition ls_raw : gmap string alias_val :=
  <["ls" := VList ["ls"; "--color=auto"]]> (<["l" := VList ["ls"; "-CF"]]> ∅).

Lemma ls_table_raw : ls_table = Ret ls_raw.
Proof. reflexivity. Qed.

(** Evaluating a token list once more, with a given seen set and no
    accumulated arguments. *)
Definition reexpand (raw : gmap string alias_val) (seen : gset string)
    (L : list string) : option (outcome alias_result) :=
  eval_alias (size raw) raw (VList L) seen [].

(** C3: for every alias table and key, [Aliases.get] returns after at most
    [size raw] recursive expansions (any larger fuel gives the same answer),
    cycles included, and [eval_alias] returns at once, whatever fuel is
    left, when the head token is in the seen set or is not a key. *)
Theorem alias_lookup_terminates (raw : gmap string alias_val) (key : string)
    (default : option alias_result) :
  (∃ n r, n ≤ size raw ∧
          ∀ fuel, n ≤ fuel → get fuel raw key default = Some r)
  ∧ (∀ value seen acc, ∃ r,
       ∀ fuel, size (dom raw ∖ seen) ≤ fuel →
               eval_alias fuel raw value seen acc = Some r)
  ∧ (∀ fuel token rest seen acc,
       token ∈ seen ∨ token ∉ dom raw →
       eval_alias fuel raw (VList (token :: rest)) seen acc
       = Some (Ret (AList (token :: rest ++ acc)))).
Proof.
  split; [|split].
  - destruct (get_enough_fuel raw key default) as [r Hr].
    exists (size raw - 1), r. split; [lia|done].
  - intros value seen acc.
    destruct (eval_alias_enough_fuel raw _ value seen acc (le_n _)) as [r Hr].
    exists r. intros fuel Hle. by apply (eval_alias_fuel_mono raw _ fuel) in Hr.
  - intros fuel token rest seen acc [H|H]; apply eval_alias_stops; [by left|].
    right. by apply not_elem_of_dom.
Qed.

(** C5: in the table built by [aliases['l'] = "ls -CF"] and
    [aliases['ls'] = "ls --color=auto"], looking up ['l'] gives
    [["ls"; "--color=auto"; "-CF"]]. *)
Theorem l_alias_expands :
  ∃ raw, ls_table = Ret raw
         ∧ lookup raw "l" = Some (Ret (Some (AList ["ls"; "--color=auto"; "-CF"]))).
Proof. exists ls_raw. split; [reflexivity|]. vm_compute. reflexivity. Qed.

(** C9 as stated fails: in the example table the lookup of ['l'] yields
    [["ls"; "--color=auto"; "-CF"]], and evaluating that list again, with a
    fresh seen set or with the seen set [{'l'}] of a lookup, expands the
    self-referential ['ls'] once more and yields a longer list; so does
    looking up its head ['ls'] and putting the answer in front of its
    tail, the way [get_proc] applies an alias. *)
Lemma alias_reexpansion_grows :
  lookup ls_raw "l" = Some (Ret (Some (AList ["ls"; "--color=auto"; "-CF"])))
  ∧ reexpand ls_raw ∅ ["ls"; "--color=auto"; "-CF"]
    = Some (Ret (AList ["ls"; "--color=auto"; "--color=auto"; "-CF"]))
  ∧ reexpand ls_raw {["l"]} ["ls"; "--color=auto"; "-CF"]
    = Some (Ret (AList ["ls"; "--color=auto"; "--color=auto"; "-CF"]))
  ∧ lookup ls_raw "ls" = Some (Ret (Some (AList ["ls"; "--color=auto"]))).
Proof. repeat split; vm_compute; reflexivity. Qed.

(** The seen set a call of [eval_alias] ends with: [eval_alias] once more,
    giving besides what it returns the [seen_tokens] of the innermost
    call, the one that returned without calling itself. *)
Fixpoint eval_alias_seen (fuel : nat) (raw : gmap string alias_val) (value : alias_val)
    (seen_tokens : gset string) (acc_args : list string)
  : option (outcome alias_result * gset string) :=
  match value with
  | VCallable f =>
      match acc_args with
      | _ :: _ => Some (Ret (ACallable (partial f acc_args)), seen_tokens)
      | [] => Some (Ret (ACallable f), seen_tokens)
      end
  | VList [] => Some (Raise ValueError, seen_tokens)
  | VList (token :: rest) =>
      if bool_decide (token ∈ seen_tokens) || bool_decide (raw !! token = None)
      then Some (Ret (AList ((token :: rest) ++ acc_args)), seen_tokens)
      else
        match fuel, raw !! token with
        | S fuel', Some v =>
            eval_alias_seen fuel' raw v (seen_tokens ∪ {[token]}) (rest ++ acc_args)
        | S _, None => Some (Raise KeyError, seen_tokens)
        | O, _ => None
        end
  | VNone | VOther => Some (Raise TypeError, seen_tokens)
  end.

(** [eval_alias_seen] returns what [eval_alias] returns. *)
Lemma eval_alias_seen_result raw :
  ∀ fuel value seen acc,
    fst <$> eval_alias_seen fuel raw value seen acc = eval_alias fuel raw value seen acc.
Proof.
  induction fuel as [|n IH]; intros value seen acc.
  all: destruct value as [|[|token rest]|f|]; simpl; try done.
  all: try (by destruct acc).
  all: destruct (bool_decide (token ∈ seen) || bool_decide (raw !! token = None));
    [done|].
  - done.
  - destruct (raw !! token) as [v|]; [apply IH|done].
Qed.

(** The seen set a call ends with holds the one it began with and besides
    only keys of the table; a token list that is returned has its head in
    that set, unless the head is not a key. *)
Lemma eval_alias_seen_ends raw :
  ∀ fuel value seen acc r seen',
    eval_alias_seen fuel raw value seen acc = Some (r, seen') →
    seen ⊆ seen' ∧ seen' ⊆ seen ∪ dom raw
    ∧ ∀ L, r = Ret (AList L) →
        ∃ token rest, L = token :: rest ∧ (token ∈ seen' ∨ raw !! token = None).
Proof.
  assert (∀ (seen : gset string) r0 r seen',
            (∀ L, r0 ≠ Ret (AList L)) →
            Some (r0, seen) = Some (r, seen') →
            seen ⊆ seen' ∧ seen' ⊆ seen ∪ dom raw
            ∧ ∀ L, r = Ret (AList L) →
                ∃ token rest, L = token :: rest
                              ∧ (token ∈ seen' ∨ raw !! token = None)) as Hother.
  { intros seen r0 r seen' Hr0 H. injection H as <- <-.
    split; [set_solver|]. split; [set_solver|].
    intros L HL. by destruct (Hr0 L). }
  assert (∀ (seen : gset string) token rest acc r seen',
            token ∈ seen ∨ raw !! token = None →
            Some (Ret (AList ((token :: rest) ++ acc)), seen) = Some (r, seen') →
            seen ⊆ seen' ∧ seen' ⊆ seen ∪ dom raw
            ∧ ∀ L, r = Ret (AList L) →
                ∃ token rest, L = token :: rest
                              ∧ (token ∈ seen' ∨ raw !! token = None)) as Hstop.
  { intros seen token rest acc r seen' Ht H. injection H as <- <-.
    split; [set_solver|]. split; [set_solver|].
    intros L HL. injection HL as <-. exists token, (rest ++ acc). by split. }
  induction fuel as [|n IH]; intros value seen acc r seen' H.
  all: destruct value as [|[|token rest]|f|]; simpl in H.
  1,2,5,6,7,10: by (eapply Hother; [|exact H]).
  2,4: destruct acc; by (eapply Hother; [|exact H]).
  all: destruct (bool_decide (token ∈ seen)) eqn:Hs;
    [apply bool_decide_eq_true in Hs; simpl in H;
     apply (Hstop _ _ _ _ _ _ (or_introl Hs) H)|].
  all: destruct (bool_decide (raw !! token = None)) eqn:Hr;
    [apply bool_decide_eq_true in Hr; simpl in H;
     apply (Hstop _ _ _ _ _ _ (or_intror Hr) H)|].
  all: simpl in H; try done.
  destruct (raw !! token) as [v|] eqn:Hv; [|done].
  destruct (IH _ _ _ _ _ H) as (Hsub & Hdom & Hhead).
  assert (token ∈ dom raw) by (apply elem_of_dom; eauto).
  split; [set_solver|]. split; [set_solver|]. exact Hhead.
Qed.

(** C9, amended: when the lookup of [key] yields a token list [L], the
    lookup ended with a seen set that holds [key] and otherwise only keys
    of the table, and evaluating [L] again with that seen set, or with any
    larger one, gives [L] itself, whatever fuel is left.  [L] is not
    empty, and evaluating it again gives [L] for every seen set that holds
    its head token, and for every seen set when the head is not a key. *)
Theorem alias_expansion_stable (raw : gmap string alias_val) (key : string)
    (L : list string) :
  lookup raw key = Some (Ret (Some (AList L))) →
  ∃ val seen' token rest,
    raw !! key = Some val
    ∧ eval_alias_seen (size raw) raw val {[key]} [] = Some (Ret (AList L), seen')
    ∧ key ∈ seen' ∧ seen' ⊆ dom raw
    ∧ reexpand raw seen' L = Some (Ret (AList L))
    ∧ (∀ fuel (seen : gset string), seen' ⊆ seen →
         eval_alias fuel raw (VList L) seen [] = Some (Ret (AList L)))
    ∧ L = token :: rest
    ∧ (∀ fuel (seen : gset string), token ∈ seen ∨ token ∉ dom raw →
         eval_alias fuel raw (VList L) seen [] = Some (Ret (AList L))).
Proof.
  unfold lookup, get. intros H.
  destruct (raw !! key) as [val|] eqn:Hk; [|done].
  pose proof (eval_alias_seen_result raw (size raw) val {[key]} []) as Hres.
  destruct (eval_alias (size raw) raw val {[key]} []) as [[r|e]|] eqn:He.
  2,3: by destruct val.
  assert (r = AList L) as -> by (destruct val; congruence).
  destruct (eval_alias_seen (size raw) raw val {[key]} []) as [[r' seen']|] eqn:Hseen;
    [|discriminate Hres].
  injection Hres as ->.
  destruct (eval_alias_seen_ends raw _ _ _ _ _ _ Hseen) as (Hsub & Hdom & Hhead).
  destruct (Hhead L eq_refl) as (token & rest & -> & Hstop).
  assert (key ∈ dom raw) as Hkey by (apply elem_of_dom; eauto).
  assert (∀ fuel (seen : gset string), token ∈ seen ∨ token ∉ dom raw →
            eval_alias fuel raw (VList (token :: rest)) seen []
            = Some (Ret (AList (token :: rest)))) as Hstable.
  { intros fuel seen Hs. rewrite eval_alias_stops.
    - by rewrite app_nil_r.
    - destruct Hs as [Hs|Hs]; [by left|right; by apply not_elem_of_dom]. }
  assert (∀ seen : gset string, seen' ⊆ seen → token ∈ seen ∨ token ∉ dom raw)
    as Hlarger.
  { intros seen Hs. destruct Hstop as [Ht|Ht]; [left; set_solver|].
    right. by apply not_elem_of_dom. }
  exists val, seen', token, rest.
  split; [done|]. split; [done|]. split; [set_solver|]. split; [set_solver|].
  split; [apply Hstable; by apply Hlarger|].
  split; [intros fuel seen Hs; apply Hstable; by apply Hlarger|].
  split; [done|exact Hstable].
Qed.

Lemma alias_expansion_stable_witness :
  ∃ val seen' token rest,
    ls_raw !! "l" = Some val
    ∧ eval_alias_seen (size ls_raw) ls_raw val {["l"]} []
      = Some (Ret (AList ["ls"; "--color=auto"; "-CF"]), seen')
    ∧ "l" ∈ seen' ∧ seen' ⊆ dom ls_raw
    ∧ reexpand ls_raw seen' ["ls"; "--color=auto"; "-CF"]
      = Some (Ret (AList ["ls"; "--color=auto"; "-CF"]))
    ∧ (∀ fuel (seen : gset string), seen' ⊆ seen →
         eval_alias fuel ls_raw (VList ["ls"; "--color=auto"; "-CF"]) seen []
         = Some (Ret (AList ["ls"; "--color=auto"; "-CF"])))
    ∧ ["ls"; "--color=auto"; "-CF"] = token :: rest
    ∧ (∀ fuel (seen : gset string), token ∈ seen ∨ token ∉ dom ls_raw →
         eval_alias fuel ls_raw (VList ["ls"; "--color=auto"; "-CF"]) seen []
         = Some (Ret (AList ["ls"; "--color=auto"; "-CF"]))).
Proof.
  apply (alias_expansion_stable ls_raw "l"). vm_compute. reflexivity.
Defined.

(** In the example table the lookup of ['l'] ends with the seen set
    [{'l', 'ls'}]. *)
Example l_lookup_seen :
  eval_alias_seen (size ls_raw) ls_raw (VList ["ls"; "-CF"]) {["l"]} []
  = Some (Ret (AList ["ls"; "--color=auto"; "-CF"]), {["l"]} ∪ {["ls"]}).
Proof. reflexivity. Qed.

End Aliases.

(** ** Regular expressions

    The fragment of Python's [re] that [proc.py] uses, with its
    backtracking order: alternatives left to right, greedy [?] and [*],
    lazy [+?], capture groups, and [$] (the end of the string or just
    before a final newline).  [re_match] is [re.match]: anchored at the
    start only. *)

Module Regex.

Inductive regex :=
| Eps
| Lit (c : ascii)
| Str (s : string)                      (* a run of literal characters *)
| Class (p : ascii -> bool)
| Seq (r1 r2 : regex)
| Alt (r1 r2 : regex)
| Opt (r : regex)                       (* r?  *)
| StarClass (p : ascii -> bool)         (* [p]*  *)
| LazyPlusClass (p : ascii -> bool)     (* [p]+? *)
| Group (i : nat) (r : regex)
| Eol.                                  (* $ *)

Definition groups := list (nat * string).

Definition orelse {A} (x y : option A) : option A :=
  match x with Some a => Some a | None => y end.

(** What was consumed between the input [s] and its suffix [s']. *)
Definition consumed (s s' : string) : string :=
  substring 0 (String.length s - String.length s') s.

Fixpoint strip_prefix (p s : string) : option string :=
  match p, s with
  | EmptyString, _ => Some s
  | String a p', String b s' => if (a =? b)%char then strip_prefix p' s' else None
  | String _ _, EmptyString => None
  end.

Fixpoint star_class {A} (p : ascii -> bool) (s : string) (k : string -> option A)
  : option A :=
  match s with
  | String c s' => if p c then orelse (star_class p s' k) (k s) else k s
  | EmptyString => k s
  end.

Fixpoint lazy_plus_class {A} (p : ascii -> bool) (s : string) (k : string -> option A)
  : option A :=
  match s with
  | String c s' => if p c then orelse (k s') (lazy_plus_class p s' k) else None
  | EmptyString => None
  end.

Definition at_eol (s : string) : bool :=
  match s with
  | EmptyString => true
  | String c EmptyString => (c =? "010")%char
  | _ => false
  end.

Fixpoint run (r : regex) (s : string) (g : groups)
    (k : string -> groups -> option groups) : option groups :=
  match r with
  | Eps => k s g
  | Lit c =>
      match s with
      | String c' s' => if (c =? c')%char then k s' g else None
      | EmptyString => None
      end
  | Str p =>
      match strip_prefix p s with
      | Some s' => k s' g
      | None => None
      end
  | Class p =>
      match s with
      | String c s' => if p c then k s' g else None
      | EmptyString => None
      end
  | Seq r1 r2 => run r1 s g (fun s' g' => run r2 s' g' k)
  | Alt r1 r2 => orelse (run r1 s g k) (run r2 s g k)
  | Opt r' => orelse (run r' s g k) (k s g)
  | StarClass p => star_class p s (fun s' => k s' g)
  | LazyPlusClass p => lazy_plus_class p s (fun s' => k s' g)
  | Group i r' => run r' s g (fun s' g' => k s' ((i, consumed s s') :: g'))
  | Eol => if at_eol s then k s g else None
  end.

Definition re_match (r : regex) (s : string) : option groups :=
  run r s [] (fun _ g => Some g).

(** [m.group(i)] of a group that took part in the match. *)
Fixpoint group (g : groups) (i : nat) : string :=
  match g with
  | [] => ""
  | (j, s) :: g' => if Nat.eqb i j then s else group g' i
  end.

(** [\d], for ASCII text. *)
Definition is_digit (c : ascii) : bool :=
  let n := nat_of_ascii c in (48 <=? n) && (n <=? 57).

(** [.]: anything but a newline. *)
Definition is_dot (c : ascii) : bool := negb (c =? "010")%char.

End Regex.

(** ** The redirection parser ([proc._redirect_io]) *)

Module Redirect.
Import Regex.

(** [subprocess.STDOUT] *)
Definition STDOUT : Z := (-2)%Z.

(** [_REDIR_NAME = "(o(?:ut)?|e(?:rr)?|a(?:ll)?|&?\d?)"], as group [i]. *)
Definition _REDIR_NAME (i : nat) : regex :=
  Group i (Alt (Seq (Lit "o") (Opt (Str "ut")))
          (Alt (Seq (Lit "e") (Opt (Str "rr")))
          (Alt (Seq (Lit "a") (Opt (Str "ll")))
               (Seq (Opt (Lit "&")) (Opt (Class is_digit)))))).

(** [_REDIR_REGEX = re.compile("{r}(>?>|<){r}$".format(r=_REDIR_NAME))] *)
Definition _REDIR_REGEX : regex :=
  Seq (_REDIR_NAME 1)
 (Seq (Group 2 (Alt (Seq (Opt (Lit ">")) (Lit ">")) (Lit "<")))
 (Seq (_REDIR_NAME 3) Eol)).

Definition _MODES : gmap string string :=
  {[ ">>" := "a"; ">" := "w"; "<" := "r" ]}.
Definition _WRITE_MODES : gset string := {[ "w"; "a" ]}.
Definition _REDIR_ALL : gset string := {[ "&"; "a"; "all" ]}.
Definition _REDIR_ERR : gset string := {[ "2"; "e"; "err" ]}.
Definition _REDIR_OUT : gset string := {[ ""; "1"; "o"; "out" ]}.

(** [frozenset({'{}>{}'.format(e, o) for e in _REDIR_ERR for o in _REDIR_OUT
    if o != ''})] *)
Definition _E2O_MAP : gset string :=
  set_bind (fun e : string =>
    set_map (C := gset string) (fun o : string => e +:+ ">" +:+ o)
            (filter (fun o : string => o ≠ "") _REDIR_OUT))
    _REDIR_ERR.

(** [_is_redirect(x)] for a string [x] *)
Definition _is_redirect (x : string) : bool :=
  match re_match _REDIR_REGEX x with Some _ => true | None => false end.

(** [r.replace(c, '')] for a one-character [c] *)
Fixpoint delete_char (c : ascii) (s : string) : string :=
  match s with
  | EmptyString => EmptyString
  | String a s' => if (a =? c)%char then delete_char c s' else String a (delete_char c s')
  end.

Definition startswith (p s : string) : bool :=
  match strip_prefix p s with Some _ => true | None => false end.

(** [int(s)] on what [dest[1:]] can be: a run of decimal digits.  The empty
    string and anything else raise [ValueError]. *)
Fixpoint digits_value (acc : Z) (s : string) : option Z :=
  match s with
  | EmptyString => Some acc
  | String c s' =>
      if is_digit c
      then digits_value (acc * 10 + Z.of_nat (nat_of_ascii c - 48))%Z s'
      else None
  end.

Definition py_int (s : string) : outcome Z :=
  match s with
  | EmptyString => Raise ValueError
  | _ => match digits_value 0%Z s with Some n => Ret n | None => Raise ValueError end
  end.

(** The names of the three streams, and the error raised on a second
    binding of each. *)
Definition multiple_error (stream : string) : exn :=
  if (stream =? "stdin")%string then XonshError "Multiple inputs for stdin"
  else XonshError ("Multiple redirects for " +:+ stream).

Definition unrecognized (r : string) : exn :=
  XonshError ("Unrecognized redirection command: " +:+ r).

(** The [loc] argument: a path token or a file descriptor. *)
Inductive target :=
| TPath (fname : string)
| TFd (fd : Z).

Section Parser.

(** Open files and the file system are left abstract: [py_open fs name mode]
    is the builtin [open], [None] when it raises. *)
Variable handle : Type.
Variable FS : Type.
Variable py_open : FS -> string -> string -> option (handle * FS).

(** What a stream is bound to: an open file or an integer
    ([subprocess.STDOUT] or a file descriptor). *)
Inductive binding :=
| BFile (h : handle)
| BInt (n : Z).

(** The [streams] dictionary.  [binds] is the dictionary itself; [writes]
    records, in order, the key of every assignment [streams[k] = v] made so
    far. *)
Record stream_dict := {
  binds : gmap string binding;
  writes : list string
}.

Definition empty_streams : stream_dict := {| binds := ∅; writes := [] |}.

(** [k in streams] *)
Definition contains (k : string) (d : stream_dict) : bool :=
  bool_decide (is_Some (binds d !! k)).

(** [streams[k] = v] *)
Definition setitem (k : string) (v : binding) (d : stream_dict) : stream_dict :=
  {| binds := <[k := v]> (binds d); writes := writes d ++ [k] |}.

(** [_open(fname, mode)] *)
Definition _open (fname : option target) (mode : string) (fs : FS)
  : outcome (binding * FS) :=
  match fname with
  | Some (TFd n) => Ret (BInt n, fs)
  | Some (TPath p) =>
      match py_open fs p mode with
      | Some (h, fs') => Ret (BFile h, fs')
      | None => Raise (XonshError ("xonsh: " +:+ p +:+ ": no such file or directory"))
      end
  | None => Raise (XonshError "xonsh: None: no such file or directory")
  end.

(** [_redirect_io(streams, r, loc=None)] *)
Definition _redirect_io (streams : stream_dict) (r : string) (loc : option target)
    (fs : FS) : outcome (stream_dict * FS) :=
  (* special case of redirecting stderr to stdout *)
  if bool_decide (delete_char "&" r ∈ _E2O_MAP) then
    if contains "stderr" streams
    then Raise (XonshError "Multiple redirects for stderr")
    else Ret (setitem "stderr" (BInt STDOUT) streams, fs)
  else
  match re_match _REDIR_REGEX r with
  | None => Raise AttributeError
  | Some m =>
    let orig := group m 1 in
    let mode := group m 2 in
    let dest := group m 3 in
    (* redirect to fd *)
    do ld <- (if startswith "&" dest then
                do n <- py_int (substring 1 (String.length dest - 1) dest);
                match loc with
                | None => Ret (Some (TFd n), "")
                | Some _ => Raise (unrecognized r)
                end
              else Ret (loc, dest));
    let loc := fst ld in
    let dest := snd ld in
    let mode := _MODES !! mode in
    if bool_decide (mode = Some "r") then
      if (0 <? String.length orig) || (0 <? String.length dest)
      then Raise (unrecognized r)
      else if contains "stdin" streams
      then Raise (XonshError "Multiple inputs for stdin")
      else do f <- _open loc "r" fs;
           Ret (setitem "stdin" (fst f) streams, snd f)
    else
    match mode with
    | Some wmode =>
      if bool_decide (wmode ∈ _WRITE_MODES) then
        do targets <-
          (if bool_decide (orig ∈ _REDIR_ALL) then
             if contains "stderr" streams
             then Raise (XonshError "Multiple redirects for stderr")
             else if contains "stdout" streams
             then Raise (XonshError "Multiple redirects for stdout")
             else if 0 <? String.length dest
             then Raise (unrecognized r)
             else Ret ["stdout"; "stderr"]
           else if bool_decide (orig ∈ _REDIR_ERR) then
             if contains "stderr" streams
             then Raise (XonshError "Multiple redirects for stderr")
             else if 0 <? String.length dest
             then Raise (unrecognized r)
             else Ret ["stderr"]
           else if bool_decide (orig ∈ _REDIR_OUT) then
             if contains "stdout" streams
             then Raise (XonshError "Multiple redirects for stdout")
             else if 0 <? String.length dest
             then Raise (unrecognized r)
             else Ret ["stdout"]
           else Raise (unrecognized r));
        do f <- _open loc wmode fs;
        Ret (foldl (fun d t => setitem t (fst f) d) streams targets, snd f)
      else Raise (unrecognized r)
    | None => Raise (unrecognized r)
    end
  end.

(** A stage's redirection tokens, parsed one after the other into the same
    dictionary, as the loop of [get_proc] does; the first exception ends
    the parse. *)
Fixpoint redirect_all (toks : list (string * option target))
    (streams : stream_dict) (fs : FS) : outcome (stream_dict * FS) :=
  match toks with
  | [] => Ret (streams, fs)
  | (r, loc) :: rest =>
      do s <- _redirect_io streams r loc fs;
      redirect_all rest (fst s) (snd s)
  end.

(** *** Every stream is assigned at most once *)

(** The dictionary and its assignment record agree, and no key was assigned
    twice. *)
Definition bound_once (d : stream_dict) : Prop :=
  NoDup (writes d)
  ∧ (∀ k, k ∈ writes d ↔ is_Some (binds d !! k))
  ∧ (∀ k, k ∈ writes d → k ∈ ["stdin"; "stdout"; "stderr"]).

Arguments contains : simpl never.
Arguments setitem : simpl never.

Lemma contains_false k d : contains k d = false → binds d !! k = None.
Proof.
  unfold contains. intros H. apply bool_decide_eq_false in H.
  by apply eq_None_not_Some.
Qed.

Lemma contains_empty k : contains k empty_streams = false.
Proof. unfold contains. apply bool_decide_eq_false. simpl. by intros [? ?]. Qed.

Lemma bound_once_empty : bound_once empty_streams.
Proof.
  split; [constructor|]. split.
  - intros k. simpl. split; [by intros ?%elem_of_nil|by intros [? ?]].
  - intros k. simpl. by intros ?%elem_of_nil.
Qed.

Lemma bound_once_setitem k v d :
  k ∈ ["stdin"; "stdout"; "stderr"] →
  bound_once d → contains k d = false → bound_once (setitem k v d).
Proof.
  intros Hk (Hnd & Hdom & Hnames) Hc. apply contains_false in Hc.
  assert (k ∉ writes d) as Hnotin.
  { intros Hin. apply Hdom in Hin. rewrite Hc in Hin. by destruct Hin. }
  split; [|split]; unfold setitem; simpl.
  - apply NoDup_app. split; [done|]. split; [|apply NoDup_singleton].
    intros x Hx ->%list_elem_of_singleton. done.
  - intros x. rewrite elem_of_app, list_elem_of_singleton, Hdom.
    destruct (decide (k = x)) as [->|Hne].
    + rewrite lookup_insert_eq. naive_solver.
    + rewrite lookup_insert_ne by done. naive_solver.
  - intros x. rewrite elem_of_app, list_elem_of_singleton.
    intros [Hx| ->]; auto.
Qed.

Lemma contains_setitem_ne k k' v d :
  k ≠ k' → contains k' (setitem k v d) = contains k' d.
Proof.
  intros Hne. unfold contains, setitem. simpl.
  by rewrite lookup_insert_ne.
Qed.

Ltac stream_names :=
  repeat (first [apply list_elem_of_here | apply list_elem_of_further]).

(** Name the tests of [_redirect_io] that do not look at the dictionary,
    so that a case analysis stays small. *)
Ltac name_token_tests r :=
  unfold _redirect_io in *;
  destruct (bool_decide (delete_char _ r ∈ _E2O_MAP));
  [| destruct (re_match _REDIR_REGEX r) as [m|];
     [ cbv zeta in *;
       set (ld := (if startswith _ (group m 3) then _ else _)) in *;
       set (orig := group m 1) in *;
       set (mode := _MODES !! group m 2) in *;
       clearbody ld orig mode;
       destruct mode as [wmode|];
       [ set (isr := bool_decide (Some wmode = Some "r")) in *;
         set (isw := bool_decide (wmode ∈ _WRITE_MODES)) in *;
         set (ball := bool_decide (orig ∈ _REDIR_ALL)) in *;
         set (berr := bool_decide (orig ∈ _REDIR_ERR)) in *;
         set (bout := bool_decide (orig ∈ _REDIR_OUT)) in *;
         set (lorig := 0 <? String.length orig) in *;
         clearbody isr isw ball berr bout lorig;
         destruct ld as [[loc' dest]|e]; unfold bind in *; cbn [fst snd] in *;
         [ set (ldest := 0 <? String.length dest) in *; clearbody ldest |]
       | destruct ld as [[loc' dest]|e]; unfold bind in *; cbn [fst snd] in *;
         rewrite ?bool_decide_eq_false_2 in * by discriminate ]
     | ] ].

Lemma _redirect_io_bound_once d r loc fs d' fs' :
  bound_once d →
  _redirect_io d r loc fs = Ret (d', fs') →
  bound_once d'.
Proof.
  intros Hinv H. name_token_tests r.
  all: repeat case_match; simplify_eq; cbn [foldl].
  all: repeat (apply bound_once_setitem; [stream_names| |]); try done.
  all: by rewrite contains_setitem_ne.
Qed.

Lemma redirect_all_bound_once toks :
  ∀ d fs d' fs',
    bound_once d →
    redirect_all toks d fs = Ret (d', fs') →
    bound_once d'.
Proof.
  induction toks as [|[r loc] rest IH]; intros d fs d' fs' Hinv H; simpl in H.
  - by simplify_eq.
  - unfold bind in H. destruct (_redirect_io d r loc fs) as [[d1 fs1]|] eqn:H1;
      [|done].
    simpl in H. eapply IH; [|exact H]. by eapply _redirect_io_bound_once.
Qed.

(** A token that binds stream [k] when the dictionary is empty raises the
    multiple-binding error of a stream it binds when given a dictionary in
    which [k] is bound already. *)
Lemma _redirect_io_rebinding d r loc fs d0 fs0 k :
  _redirect_io empty_streams r loc fs = Ret (d0, fs0) →
  k ∈ writes d0 →
  contains k d = true →
  ∃ k', k' ∈ writes d0 ∧ contains k' d = true
        ∧ _redirect_io d r loc fs = Raise (multiple_error k').
Proof.
  intros H0 Hk Hc. name_token_tests r.
  all: rewrite ?contains_empty in H0.
  all: repeat case_match; simplify_eq; cbn [foldl] in *.
  all: unfold setitem in *; cbn [writes app empty_streams] in *.
  all: repeat match goal with
       | H : _ ∈ _ :: _ |- _ => apply elem_of_cons in H; destruct H as [->|H]
       | H : _ ∈ [] |- _ => by apply elem_of_nil in H
       end; try congruence.
  all: first [ by (exists "stderr"; split; [stream_names|done])
             | by (exists "stdout"; split; [stream_names|done])
             | by (exists "stdin"; split; [stream_names|done]) ].
Qed.

Lemma redirect_all_app toks1 toks2 :
  ∀ d fs,
    redirect_all (toks1 ++ toks2) d fs
    = (do s <- redirect_all toks1 d fs; redirect_all toks2 (fst s) (snd s)).
Proof.
  induction toks1 as [|[r loc] rest IH]; intros d fs; simpl; [done|].
  destruct (_redirect_io d r loc fs) as [[d1 fs1]|e]; simpl; [apply IH|done].
Qed.

Lemma elem_of_E2O_MAP (x : string) :
  x ∈ _E2O_MAP
  ↔ ∃ e o, e ∈ _REDIR_ERR ∧ o ∈ _REDIR_OUT ∧ o ≠ "" ∧ x = e +:+ ">" +:+ o.
Proof.
  unfold _E2O_MAP. rewrite elem_of_set_bind. split.
  - intros (e & He & Hx). apply elem_of_map in Hx as (o & -> & Ho).
    apply elem_of_filter in Ho as [Hne Ho]. by exists e, o.
  - intros (e & o & He & Ho & Hne & ->). exists e. split; [done|].
    apply elem_of_map. exists o. split; [done|]. by apply elem_of_filter.
Qed.

(** C2: parsing any sequence of redirection tokens into an initially empty
    dictionary assigns each of [stdin], [stdout] and [stderr] at most once
    (no key occurs twice among the assignments made, and the assigned keys
    are exactly the bound ones); a token that would bind a stream (it binds
    it when the dictionary is empty) raises, when that stream is bound
    already, the multiple-binding error of a bound stream it targets, alone
    or after any sequence of tokens. *)
Theorem redirect_binds_each_stream_once
    (toks : list (string * option target)) (fs : FS) :
  (∀ d fs', redirect_all toks empty_streams fs = Ret (d, fs') →
     NoDup (writes d)
     ∧ (∀ k, k ∈ writes d ↔ is_Some (binds d !! k))
     ∧ (∀ k, k ∈ writes d → k ∈ ["stdin"; "stdout"; "stderr"]))
  ∧ (∀ d r loc fs1 d0 fs0 k,
       _redirect_io empty_streams r loc fs1 = Ret (d0, fs0) →
       k ∈ writes d0 →
       contains k d = true →
       ∃ k', k' ∈ writes d0 ∧ contains k' d = true
             ∧ _redirect_io d r loc fs1 = Raise (multiple_error k')
             ∧ (redirect_all toks empty_streams fs = Ret (d, fs1) →
                ∀ more, redirect_all (toks ++ (r, loc) :: more) empty_streams fs
                        = Raise (multiple_error k'))).
Proof.
  split.
  - intros d fs' H.
    by apply (redirect_all_bound_once toks empty_streams fs d fs' bound_once_empty).
  - intros d r loc fs1 d0 fs0 k H0 Hk Hc.
    destruct (_redirect_io_rebinding d r loc fs1 d0 fs0 k H0 Hk Hc)
      as (k' & Hk' & Hc' & Hraise).
    exists k'. split; [exact Hk'|]. split; [exact Hc'|]. split; [exact Hraise|].
    intros Hseq more. rewrite redirect_all_app, Hseq.
    cbn [bind fst snd redirect_all]. rewrite Hraise. reflexivity.
Qed.

(** C10: a token that, once every ['&'] is deleted, reads err-marker ['>']
    out-marker (['2>&1'] included) binds [stderr] to [subprocess.STDOUT] and
    touches nothing else, whatever [loc] is; it raises "Multiple redirects
    for stderr" exactly when [stderr] is bound already. *)
Theorem e2o_token_merges_stderr (streams : stream_dict) (r : string)
    (loc : option target) (fs : FS) :
  (∃ e o, e ∈ _REDIR_ERR ∧ o ∈ _REDIR_OUT ∧ o ≠ ""
          ∧ delete_char "&" r = e +:+ ">" +:+ o) →
  _redirect_io streams r loc fs
  = (if contains "stderr" streams
     then Raise (XonshError "Multiple redirects for stderr")
     else Ret (setitem "stderr" (BInt STDOUT) streams, fs))
  ∧ (_redirect_io streams r loc fs
     = Raise (XonshError "Multiple redirects for stderr")
     ↔ contains "stderr" streams = true).
Proof.
  intros He. apply elem_of_E2O_MAP in He.
  unfold _redirect_io. rewrite (bool_decide_eq_true_2 _ He).
  destruct (contains "stderr" streams); split; try reflexivity.
  - split; reflexivity.
  - split; discriminate.
Qed.

End Parser.

Arguments BInt {handle} n.
Arguments BFile {handle} h.
Arguments empty_streams {handle}.

(** ['2>&1'] with an empty dictionary and with [stderr] already bound, over
    a file system where every [open] succeeds. *)
Definition open_any (fs : unit) (fname mode : string) : option (string * unit) :=
  Some (fname, fs).

Lemma e2o_token_merges_stderr_witness :
  (_redirect_io string unit open_any empty_streams "2>&1" None tt
   = (if contains string "stderr" empty_streams
      then Raise (XonshError "Multiple redirects for stderr")
      else Ret (setitem string "stderr" (BInt STDOUT) empty_streams, tt)))
  ∧ (_redirect_io string unit open_any empty_streams "2>&1" None tt
     = Raise (XonshError "Multiple redirects for stderr")
     ↔ contains string "stderr" empty_streams = true).
Proof.
  apply (e2o_token_merges_stderr string unit open_any empty_streams "2>&1" None tt).
  exists "2", "1".
  split; [unfold _REDIR_ERR; set_solver|].
  split; [unfold _REDIR_OUT; set_solver|].
  split; [discriminate|reflexivity].
Defined.

Example two_greater_amp_one :
  _redirect_io string unit open_any empty_streams "2>&1" None tt
  = Ret ({| binds := {[ "stderr" := BInt STDOUT ]}; writes := ["stderr"] |}, tt).
Proof. vm_compute. reflexivity. Qed.

Example stderr_then_two_greater_amp_one :
  redirect_all string unit open_any
    [("2>", Some (TPath "err.txt")); ("2>&1", None)] empty_streams tt
  = Raise (XonshError "Multiple redirects for stderr").
Proof. vm_compute. reflexivity. Qed.

Example stdout_then_all :
  redirect_all string unit open_any
    [(">", Some (TPath "out.txt")); ("&>", Some (TPath "all.txt"))] empty_streams tt
  = Raise (XonshError "Multiple redirects for stdout").
Proof. vm_compute. reflexivity. Qed.

End Redirect.

(** ** The command resolver ([proc.get_script_subproc_command]) *)

Module Resolver.
Import Regex.

Definition NUL : ascii := "000"%char.
Definition LF : ascii := "010"%char.

(** *** String helpers of the Python library *)

Definition string_rev (s : string) : string :=
  string_of_list_ascii (rev (list_ascii_of_string s)).

Definition startswith (p s : string) : bool :=
  match strip_prefix p s with Some _ => true | None => false end.

Definition endswith (p s : string) : bool :=
  startswith (string_rev p) (string_rev s).

(** [str.isspace] on ASCII: TAB, LF, VT, FF, CR, FS, GS, RS, US and space. *)
Definition is_py_space (c : ascii) : bool :=
  let n := nat_of_ascii c in
  ((9 <=? n) && (n <=? 13)) || ((28 <=? n) && (n <=? 32)).

Fixpoint lstrip (s : string) : string :=
  match s with
  | String c s' => if is_py_space c then lstrip s' else s
  | EmptyString => EmptyString
  end.

Definition rstrip (s : string) : string := string_rev (lstrip (string_rev s)).

(** [str.strip()] *)
Definition strip (s : string) : string := rstrip (lstrip s).

(** [str.upper()] on ASCII *)
Definition upper_char (c : ascii) : ascii :=
  let n := nat_of_ascii c in
  if (97 <=? n) && (n <=? 122) then ascii_of_nat (n - 32) else c.

Fixpoint upper (s : string) : string :=
  match s with
  | String c s' => String (upper_char c) (upper s')
  | EmptyString => EmptyString
  end.

(** [f.readline()] on the bytes of a file: up to and with the first LF. *)
Fixpoint readline (bytes : string) : string :=
  match bytes with
  | String c rest => if (c =? LF)%char then String c "" else String c (readline rest)
  | EmptyString => EmptyString
  end.

(** The part of a path after its last separator: ['/'], and on Windows
    also the backslash ([os.path.basename] of a path without a drive). *)
Definition is_sep (windows : bool) (c : ascii) : bool :=
  (c =? "/")%char || (windows && (c =? "\")%char).

Fixpoint basename_from (windows : bool) (acc s : string) : string :=
  match s with
  | String c s' =>
      if is_sep windows c then basename_from windows "" s'
      else basename_from windows (acc +:+ String c "") s'
  | EmptyString => acc
  end.

Definition basename (windows : bool) (x : string) : string :=
  basename_from windows "" x.

(** The extension of [os.path.splitext]: from the last dot of the base
    name, when some other character than a dot comes before it there. *)
Fixpoint ext_from (seen_other : bool) (ext : option string) (s : string) : string :=
  match s with
  | String c s' =>
      if (c =? ".")%char
      then ext_from seen_other (if seen_other then Some s else ext) s'
      else ext_from true ext s'
  | EmptyString => match ext with Some e => e | None => "" end
  end.

Definition splitext_ext (windows : bool) (x : string) : string :=
  ext_from false None (basename windows x).

(** [RE_SHEBANG = re.compile(r'#![ \t]*(.+?)$')] *)
Definition is_blank (c : ascii) : bool := (c =? " ")%char || (c =? "009")%char.

Definition RE_SHEBANG : regex :=
  Seq (Str "#!") (Seq (StarClass is_blank) (Seq (Group 1 (LazyPlusClass is_dot)) Eol)).

(** A file of the file system: its permission bits and its bytes. *)
Record file := {
  f_exec : bool;
  f_read : bool;
  f_bytes : string
}.

(** The loop of [_is_binary] over the bytes read one at a time. *)
Fixpoint scan_binary (limit : nat) (bytes : string) : bool :=
  match limit with
  | O => false
  | S n =>
      match bytes with
      | String c rest =>
          if (c =? NUL)%char then true
          else if (c =? LF)%char then false
          else scan_binary n rest
      | EmptyString => false
      end
  end.

Section Resolver.

(** The platform, the [PATHEXT] of the environment, the UTF-8 decoder of
    [bytes.decode()] and the file system. *)
Variable ON_WINDOWS : bool.
Variable PATHEXT : list string.
Variable decode : string -> outcome string.
Variable fs : gmap string file.

(** [os.access(fname, os.X_OK)] *)
Definition access_x (fname : string) : bool :=
  match fs !! fname with
  | Some f => f_exec f
  | None => false
  end.

(** [open(fname, 'rb')], read to the end *)
Definition open_rb (fname : string) : outcome string :=
  match fs !! fname with
  | Some f => if f_read f then Ret (f_bytes f) else Raise PermissionError
  | None => Raise FileNotFoundError
  end.

(** [_is_binary(fname, limit=80)] *)
Definition _is_binary (fname : string) (limit : nat) : outcome bool :=
  do bytes <- open_rb fname; Ret (scan_binary limit bytes).

(** [_un_shebang(x)] *)
Definition _un_shebang (x : string) : list string :=
  if (x =? "/usr/bin/env")%string then []
  else
    let x :=
      if existsb (fun i => startswith i x) ["/usr/bin"; "/usr/local/bin"; "/bin"]
      then basename ON_WINDOWS x
      else if endswith "python" x || endswith "python.exe" x then "python"
      else x in
    if (x =? "xonsh")%string then ["python"; "-m"; "xonsh.main"]
    else [x].

(** [get_script_subproc_command(fname, args)] *)
Definition get_script_subproc_command (fname : string) (args : list string)
  : outcome (list string) :=
  (* make sure file is executable *)
  if negb (access_x fname) then Raise PermissionError else
  (* if the file is a binary, we should call it directly *)
  do bin <- _is_binary fname 80;
  if bin then Ret ([fname] ++ args) else
  if ON_WINDOWS && bool_decide (upper (splitext_ext ON_WINDOWS fname) ∈ PATHEXT)
  then Ret ([fname] ++ args) else
  (* find interpreter *)
  do bytes <- open_rb fname;
  do line <- decode (readline bytes);
  let first_line := strip line in
  do interp <-
    match re_match RE_SHEBANG first_line with
    | None => Ret ["xonsh"]                 (* xonsh is the default interpreter *)
    | Some m =>
        let interp := strip (group m 1) in
        if 0 <? String.length interp then Shlex.split interp else Ret ["xonsh"]
    end;
  let interp :=
    if ON_WINDOWS then concat (map _un_shebang interp) else interp in
  Ret (interp ++ [fname] ++ args).

End Resolver.

(** The script of the scenario: a file whose first line is
    [#!/usr/bin/env python3]. *)
Definition env_python3 : string := "#!/usr/bin/env python3".

Definition script (rest : string) : file :=
  {| f_exec := true; f_read := true; f_bytes := env_python3 +:+ String LF rest |}.

(** A NUL among the first [limit] bytes. *)
Definition nul_within (limit : nat) (bytes : string) : Prop :=
  ∃ i, i < limit ∧ String.get i bytes = Some NUL.

(** A NUL among the first [limit] bytes with no LF before it. *)
Definition nul_on_first_line (limit : nat) (bytes : string) : Prop :=
  ∃ i, i < limit ∧ String.get i bytes = Some NUL
       ∧ ∀ j, j < i → String.get j bytes ≠ Some LF.

(** *** The binary heuristic *)

Lemma scan_binary_spec :
  ∀ limit bytes, scan_binary limit bytes = true ↔ nul_on_first_line limit bytes.
Proof.
  induction limit as [|n IH]; intros bytes; simpl.
  - split; [done|]. intros (i & Hi & _). lia.
  - destruct bytes as [|c rest].
    + split; [done|]. intros (i & _ & Hg & _). by destruct i.
    + destruct (Ascii.eqb_spec c NUL) as [->|Hnul].
      * split; [|done]. intros _. exists 0. repeat split; [lia|].
        intros j Hj. lia.
      * destruct (Ascii.eqb_spec c LF) as [->|Hlf].
        -- split; [done|]. intros (i & Hi & Hg & Hbefore).
           destruct i as [|i]; simpl in Hg; [congruence|].
           by destruct (Hbefore 0 ltac:(lia)).
        -- rewrite IH. split.
           ++ intros (i & Hi & Hg & Hbefore). exists (S i).
              split; [lia|]. split; [done|].
              intros [|j] Hj; simpl; [congruence|]. apply Hbefore. lia.
           ++ intros (i & Hi & Hg & Hbefore).
              destruct i as [|i]; simpl in Hg; [congruence|].
              exists i. split; [lia|]. split; [done|].
              intros j Hj. apply (Hbefore (S j)). lia.
Qed.

(** *** What [strip] and [shlex.split] leave at the head *)

Lemma lstrip_head s c s' : lstrip s = String c s' → is_py_space c = false.
Proof.
  induction s as [|a s IH]; simpl; [done|].
  destruct (is_py_space a) eqn:Ha; [done|]. congruence.
Qed.

Lemma lstrip_keeps_last l c :
  is_py_space c = false →
  ∃ l', lstrip (string_of_list_ascii (l ++ [c])) = string_of_list_ascii (l' ++ [c]).
Proof.
  intros Hc. induction l as [|a l IH]; simpl.
  - rewrite Hc. by exists [].
  - destruct (is_py_space a); [done|]. by exists (a :: l).
Qed.

Lemma rstrip_head c s :
  is_py_space c = false → ∃ s', rstrip (String c s) = String c s'.
Proof.
  intros Hc. unfold rstrip, string_rev at 2. simpl.
  destruct (lstrip_keeps_last (rev (list_ascii_of_string s)) c Hc) as [l' ->].
  unfold string_rev. rewrite list_ascii_of_string_of_list_ascii, rev_app_distr.
  simpl. eauto.
Qed.

Lemma strip_head s c s' : strip s = String c s' → is_py_space c = false.
Proof.
  unfold strip. destruct (lstrip s) as [|c0 t] eqn:Hl; [done|].
  apply lstrip_head in Hl. destruct (rstrip_head c0 t Hl) as [t' ->].
  congruence.
Qed.

Lemma shlex_whitespace_is_space c :
  Shlex.is_whitespace c = true → is_py_space c = true.
Proof.
  unfold Shlex.is_whitespace. rewrite !orb_true_iff.
  intros [[[H|H]|H]|H]; apply Ascii.eqb_eq in H; by subst.
Qed.

(** The states of the lexer in which a token is under way. *)
Definition token_begun (st : Shlex.lex_state) (quoted : bool) (tok : string) : Prop :=
  match st with
  | Shlex.LWhite => False
  | Shlex.LWord => quoted = true ∨ tok ≠ ""
  | Shlex.LQuote _ => True
  | Shlex.LEscape Shlex.LWord => True
  | Shlex.LEscape (Shlex.LQuote _) => True
  | Shlex.LEscape _ => False
  end.

Lemma snoc_nonempty tok c : Shlex.snoc tok c ≠ "".
Proof. unfold Shlex.snoc. by destruct tok. Qed.

Lemma read_tokens_begun :
  ∀ s st quoted tok l,
    token_begun st quoted tok →
    Shlex.read_tokens st quoted tok s = Ret l → l ≠ [].
Proof.
  induction s as [|c s IH]; intros st quoted tok l Hb H; simpl in H.
  - destruct st; try done. simpl in Hb. unfold Shlex.emit in H.
    destruct Hb as [->|Hne]; [by simplify_eq|].
    apply String.eqb_neq in Hne. rewrite Hne, orb_true_r in H. by simplify_eq.
  - destruct st as [| |q|st']; [done| | |].
    + simpl in Hb.
      assert (quoted || negb (tok =? "")%string = true) as Hemit.
      { destruct Hb as [->|Hne]; [done|].
        apply String.eqb_neq in Hne. by rewrite Hne, orb_true_r. }
      rewrite Hemit in H.
      destruct (Shlex.is_whitespace c).
      { unfold bind in H. destruct (Shlex.read_tokens _ _ _ s); by simplify_eq. }
      destruct (Shlex.is_quote c); [by eapply IH; [|exact H]|].
      destruct (Shlex.is_escape c); [by eapply IH; [|exact H]|].
      eapply IH; [|exact H]. right. apply snoc_nonempty.
    + destruct (c =? q)%char; [eapply IH; [|exact H]; by left|].
      destruct (Shlex.is_escape c && Shlex.is_escapedquote q);
        by (eapply IH; [|exact H]).
    + destruct st' as [| |q|st'']; try done.
      * eapply IH; [|exact H]. right. apply snoc_nonempty.
      * eapply IH; [|exact H]. exact I.
Qed.

Lemma split_stripped_nonempty x l :
  (0 <? String.length (strip x)) = true →
  Shlex.split (strip x) = Ret l → l ≠ [].
Proof.
  intros Hlen H. destruct (strip x) as [|c s] eqn:Hs; [done|].
  apply strip_head in Hs.
  assert (Shlex.is_whitespace c = false) as Hws.
  { destruct (Shlex.is_whitespace c) eqn:Hw; [|done].
    apply shlex_whitespace_is_space in Hw. congruence. }
  unfold Shlex.split in H. simpl in H. rewrite Hws in H.
  destruct (Shlex.is_escape c); [by eapply read_tokens_begun; [|exact H]|].
  destruct (Shlex.is_quote c); [by eapply read_tokens_begun; [|exact H]|].
  eapply read_tokens_begun; [|exact H]. by right.
Qed.

(** *** The resolver on scripts *)

Lemma script_first_line rest :
  readline (f_bytes (script rest)) = env_python3 +:+ String LF "".
Proof. reflexivity. Qed.

Lemma script_not_binary rest : scan_binary 80 (f_bytes (script rest)) = false.
Proof. reflexivity. Qed.

(** The resolver on an executable, readable file that is not a binary and
    whose first line decodes to [line]. *)
Lemma script_resolution ON_WINDOWS PATHEXT decode fs fname args f line :
  fs !! fname = Some f → f_exec f = true → f_read f = true →
  scan_binary 80 (f_bytes f) = false →
  decode (readline (f_bytes f)) = Ret line →
  get_script_subproc_command ON_WINDOWS PATHEXT decode fs fname args
  = if ON_WINDOWS && bool_decide (upper (splitext_ext ON_WINDOWS fname) ∈ PATHEXT)
    then Ret ([fname] ++ args)
    else
      do interp <-
        match re_match RE_SHEBANG (strip line) with
        | None => Ret ["xonsh"]
        | Some m =>
            if 0 <? String.length (strip (group m 1))
            then Shlex.split (strip (group m 1)) else Ret ["xonsh"]
        end;
      Ret ((if ON_WINDOWS then concat (map (_un_shebang ON_WINDOWS) interp)
            else interp) ++ [fname] ++ args).
Proof.
  intros Hf Hx Hr Hbin Hline.
  unfold get_script_subproc_command, _is_binary, open_rb, access_x.
  rewrite Hf, Hx, Hr. cbn [negb bind]. rewrite Hbin, Hline. reflexivity.
Qed.

(** The file system of the scenario: the script at [/tmp/x], nothing else. *)
Definition tmp_x : gmap string file := {[ "/tmp/x" := script "" ]}.

(** C6 as stated fails where [ON_WINDOWS] is false: the interpreter of the
    shebang line is word-split and used as it is, [/usr/bin/env] included. *)
Lemma env_python3_posix_keeps_env :
  tmp_x !! "/tmp/x" = Some (script "")
  ∧ get_script_subproc_command false [] Ret tmp_x "/tmp/x" []
    = Ret ["/usr/bin/env"; "python3"; "/tmp/x"].
Proof. split; vm_compute; reflexivity. Qed.

(** C6, amended: for an executable, readable script whose first line is
    [#!/usr/bin/env python3], the resolver returns [python3; path; args...]
    on Windows, where the interpreter words go through [_un_shebang]
    (unless the extension of the path is in [PATHEXT], and the file is
    then invoked directly); elsewhere the word-split interpreter is kept
    as it is and the result is [/usr/bin/env; python3; path; args...]. *)
Theorem env_python3_script (ON_WINDOWS : bool) (PATHEXT : list string)
    (decode : string -> outcome string) (fs : gmap string file)
    (fname : string) (args : list string) (rest : string) :
  fs !! fname = Some (script rest) →
  decode (env_python3 +:+ String LF "") = Ret (env_python3 +:+ String LF "") →
  get_script_subproc_command ON_WINDOWS PATHEXT decode fs fname args
  = if ON_WINDOWS
    then if bool_decide (upper (splitext_ext true fname) ∈ PATHEXT)
         then Ret (fname :: args)
         else Ret ("python3" :: fname :: args)
    else Ret ("/usr/bin/env" :: "python3" :: fname :: args).
Proof.
  intros Hf Hdec.
  rewrite (script_resolution ON_WINDOWS PATHEXT decode fs fname args
             (script rest) _ Hf eq_refl eq_refl (script_not_binary rest)
             (eq_trans (f_equal decode (script_first_line rest)) Hdec)).
  destruct ON_WINDOWS; cbn [andb].
  - destruct (bool_decide (upper (splitext_ext true fname) ∈ PATHEXT));
      [reflexivity|].
    vm_compute. reflexivity.
  - vm_compute. reflexivity.
Qed.

Lemma env_python3_script_witness :
  get_script_subproc_command true [".EXE"] Ret tmp_x "/tmp/x" ["-v"]
  = if true
    then if bool_decide (upper (splitext_ext true "/tmp/x") ∈ [".EXE"])
         then Ret ("/tmp/x" :: ["-v"])
         else Ret ("python3" :: "/tmp/x" :: ["-v"])
    else Ret ("/usr/bin/env" :: "python3" :: "/tmp/x" :: ["-v"]).
Proof.
  apply (env_python3_script true [".EXE"] Ret tmp_x "/tmp/x" ["-v"] "");
    reflexivity.
Defined.

Example env_python3_windows :
  get_script_subproc_command true [".EXE"] Ret tmp_x "/tmp/x" ["-v"]
  = Ret ["python3"; "/tmp/x"; "-v"].
Proof. vm_compute. reflexivity. Qed.

(** A file whose second byte is NUL, after a newline. *)
Definition nul_after_newline : gmap string file :=
  {[ "/tmp/b" := {| f_exec := true; f_read := true;
                    f_bytes := String LF (String NUL "") |} ]}.

(** C8 as stated fails: a NUL within the first 80 bytes that comes after a
    newline does not make the file a binary; the resolver goes on to the
    shebang line and, finding none, runs the file with xonsh. *)
Lemma nul_after_newline_not_direct :
  nul_within 80 (String LF (String NUL ""))
  ∧ get_script_subproc_command false [] Ret nul_after_newline "/tmp/b" []
    = Ret ["xonsh"; "/tmp/b"].
Proof.
  split; [|vm_compute; reflexivity].
  exists 1. split; [lia|reflexivity].
Qed.

(** C8, amended: [_is_binary] holds exactly when a NUL occurs within the
    first 80 bytes with no newline before it; an executable, readable file
    for which it holds is invoked directly ([path; args...]), and where
    [ON_WINDOWS] is false a file is invoked directly only if it holds. *)
Theorem binary_invoked_directly (ON_WINDOWS : bool) (PATHEXT : list string)
    (decode : string -> outcome string) (fs : gmap string file)
    (fname : string) (args : list string) (f : file) :
  fs !! fname = Some f → f_exec f = true → f_read f = true →
  (_is_binary fs fname 80 = Ret true ↔ nul_on_first_line 80 (f_bytes f))
  ∧ (nul_on_first_line 80 (f_bytes f) →
     get_script_subproc_command ON_WINDOWS PATHEXT decode fs fname args
     = Ret (fname :: args))
  ∧ (ON_WINDOWS = false →
     get_script_subproc_command ON_WINDOWS PATHEXT decode fs fname args
     = Ret (fname :: args) →
     nul_on_first_line 80 (f_bytes f)).
Proof.
  intros Hf Hx Hr.
  unfold get_script_subproc_command, _is_binary, open_rb, access_x.
  rewrite Hf, Hx, Hr. cbn [negb bind].
  pose proof (scan_binary_spec 80 (f_bytes f)) as Hspec.
  destruct (scan_binary 80 (f_bytes f)) eqn:Hbin.
  { split; [|split]; [split|..]; intros; try reflexivity; by apply Hspec. }
  assert (¬ nul_on_first_line 80 (f_bytes f)) as Hnot.
  { intros Hn. apply Hspec in Hn. discriminate. }
  split; [|split].
  - split; [discriminate|done].
  - done.
  - intros -> H. exfalso.
    cbn [andb] in H.
    destruct (decode (readline (f_bytes f))) as [line|e]; [|done].
    cbn [bind] in H.
    assert (∀ interp : list string,
              interp ≠ [] → Ret (interp ++ [fname] ++ args) ≠ Ret (fname :: args))
      as Hlonger.
    { intros interp Hne [= Heq]. apply (f_equal length) in Heq.
      rewrite length_app in Heq. simpl in Heq. destruct interp; [done|].
      simpl in Heq. lia. }
    destruct (re_match RE_SHEBANG (strip line)) as [m|]; cbn [bind] in H.
    + destruct (0 <? String.length (strip (group m 1))) eqn:Hlen; cbn [bind] in H.
      * destruct (Shlex.split (strip (group m 1))) as [interp|e] eqn:Hs;
          [|done].
        cbn [bind] in H. apply (Hlonger interp); [|done].
        by eapply split_stripped_nonempty.
      * by apply (Hlonger ["xonsh"]).
    + by apply (Hlonger ["xonsh"]).
Qed.

Lemma binary_invoked_directly_witness :
  (_is_binary nul_after_newline "/tmp/b" 80 = Ret true
   ↔ nul_on_first_line 80 (String LF (String NUL "")))
  ∧ (nul_on_first_line 80 (String LF (String NUL "")) →
     get_script_subproc_command false [] Ret nul_after_newline "/tmp/b" []
     = Ret ["/tmp/b"])
  ∧ (false = false →
     get_script_subproc_command false [] Ret nul_after_newline "/tmp/b" []
     = Ret ["/tmp/b"] →
     nul_on_first_line 80 (String LF (String NUL ""))).
Proof.
  apply (binary_invoked_directly false [] Ret nul_after_newline "/tmp/b" []
           {| f_exec := true; f_read := true;
              f_bytes := String LF (String NUL "") |});
    reflexivity.
Defined.

End Resolver.

(** ** Proc-proxies ([proc.ProcProxy], [proc.SimpleProcProxy]) *)

Module Proc.

(** [get_return_code(p)], on [p.returncode] *)
Definition get_return_code (returncode : pyval) : bool :=
  match returncode with
  | PBool b => b                       (* isinstance(p, bool) *)
  | PInt z => (z =? 0)%Z               (* p == 0 *)
  | PNone | PStr _ | PSeq _ | PObj _ => false
  end.

(** A writable text stream: what was written to it, and whether it is
    broken (a write then raises). *)
Record wstream := {
  written : string;
  broken : bool
}.

(** The streams handed to the callable: what [stdin.read()] gives, and the
    two output streams. *)
Record io := {
  stdin_read : outcome string;
  stdout : wstream;
  stderr : wstream
}.

(** [stream.write(v)]: only a [str] can be written to a text stream. *)
Definition write (v : pyval) (w : wstream) : outcome wstream :=
  match v with
  | PStr s =>
      if broken w then Raise (OtherError "OSError")
      else Ret {| written := written w +:+ s; broken := false |}
  | _ => Raise TypeError
  end.

Definition stdout_write (v : pyval) : stateful io unit :=
  fun s =>
    match write v (stdout s) with
    | Ret o => (Ret tt, {| stdin_read := stdin_read s; stdout := o; stderr := stderr s |})
    | Raise e => (Raise e, s)
    end.

Definition stderr_write (v : pyval) : stateful io unit :=
  fun s =>
    match write v (stderr s) with
    | Ret o => (Ret tt, {| stdin_read := stdin_read s; stdout := stdout s; stderr := o |})
    | Raise e => (Raise e, s)
    end.

(** [stdin.read()] *)
Definition stdin_read_all : stateful io string :=
  fun s => (stdin_read s, s).

(** [r[i]] on a sequence *)
Definition getitem (items : list pyval) (i : nat) : stateful io pyval :=
  match nth_error items i with
  | Some v => ret v
  | None => raise IndexError
  end.

(** [str(r)] on an object that is neither a string nor a sequence *)
Definition py_str (r : pyval) : stateful io string :=
  match r with
  | PNone => ret "None"
  | PBool b => ret (if b then "True" else "False")
  | PInt z => ret (NilZero.string_of_int (Z.to_int z))
  | PStr s => ret s
  | PObj (Some s) => ret s
  | PObj None => raise (OtherError "__str__")
  | PSeq _ => raise (OtherError "repr")
  end.

(** The two shapes of callable: [(args, stdin, stdout, stderr)], and
    [(args, stdin_text)] run with the output streams redirected. *)
Definition four_arg_callable := list string -> stateful io pyval.
Definition simple_callable := list string -> string -> stateful io pyval.

(** What [wrapped_simple_command] does with the value [r] of the callable. *)
Definition write_result (r : pyval) : stateful io unit :=
  match r with
  | PStr _ => stdout_write r                        (* isinstance(r, str) *)
  | PSeq items =>                                   (* isinstance(r, Sequence) *)
      perform r0 <- getitem items 0;
      perform _u <- (if is_none r0 then ret tt else stdout_write r0);
      perform r1 <- getitem items 1;
      if is_none r1 then ret tt else stderr_write r1
  | PNone => ret tt
  | PBool _ | PInt _ | PObj _ =>                    (* r is not None *)
      perform t <- py_str r; stdout_write (PStr t)
  end.

(** [wrapped_simple_command] of [SimpleProcProxy.__init__] *)
Definition wrapped_simple_command (f : simple_callable) : four_arg_callable :=
  fun args =>
    try_except
      (perform i <- stdin_read_all;
       perform r <- f args i;
       perform _u <- write_result r;
       ret (PBool true))
      (ret (PBool false)).

(** The fields of a [ProcProxy] that [run] reads and writes. *)
Record ProcProxy := {
  self_f : option four_arg_callable;
  self_args : list string;
  returncode : pyval;
  streams : io
}.

(** [ProcProxy.__init__]: [returncode] starts as [None]. *)
Definition new_ProcProxy (f : option four_arg_callable) (args : list string)
    (s : io) : ProcProxy :=
  {| self_f := f; self_args := args; returncode := PNone; streams := s |}.

(** [SimpleProcProxy.__init__] *)
Definition new_SimpleProcProxy (f : simple_callable) (args : list string)
    (s : io) : ProcProxy :=
  new_ProcProxy (Some (wrapped_simple_command f)) args s.

(** [ProcProxy.run], the body of the thread. *)
Definition ProcProxy_run (self : ProcProxy) : outcome unit * ProcProxy :=
  match self_f self with
  | None => (Ret tt, self)
  | Some f =>
      match f (self_args self) (streams self) with
      | (Ret r, s') =>
          (Ret tt,
           {| self_f := self_f self; self_args := self_args self;
              returncode := if is_none r then PBool true else r;
              streams := s' |})
      | (Raise e, s') =>
          (Raise e,
           {| self_f := self_f self; self_args := self_args self;
              returncode := returncode self; streams := s' |})
      end
  end.

(** [wait] is [Thread.join]: the thread started by [__init__] has run to
    its end; an exception raised in it stays in the thread. *)
Definition wait (self : ProcProxy) : ProcProxy := snd (ProcProxy_run self).

(** [poll] *)
Definition poll (self : ProcProxy) : pyval := returncode self.

(** *** Return codes *)




Definition quiet : io :=
  {| stdin_read := Ret "";
     stdout := {| written := ""; broken := false |};
     stderr := {| written := ""; broken := false |} |}.






Example four_arg_returns_code :
  returncode (wait (new_ProcProxy (Some (fun _ => ret (PInt 3))) [] quiet)) = PInt 3.
Proof. reflexivity. Qed.

Example four_arg_returns_none :
  returncode (wait (new_ProcProxy (Some (fun _ => ret PNone)) [] quiet)) = PBool true.
Proof. reflexivity. Qed.

Example simple_raises :
  returncode (wait (new_SimpleProcProxy (fun _ _ => raise ValueError) [] quiet))
  = PBool false.
Proof. reflexivity. Qed.

Example simple_returns_pair :
  wait (new_SimpleProcProxy
          (fun _ _ => ret (PSeq [PStr "out"; PStr "err"])) [] quiet)
  = {| self_f := self_f (new_SimpleProcProxy
                   (fun _ _ => ret (PSeq [PStr "out"; PStr "err"])) [] quiet);
       self_args := [];
       returncode := PBool true;
       streams := {| stdin_read := Ret "";
                     stdout := {| written := "out"; broken := false |};
                     stderr := {| written := "err"; broken := false |} |} |}.
Proof. reflexivity. Qed.

End Proc.

(** ** Short-circuit stages ([proc.AndProc], [proc.OrProc]) *)

Module Stages.
Import Proc.

Section Stages.

(** The world outside the shell (processes, files, terminal) is left
    abstract, and so is a plain ['cmd'] stage: [run_leaf x c] is
    [get_proc(c, prev_proc, uninew, captured)] followed by [wait()], giving
    the [returncode] of the object, or the exception [get_proc] raised;
    [x] stands for [(prev_proc, uninew, captured)]. *)
Variable W : Type.
Variable leaf : Type.
Variable ctx : Type.
Variable run_leaf : ctx -> leaf -> stateful W pyval.

(** A stage: [['cmd', tokens]], [['and', cmd1, cmd2]] or [['or', cmd1, cmd2]]. *)
Inductive cmd :=
| Cmd (c : leaf)
| And (cmd1 cmd2 : cmd)
| Or (cmd1 cmd2 : cmd).

(** What the shell does to stages, in order: [get_proc] and [wait]. *)
Inductive event :=
| Build (c : cmd)
| Wait (c : cmd).

(** The world together with the record of events so far. *)
Definition st : Type := W * list event.

Definition log (e : event) : stateful st unit :=
  fun s => (Ret tt, (fst s, snd s ++ [e])).

Definition in_world {A} (m : stateful W A) : stateful st A :=
  fun s => match m (fst s) with (r, w') => (r, (w', snd s)) end.

(** [AndProc.run], given what [get_proc] followed by [wait] does on a
    stage; the value is what [self.returncode] is set to. *)
Definition AndProc_run (get_proc_wait : cmd -> stateful st pyval) (cmd1 cmd2 : cmd)
  : stateful st pyval :=
  perform o <- get_proc_wait cmd1;
  if negb (get_return_code o) then ret (PBool false)
  else
    perform o <- get_proc_wait cmd2;
    ret (PBool (get_return_code o)).

(** [OrProc.run] *)
Definition OrProc_run (get_proc_wait : cmd -> stateful st pyval) (cmd1 cmd2 : cmd)
  : stateful st pyval :=
  perform o <- get_proc_wait cmd1;
  if get_return_code o then ret (PBool true)
  else
    perform o <- get_proc_wait cmd2;
    ret (PBool (get_return_code o)).

(** [wait()] on a composite joins its thread: the return code is what [run]
    set, and still [None] when [run] died of an exception. *)
Definition join (body : stateful st pyval) : stateful st pyval :=
  try_except body (ret PNone).

(** [get_proc(c, ...)] followed by [wait()], giving [returncode]. *)
Fixpoint get_proc_wait (x : ctx) (c : cmd) : stateful st pyval :=
  match c with
  | Cmd l =>
      perform _u <- log (Build c);
      perform rc <- in_world (run_leaf x l);
      perform _u <- log (Wait c);
      ret rc
  | And cmd1 cmd2 =>
      perform _u <- log (Build c);
      perform rc <- join (AndProc_run (get_proc_wait x) cmd1 cmd2);
      perform _u <- log (Wait c);
      ret rc
  | Or cmd1 cmd2 =>
      perform _u <- log (Build c);
      perform rc <- join (OrProc_run (get_proc_wait x) cmd1 cmd2);
      perform _u <- log (Wait c);
      ret rc
  end.

(** *** The record of events only grows *)

Lemma get_proc_wait_extends x :
  ∀ c s r s', get_proc_wait x c s = (r, s') → ∃ evs, snd s' = snd s ++ evs.
Proof.
  assert (∀ c1 c2 (body : (cmd → stateful st pyval) → cmd → cmd → stateful st pyval),
    (∀ s r s', body (get_proc_wait x) c1 c2 s = (r, s') → ∃ evs, snd s' = snd s ++ evs) →
    ∀ c s r s',
      (perform _u <- log (Build c);
       perform rc <- join (body (get_proc_wait x) c1 c2);
       perform _u <- log (Wait c); ret rc) s = (r, s') →
      ∃ evs, snd s' = snd s ++ evs) as Hcomposite.
  { intros c1 c2 body Hbody c s r s'.
    unfold bind_st, log, join, try_except, ret. simpl.
    destruct (body (get_proc_wait x) c1 c2 (s.1, s.2 ++ [Build c]))
      as [[o|e] s1] eqn:Hb; apply Hbody in Hb as [evs Hevs]; simpl in Hevs.
    all: intros [= <- <-]; simpl; rewrite Hevs, <- !app_assoc; eauto. }
  induction c as [l|c1 IH1 c2 IH2|c1 IH1 c2 IH2]; intros s r s'.
  - simpl. unfold bind_st, log, in_world, ret. simpl.
    destruct (run_leaf x l s.1) as [[o|e] w']; intros [= <- <-]; simpl.
    + rewrite <- app_assoc. eauto.
    + eauto.
  - apply (Hcomposite c1 c2 AndProc_run). clear s r s'. intros s r s'.
    unfold AndProc_run, bind_st, ret.
    destruct (get_proc_wait x c1 s) as [[o1|e] s1] eqn:H1;
      apply IH1 in H1 as [evs1 Hevs1].
    + destruct (negb (get_return_code o1)); [intros [= <- <-]; eauto|].
      destruct (get_proc_wait x c2 s1) as [[o2|e] s2] eqn:H2;
        apply IH2 in H2 as [evs2 Hevs2];
        intros [= <- <-]; rewrite Hevs2, Hevs1, <- app_assoc; eauto.
    + intros [= <- <-]; eauto.
  - apply (Hcomposite c1 c2 OrProc_run). clear s r s'. intros s r s'.
    unfold OrProc_run, bind_st, ret.
    destruct (get_proc_wait x c1 s) as [[o1|e] s1] eqn:H1;
      apply IH1 in H1 as [evs1 Hevs1].
    + destruct (get_return_code o1); [intros [= <- <-]; eauto|].
      destruct (get_proc_wait x c2 s1) as [[o2|e] s2] eqn:H2;
        apply IH2 in H2 as [evs2 Hevs2];
        intros [= <- <-]; rewrite Hevs2, Hevs1, <- app_assoc; eauto.
    + intros [= <- <-]; eauto.
Qed.

Lemma AndProc_run_extends x c1 c2 s r s' :
  AndProc_run (get_proc_wait x) c1 c2 s = (r, s') → ∃ evs, snd s' = snd s ++ evs.
Proof.
  unfold AndProc_run, bind_st, ret.
  destruct (get_proc_wait x c1 s) as [[o1|e] s1] eqn:H1;
    apply get_proc_wait_extends in H1 as [evs1 Hevs1].
  - destruct (negb (get_return_code o1)); [intros [= <- <-]; eauto|].
    destruct (get_proc_wait x c2 s1) as [[o2|e] s2] eqn:H2;
      apply get_proc_wait_extends in H2 as [evs2 Hevs2];
      intros [= <- <-]; rewrite Hevs2, Hevs1, <- app_assoc; eauto.
  - intros [= <- <-]; eauto.
Qed.

Lemma OrProc_run_extends x c1 c2 s r s' :
  OrProc_run (get_proc_wait x) c1 c2 s = (r, s') → ∃ evs, snd s' = snd s ++ evs.
Proof.
  unfold OrProc_run, bind_st, ret.
  destruct (get_proc_wait x c1 s) as [[o1|e] s1] eqn:H1;
    apply get_proc_wait_extends in H1 as [evs1 Hevs1].
  - destruct (get_return_code o1); [intros [= <- <-]; eauto|].
    destruct (get_proc_wait x c2 s1) as [[o2|e] s2] eqn:H2;
      apply get_proc_wait_extends in H2 as [evs2 Hevs2];
      intros [= <- <-]; rewrite Hevs2, Hevs1, <- app_assoc; eauto.
  - intros [= <- <-]; eauto.
Qed.

Lemma join_extends (body : stateful st pyval) :
  (∀ s r s', body s = (r, s') → ∃ evs, snd s' = snd s ++ evs) →
  ∀ s r s', join body s = (r, s') → ∃ evs, snd s' = snd s ++ evs.
Proof.
  intros Hbody s r s'. unfold join, try_except, ret.
  destruct (body s) as [[o|e] s1] eqn:Hb; apply Hbody in Hb;
    by intros [= <- <-].
Qed.

(** A stage that was built and waited on left both events in the record. *)
Lemma get_proc_wait_events x c s o s' :
  get_proc_wait x c s = (Ret o, s') →
  ∃ evs, snd s' = snd s ++ Build c :: evs ++ [Wait c].
Proof.
  assert (∀ (body : stateful st pyval),
    (∀ s r s', body s = (r, s') → ∃ evs, snd s' = snd s ++ evs) →
    (perform _u <- log (Build c);
     perform rc <- body;
     perform _u <- log (Wait c); ret rc) s = (Ret o, s') →
    ∃ evs, snd s' = snd s ++ Build c :: evs ++ [Wait c]) as Hshape.
  { intros body Hbody. unfold bind_st, log, ret. simpl.
    destruct (body (s.1, s.2 ++ [Build c])) as [[rc|e] s1] eqn:Hb; [|done].
    apply Hbody in Hb as [evs Hevs]. simpl in Hevs.
    intros [= <- <-]. simpl. exists evs.
    rewrite Hevs, <- !app_assoc. reflexivity. }
  destruct c as [l|c1 c2|c1 c2]; simpl; apply Hshape.
  - intros s0 r s0'. unfold in_world.
    destruct (run_leaf x l s0.1) as [r' w']. intros [= <- <-]. simpl.
    exists []. by rewrite app_nil_r.
  - apply join_extends. intros s0 r s0'. apply AndProc_run_extends.
  - apply join_extends. intros s0 r s0'. apply OrProc_run_extends.
Qed.

(** C1: when [cmd1], built and waited on, ends with return code [o1]: an
    ['and'] stage whose [cmd1] is false ends false in the state [cmd1] left
    (nothing of [cmd2] was built or waited on), and so does, true, an
    ['or'] stage whose [cmd1] is true; otherwise [cmd2] is built and waited
    on after [cmd1] and the stage takes its normalised result.  So the
    result is the conjunction for ['and'] and the disjunction for ['or'],
    and the events of [cmd2] are in the record exactly when [cmd1] did not
    decide. *)
Theorem and_or_short_circuit (x : ctx) (cmd1 cmd2 : cmd) (s s1 : st) (o1 : pyval) :
  get_proc_wait x cmd1 s = (Ret o1, s1) →
  let b1 := get_return_code o1 in
  let and_wait := join (AndProc_run (get_proc_wait x) cmd1 cmd2) in
  let or_wait := join (OrProc_run (get_proc_wait x) cmd1 cmd2) in
  (b1 = false → and_wait s = (Ret (PBool false), s1))
  ∧ (b1 = true → or_wait s = (Ret (PBool true), s1))
  ∧ (∀ o2 s2,
       get_proc_wait x cmd2 s1 = (Ret o2, s2) →
       let b2 := get_return_code o2 in
       and_wait s = (Ret (PBool (b1 && b2)), if b1 then s2 else s1)
       ∧ or_wait s = (Ret (PBool (b1 || b2)), if b1 then s1 else s2)
       ∧ (∃ evs, snd s2 = snd s1 ++ Build cmd2 :: evs ++ [Wait cmd2])
       ∧ (∀ sa, and_wait s = (Ret (PBool (b1 && b2)), sa) →
                (snd sa ≠ snd s1 ↔ b1 = true))
       ∧ (∀ so, or_wait s = (Ret (PBool (b1 || b2)), so) →
                (snd so ≠ snd s1 ↔ b1 = false))).
Proof.
  intros H1. cbv zeta.
  unfold join, try_except, AndProc_run, OrProc_run, bind_st, ret.
  rewrite H1. cbv beta iota.
  split; [by intros ->|]. split; [by intros ->|].
  intros o2 s2 H2.
  destruct (get_proc_wait_events x cmd2 s1 o2 s2 H2) as [evs Hevs].
  assert (snd s2 ≠ snd s1) as Hgrew.
  { rewrite Hevs. intros Heq. apply (f_equal length) in Heq.
    rewrite length_app in Heq. simpl in Heq. lia. }
  destruct (get_return_code o1); cbn [negb andb orb]; rewrite ?H2;
    cbv beta iota.
  - split; [done|]. split; [done|]. split; [eauto|]. split.
    + intros sa [= <-]. done.
    + intros so [= <-]. split; [done|discriminate].
  - split; [done|]. split; [done|]. split; [eauto|]. split.
    + intros sa [= <-]. split; [done|discriminate].
    + intros so [= <-]. done.
Qed.

End Stages.

Arguments Cmd {leaf} c.
Arguments And {leaf} cmd1 cmd2.
Arguments Or {leaf} cmd1 cmd2.
Arguments Build {leaf} c.
Arguments Wait {leaf} c.

(** The commands [true] and [false] as stages: the world counts the
    processes run, the exit status is 0 or 1. *)
Definition run_bool (x : unit) (b : bool) : stateful nat pyval :=
  fun w => (Ret (PInt (if b then 0 else 1)), S w).

Lemma and_or_short_circuit_witness :
  join nat bool (AndProc_run nat bool (get_proc_wait nat bool unit run_bool tt)
                   (Cmd false) (Cmd true)) (0, [])
  = (Ret (PBool false), (1, [Build (Cmd false); Wait (Cmd false)])).
Proof.
  destruct (and_or_short_circuit nat bool unit run_bool tt (Cmd false) (Cmd true)
              (0, []) (1, [Build (Cmd false); Wait (Cmd false)]) (PInt 1)
              eq_refl) as [Hand _].
  apply Hand. reflexivity.
Defined.

(** The scenarios [false and true], [true and false], [true or false] and
    [false or true], each run as one stage. *)
Example false_and_true :
  get_proc_wait nat bool unit run_bool tt (And (Cmd false) (Cmd true)) (0, [])
  = (Ret (PBool false),
     (1, [Build (And (Cmd false) (Cmd true));
          Build (Cmd false); Wait (Cmd false);
          Wait (And (Cmd false) (Cmd true))])).
Proof. reflexivity. Qed.

Example true_and_false :
  get_proc_wait nat bool unit run_bool tt (And (Cmd true) (Cmd false)) (0, [])
  = (Ret (PBool false),
     (2, [Build (And (Cmd true) (Cmd false));
          Build (Cmd true); Wait (Cmd true);
          Build (Cmd false); Wait (Cmd false);
          Wait (And (Cmd true) (Cmd false))])).
Proof. reflexivity. Qed.

Example true_or_false :
  get_proc_wait nat bool unit run_bool tt (Or (Cmd true) (Cmd false)) (0, [])
  = (Ret (PBool true),
     (1, [Build (Or (Cmd true) (Cmd false));
          Build (Cmd true); Wait (Cmd true);
          Wait (Or (Cmd true) (Cmd false))])).
Proof. reflexivity. Qed.

End Stages.

(** ** The pipeline executor ([built_ins.run_subproc]) with the job
       registry of [jobs_not_implemented] *)

Module Pipeline.
Import Proc.

Section Pipeline.

(** The world outside the shell and the stage objects ([Popen] or
    [ProcProxy]) are left abstract, with the operations [run_subproc] uses
    on them.  [get_proc_stage] is [get_proc] on a list entry;
    [stdout_close p] is [p.stdout.close()] inside its [try ... except
    OSError]; [stdout_read p] is [p.stdout.read()], or [None] when
    [p.stdout] is [None] or [sys.stdout]. *)
Variable W : Type.
Variable proc : Type.
Variable stage : Type.
Variable get_proc_stage : stage -> option proc -> bool -> bool -> stateful W (option proc).
Variable is_ProcProxy : proc -> bool.
Variable pid : proc -> option Z.
Variable stdout_close : proc -> stateful W unit.
Variable proc_wait : proc -> stateful W unit.
Variable stdout_read : proc -> stateful W (option string).
Variable proc_returncode : proc -> W -> pyval.

(** An entry of [cmds]: a connecting string or a stage. *)
Inductive entry :=
| Connector (s : string)
| Stage (c : stage).

(** The dictionary handed to [add_job]. *)
Record job := {
  job_cmds : list entry;
  job_pids : list (option Z);
  job_obj : option proc;
  job_bg : bool
}.

(** The state: the world and the module global [_active_job]. *)
Record shell := {
  world : W;
  _active_job : option job
}.

Definition in_world {A} (m : stateful W A) : stateful shell A :=
  fun s =>
    match m (world s) with
    | (r, w') => (r, {| world := w'; _active_job := _active_job s |})
    end.

(** [add_job(info)] *)
Definition add_job (info : job) : stateful shell unit :=
  fun s => (Ret tt, {| world := world s; _active_job := Some info |}).

(** [wait_for_active_job()].  The [ProcProxy] it tests for is the named
    tuple of [jobs_not_implemented], which no object made by [get_proc] is
    an instance of; with no object at all, [obj.wait()] raises. *)
Definition wait_for_active_job : stateful shell unit :=
  fun s =>
    match _active_job s with
    | None => (Ret tt, s)
    | Some j =>
        match job_obj j with
        | None => (Raise AttributeError, s)
        | Some obj => in_world (proc_wait obj) s
        end
    end.

(** [get_proc] on an entry of [cmds]: a string gives no object. *)
Definition get_proc (cmd : entry) (prev_proc : option proc) (uninew captured : bool)
  : stateful shell (option proc) :=
  match cmd with
  | Connector EmptyString => raise IndexError          (* cmd[0] *)
  | Connector _ => ret None
  | Stage c => in_world (get_proc_stage c prev_proc uninew captured)
  end.

(** The loop [for ix, cmd in enumerate(cmds)] *)
Fixpoint build_procs (cmds : list entry) (ix : nat) (last_cmd : Z) (captured : bool)
    (procs : list proc) (prev_proc : option proc)
  : stateful shell (list proc * option proc) :=
  match cmds with
  | [] => ret (procs, prev_proc)
  | cmd :: rest =>
      perform p <- get_proc cmd prev_proc (Z.of_nat ix =? last_cmd)%Z captured;
      match p with
      | None => build_procs rest (S ix) last_cmd captured procs prev_proc
      | Some o => build_procs rest (S ix) last_cmd captured (procs ++ [o]) (Some o)
      end
  end.

(** The loop [for proc in procs[:-1]] *)
Fixpoint close_all (procs : list proc) : stateful shell unit :=
  match procs with
  | [] => ret tt
  | p :: rest => perform _u <- in_world (stdout_close p); close_all rest
  end.

(** What [run_subproc] returns: nothing, the captured output, or the
    normalised return code. *)
Inductive result :=
| RNone
| ROutput (output : string)
| RStatus (ok : bool).

Definition is_amp (e : entry) : bool :=
  match e with
  | Connector s => (s =? "&")%string
  | Stage _ => false
  end.

(** [run_subproc(cmds, captured=True)] *)
Definition run_subproc (cmds : list entry) (captured : bool) : stateful shell result :=
  match last cmds with
  | None => raise IndexError                           (* cmds[-1] *)
  | Some l =>
      let background := is_amp l in
      let cmds := if background then removelast cmds else cmds in
      let last_cmd := (Z.of_nat (length cmds) - 1)%Z in
      perform built <- build_procs cmds 0 last_cmd captured [] None;
      let procs := fst built in
      let prev_proc := snd built in
      perform _u <- close_all (removelast procs);
      let prev_is_proxy :=
        match prev_proc with Some p => is_ProcProxy p | None => false end in
      perform _u <-
        (if negb prev_is_proxy
         then add_job {| job_cmds := cmds; job_pids := map pid procs;
                         job_obj := prev_proc; job_bg := background |}
         else ret tt);
      if background then ret RNone else
      perform _u <-
        (match prev_proc with
         | Some p => if is_ProcProxy p then in_world (proc_wait p) else ret tt
         | None => ret tt
         end);
      perform _u <- wait_for_active_job;
      (* write_target is None *)
      match prev_proc with
      | None => raise AttributeError                   (* prev_proc.stdout *)
      | Some p =>
          perform out <- in_world (stdout_read p);
          let output := match out with Some o => o | None => "" end in
          if captured then ret (ROutput output)
          else fun s => (Ret (RStatus (get_return_code (proc_returncode p (world s)))), s)
      end
  end.

(** *** Command lists without a stage *)

(** A connecting string of a command list: a non-empty string. *)
Definition is_connector (e : entry) : Prop :=
  ∃ s, e = Connector s ∧ s ≠ "".

Lemma build_procs_connectors cmds :
  Forall is_connector cmds →
  ∀ ix last_cmd captured procs prev_proc s,
    build_procs cmds ix last_cmd captured procs prev_proc s
    = (Ret (procs, prev_proc), s).
Proof.
  induction 1 as [|e rest (c & -> & Hne) Hrest IH]; intros; simpl; [done|].
  unfold bind_st, get_proc. destruct c; [done|]. unfold ret. apply IH.
Qed.

Lemma Forall_removelast {A} (P : A → Prop) (l : list A) :
  Forall P l → Forall P (removelast l).
Proof.
  induction 1 as [|a l Ha Hl IH]; simpl; [constructor|].
  destruct l; [constructor|]. by constructor.
Qed.

(** C7, amended: a command list with no stage never reports a status.  The
    empty list raises [IndexError] at once.  A list of connecting strings
    that ends with ['&'] registers a background job without an object and
    returns [None].  Any other list of connecting strings registers a job
    without an object and raises [AttributeError] when that job is waited
    for. *)
Theorem zero_stage_pipeline (cmds : list entry) (captured : bool) (s : shell) :
  Forall is_connector cmds →
  match last cmds with
  | None => cmds = [] ∧ run_subproc cmds captured s = (Raise IndexError, s)
  | Some l =>
      if is_amp l
      then run_subproc cmds captured s
           = (Ret RNone,
              {| world := world s;
                 _active_job := Some {| job_cmds := removelast cmds; job_pids := [];
                                        job_obj := None; job_bg := true |} |})
      else run_subproc cmds captured s
           = (Raise AttributeError,
              {| world := world s;
                 _active_job := Some {| job_cmds := cmds; job_pids := [];
                                        job_obj := None; job_bg := false |} |})
  end.
Proof.
  intros Hall. unfold run_subproc.
  destruct (last cmds) as [l|] eqn:Hlast.
  - destruct (is_amp l); cbv beta iota zeta; unfold bind_st at 1.
    + rewrite (build_procs_connectors _ (Forall_removelast _ _ Hall)).
      reflexivity.
    + rewrite (build_procs_connectors _ Hall). reflexivity.
  - split; [by apply last_None|reflexivity].
Qed.

End Pipeline.

Arguments Connector {stage} s.
Arguments Stage {stage} c.

(** A world with nothing in it, where every stage is a child process that
    exits with 0. *)
Definition plain_get_proc (c : unit) (prev_proc : option unit) (uninew captured : bool)
  : stateful unit (option unit) :=
  ret (Some tt).

Definition plain_run_subproc (cmds : list (entry unit)) (captured : bool)
  : stateful (shell unit unit unit) result :=
  run_subproc unit unit unit plain_get_proc (fun _ => false) (fun _ => Some 1%Z)
    (fun _ => ret tt) (fun _ => ret tt) (fun _ => ret None) (fun _ _ => PInt 0)
    cmds captured.

Definition fresh_shell : shell unit unit unit :=
  {| world := tt; _active_job := None |}.

(** C7 as stated fails: the empty command list, run in the foreground,
    raises [IndexError] on [cmds[-1]] and returns no status; the list that
    holds only ['&'] returns [None], in the background. *)
Lemma empty_pipeline_raises :
  plain_run_subproc [] false fresh_shell = (Raise IndexError, fresh_shell)
  ∧ plain_run_subproc [] true fresh_shell = (Raise IndexError, fresh_shell)
  ∧ fst (plain_run_subproc [Connector "&"] false fresh_shell) = Ret RNone.
Proof. repeat split. Qed.

Lemma zero_stage_pipeline_witness :
  plain_run_subproc [Connector "|"] false fresh_shell
  = (Raise AttributeError,
     {| world := tt;
        _active_job := Some {| job_cmds := [Connector "|"]; job_pids := [];
                               job_obj := None; job_bg := false |} |}).
Proof.
  apply (zero_stage_pipeline unit unit unit plain_get_proc (fun _ => false)
           (fun _ => Some 1%Z) (fun _ => ret tt) (fun _ => ret tt)
           (fun _ => ret None) (fun _ _ => PInt 0)
           [Connector "|"] false fresh_shell).
  constructor; [|constructor]. exists "|". split; [reflexivity|discriminate].
Defined.

Example one_stage_uncaptured :
  fst (plain_run_subproc [Stage tt] false fresh_shell) = Ret (RStatus true).
Proof. reflexivity. Qed.

End Pipeline.

(** ** More on the alias table *)

Module AliasFacts.
Import Aliases.

(** [Aliases.__getitem__] *)
Definition __getitem__ (raw : gmap string alias_val) (key : string)
  : outcome alias_val :=
  match raw !! key with
  | Some v => Ret v
  | None => Raise KeyError
  end.

(** [Aliases.__delitem__] *)
Definition __delitem__ (raw : gmap string alias_val) (key : string)
  : outcome (gmap string alias_val) :=
  match raw !! key with
  | Some _ => Ret (delete key raw)
  | None => Raise KeyError
  end.

(** [Aliases.__len__] *)
Definition __len__ (raw : gmap string alias_val) : nat := size raw.

(** A table as [__setitem__] on well-formed commands leaves it: every value
    is a non-empty token list or a callable. *)
Definition usable (v : alias_val) : Prop :=
  (∃ token rest, v = VList (token :: rest)) ∨ (∃ f, v = VCallable f).

Definition well_formed (raw : gmap string alias_val) : Prop :=
  ∀ k v, raw !! k = Some v → usable v.

(** A string of whitespace only. *)
Fixpoint blank (s : string) : bool :=
  match s with
  | EmptyString => true
  | String c s' => Shlex.is_whitespace c && blank s'
  end.

Lemma eval_alias_usable_returns raw :
  well_formed raw →
  ∀ fuel value seen acc r,
    usable value →
    eval_alias fuel raw value seen acc = Some r → ∃ a, r = Ret a.
Proof.
  intros Hwf. induction fuel as [|n IH]; intros value seen acc r Hu H.
  all: destruct Hu as [(token & rest & ->)|[f ->]]; simpl in H.
  all: try (destruct acc; simplify_eq; eauto; fail).
  all: destruct (bool_decide (token ∈ seen) || bool_decide (raw !! token = None))
    eqn:Hstop; [simplify_eq; eauto|].
  - done.
  - apply orb_false_iff in Hstop as [_ Hkey%bool_decide_eq_false].
    destruct (raw !! token) as [v|] eqn:Hv; [|done].
    eapply IH; [|exact H]. by eapply Hwf.
Qed.

Lemma blank_split s : blank s = true → Shlex.split s = Ret [].
Proof.
  unfold Shlex.split. induction s as [|c s IH]; simpl; [done|].
  intros [Hc Hs]%andb_true_iff. rewrite Hc. simpl. by apply IH.
Qed.

(** The arguments written in a token list stay at the end of whatever it
    expands to, followed by the accumulated ones. *)
Lemma eval_alias_keeps_tail raw :
  ∀ fuel token rest seen acc L,
    eval_alias fuel raw (VList (token :: rest)) seen acc = Some (Ret (AList L)) →
    ∃ pre, pre ≠ [] ∧ L = pre ++ rest ++ acc.
Proof.
  induction fuel as [|n IH]; intros token rest seen acc L H; simpl in H.
  all: destruct (bool_decide (token ∈ seen) || bool_decide (raw !! token = None));
    [simplify_eq; by exists [token]|].
  - done.
  - destruct (raw !! token) as [v|] eqn:Hv; [|done].
    destruct v as [|[|t' rest']|f|].
    1,2,5: by destruct n.
    + apply IH in H as (pre & Hne & ->). exists (pre ++ rest'). split.
      * by destruct pre.
      * by rewrite <- !app_assoc.
    + destruct n; simpl in H; by destruct (rest ++ acc).
Qed.

(** A callable that comes out of [eval_alias] is a callable of the table
    (or the value itself) applied to a fixed prefix that ends with the
    accumulated arguments. *)
Lemma eval_alias_callable raw :
  ∀ fuel value seen acc g,
    eval_alias fuel raw value seen acc = Some (Ret (ACallable g)) →
    ∃ f pre,
      (value = VCallable f ∨ ∃ k, raw !! k = Some (VCallable f))
      ∧ ∀ args stdin, g args stdin = f ((pre ++ acc) ++ args) stdin.
Proof.
  assert (∀ f acc g,
            match acc with
            | [] => Some (Ret (ACallable f))
            | _ :: _ => Some (Ret (ACallable (partial f acc)))
            end = Some (Ret (ACallable g)) →
            ∃ f' pre,
              (VCallable f = VCallable f' ∨ ∃ k, raw !! k = Some (VCallable f'))
              ∧ ∀ args stdin, g args stdin = f' ((pre ++ acc) ++ args) stdin)
    as Hbase.
  { intros f acc g H. exists f, []. split; [by left|].
    destruct acc; injection H as <-; reflexivity. }
  induction fuel as [|n IH]; intros value seen acc g H.
  all: destruct value as [|[|token rest]|f|]; simpl in H; try done.
  2,4: by apply Hbase.
  all: destruct (bool_decide (token ∈ seen) || bool_decide (raw !! token = None));
    [done|].
  - done.
  - destruct (raw !! token) as [v|] eqn:Hv; [|done].
    apply IH in H as (f & pre & Hf & Hg). exists f, (pre ++ rest). split.
    + destruct Hf as [->|Hf]; [right; eauto|by right].
    + intros args stdin. rewrite Hg. by rewrite <- !app_assoc.
Qed.

(** X1: In a well-formed table a lookup never raises: it answers [default] for
    a key that is absent, and a token list or a callable otherwise. *)
Theorem lookup_well_formed_returns (raw : gmap string alias_val) (key : string) :
  well_formed raw →
  (raw !! key = None ∧ lookup raw key = Some (Ret None))
  ∨ (is_Some (raw !! key) ∧ ∃ r, lookup raw key = Some (Ret (Some r))).
Proof.
  intros Hwf. unfold lookup, get.
  destruct (raw !! key) as [val|] eqn:Hk; [|by left].
  right. split; [eauto|].
  pose proof (Hwf _ _ Hk) as Hu.
  assert (size (dom raw ∖ {[key]}) ≤ size raw) as Hsz.
  { rewrite <- size_dom. apply subseteq_size. set_solver. }
  destruct (eval_alias_enough_fuel raw (size raw) val {[key]} [] Hsz) as [r He].
  destruct (eval_alias_usable_returns raw Hwf _ _ _ _ _ Hu He) as [a ->].
  rewrite He. destruct Hu as [(t & rest & ->)|[f ->]]; eauto.
Qed.

Lemma ls_raw_well_formed : well_formed ls_raw.
Proof.
  intros k v. unfold ls_raw.
  destruct (decide (k = "ls")) as [->|Hls].
  { rewrite lookup_insert_eq. intros [= <-]. left. eauto. }
  rewrite lookup_insert_ne by done.
  destruct (decide (k = "l")) as [->|Hl].
  { rewrite lookup_insert_eq. intros [= <-]. left. eauto. }
  rewrite lookup_insert_ne by done. by rewrite lookup_empty.
Qed.

Lemma lookup_well_formed_returns_witness :
  ∃ r, lookup ls_raw "l" = Some (Ret (Some r)).
Proof.
  destruct (lookup_well_formed_returns ls_raw "l" ls_raw_well_formed)
    as [[Hn _]|[_ Hr]]; [|exact Hr].
  exfalso. revert Hn. unfold ls_raw.
  rewrite lookup_insert_ne by done. rewrite lookup_insert_eq. discriminate.
Defined.

(** X2: Setting an alias to the empty string, or to blanks, stores an empty
    token list, and every later lookup of that alias raises [ValueError]. *)
Theorem blank_alias_raises (raw : gmap string alias_val) (key s : string) :
  blank s = true →
  __setitem__ raw key (SString s) = Ret (<[key := VList []]> raw)
  ∧ ∀ fuel default,
      get fuel (<[key := VList []]> raw) key default = Some (Raise ValueError).
Proof.
  intros Hs. unfold __setitem__. rewrite (blank_split s Hs). split; [done|].
  intros fuel default. unfold get. rewrite lookup_insert_eq. by destruct fuel.
Qed.

Lemma blank_alias_raises_witness :
  __setitem__ ∅ "x" (SString "  ") = Ret (<["x" := VList []]> ∅)
  ∧ ∀ fuel default,
      get fuel (<["x" := VList []]> ∅) "x" default = Some (Raise ValueError).
Proof. apply (blank_alias_raises ∅ "x" "  "). reflexivity. Defined.

(** X3: The arguments written in an alias are never lost: when the lookup of a
    key whose value is [token :: rest] yields a token list, that list is a
    non-empty expansion of [token] followed by [rest]. *)
Theorem lookup_keeps_arguments (raw : gmap string alias_val) (key token : string)
    (rest L : list string) :
  raw !! key = Some (VList (token :: rest)) →
  lookup raw key = Some (Ret (Some (AList L))) →
  ∃ pre, pre ≠ [] ∧ L = pre ++ rest.
Proof.
  intros Hk. unfold lookup, get. rewrite Hk.
  destruct (eval_alias (size raw) raw (VList (token :: rest)) {[key]} [])
    as [[[L'|g]|e]|] eqn:He; try done.
  intros [= <-]. apply eval_alias_keeps_tail in He as (pre & Hne & ->).
  exists pre. by rewrite app_nil_r.
Qed.

Lemma lookup_keeps_arguments_witness :
  ∃ pre, pre ≠ [] ∧ ["ls"; "--color=auto"; "-CF"] = pre ++ ["-CF"].
Proof.
  apply (lookup_keeps_arguments ls_raw "l" "ls" ["-CF"]); vm_compute; reflexivity.
Defined.

(** X4: Partial application: a callable that a lookup yields is a callable
    stored in the table, called with a fixed list of tokens in front of the
    arguments it is given; the standard input is passed on. *)
Theorem lookup_callable_is_partial (raw : gmap string alias_val) (key : string)
    (g : callable) :
  lookup raw key = Some (Ret (Some (ACallable g))) →
  ∃ f k prefix,
    raw !! k = Some (VCallable f)
    ∧ ∀ args stdin, g args stdin = f (prefix ++ args) stdin.
Proof.
  unfold lookup, get.
  destruct (raw !! key) as [val|] eqn:Hk; [|done].
  destruct (eval_alias (size raw) raw val {[key]} []) as [[[L'|g']|e]|] eqn:He;
    try (by destruct val).
  intros Hg. assert (g' = g) as -> by (destruct val; congruence).
  apply eval_alias_callable in He as (f & pre & Hf & Hcall).
  destruct Hf as [->|[k Hf]].
  - exists f, key, (pre ++ []). eauto.
  - exists f, k, (pre ++ []). eauto.
Qed.

(** The table [{ll: "ls -l", ls: <callable>}]. *)
Definition echo_args : callable := fun args _ => Ret (PSeq (map PStr args)).

Definition callable_table : gmap string alias_val :=
  <["ls" := VCallable echo_args]> (<["ll" := VList ["ls"; "-l"]]> ∅).

Lemma lookup_callable_is_partial_witness :
  ∃ f k prefix,
    callable_table !! k = Some (VCallable f)
    ∧ ∀ args stdin, partial echo_args ["-l"] args stdin = f (prefix ++ args) stdin.
Proof.
  apply (lookup_callable_is_partial callable_table "ll"). vm_compute. reflexivity.
Defined.

(** X5: One step of expansion: a key whose value starts with another alias
    [token], itself a token list whose head is [token] again, the key, or no
    alias, expands to that list followed by the key's own arguments; a key
    whose value starts with the key itself or with no alias is returned as
    it is. *)
Theorem lookup_one_step (raw : gmap string alias_val) (key token head : string)
    (rest rest' : list string) :
  raw !! key = Some (VList (token :: rest)) →
  (token = key ∨ raw !! token = None →
   lookup raw key = Some (Ret (Some (AList (token :: rest)))))
  ∧ (token ≠ key →
     raw !! token = Some (VList (head :: rest')) →
     head = token ∨ head = key ∨ raw !! head = None →
     lookup raw key = Some (Ret (Some (AList (head :: rest' ++ rest))))).
Proof.
  intros Hk. unfold lookup, get. rewrite Hk. split.
  - intros Hstop. rewrite eval_alias_stops; [by rewrite app_nil_r|].
    destruct Hstop as [->|Hn]; [left; set_solver|by right].
  - intros Hne Ht Hhead.
    assert (1 < size raw) as Hsize.
    { assert ({[key; token]} ⊆ dom raw) as Hsub.
      { intros x Hx. apply elem_of_union in Hx as [Hx|Hx];
          apply elem_of_singleton in Hx; subst; apply elem_of_dom; eauto. }
      apply subseteq_size in Hsub. rewrite size_dom in Hsub.
      rewrite size_union in Hsub by set_solver.
      rewrite !size_singleton in Hsub. lia. }
    destruct (size raw) as [|n]; [lia|]. simpl.
    rewrite (bool_decide_eq_false_2 (token ∈ ({[key]} : gset string)))
      by set_solver.
    rewrite (bool_decide_eq_false_2 (raw !! token = None)) by congruence.
    simpl. rewrite Ht. rewrite eval_alias_stops.
    + by rewrite app_nil_r.
    + destruct Hhead as [->|[->|Hn]]; [left|left|by right]; set_solver.
Qed.

Lemma lookup_one_step_witness :
  ("ls" = "l" ∨ ls_raw !! "ls" = None →
   lookup ls_raw "l" = Some (Ret (Some (AList ("ls" :: ["-CF"])))))
  ∧ ("ls" ≠ "l" →
     ls_raw !! "ls" = Some (VList ("ls" :: ["--color=auto"])) →
     "ls" = "ls" ∨ "ls" = "l" ∨ ls_raw !! "ls" = None →
     lookup ls_raw "l"
     = Some (Ret (Some (AList ("ls" :: ["--color=auto"] ++ ["-CF"]))))).
Proof.
  apply (lookup_one_step ls_raw "l" "ls" "ls" ["-CF"] ["--color=auto"]).
  vm_compute. reflexivity.
Defined.

(** X6: Storing and deleting.  After [aliases[key] = val] the raw entry of
    [key] is [val], word-split if it is a string, and no other entry has
    changed; deleting the key again gives back a table that did not have
    it.  Deleting or reading the raw entry of a missing key raises
    [KeyError], and after a deletion lookups answer [default]. *)
Theorem alias_store_round_trip (raw : gmap string alias_val) (key : string)
    (val : set_arg) :
  match __setitem__ raw key val with
  | Raise e => ∃ s, val = SString s ∧ Shlex.split s = Raise e
  | Ret raw' =>
      (∃ v, __getitem__ raw' key = Ret v
            ∧ match val with
              | SString s => Shlex.split s = Ret (match v with VList l => l | _ => [] end)
                             ∧ ∃ l, v = VList l
              | SValue v0 => v = v0
              end)
      ∧ (∀ k, k ≠ key → __getitem__ raw' k = __getitem__ raw k)
      ∧ (raw !! key = None → __delitem__ raw' key = Ret raw)
      ∧ (∀ raw'', __delitem__ raw' key = Ret raw'' →
           __getitem__ raw'' key = Raise KeyError
           ∧ __delitem__ raw'' key = Raise KeyError
           ∧ S (__len__ raw'') = __len__ raw'
           ∧ ∀ fuel default, get fuel raw'' key default = Some (Ret default))
  end.
Proof.
  assert (∀ v, let raw' := <[key := v]> raw in
    (∀ k, k ≠ key → __getitem__ raw' k = __getitem__ raw k)
    ∧ (raw !! key = None → __delitem__ raw' key = Ret raw)
    ∧ (∀ raw'', __delitem__ raw' key = Ret raw'' →
         __getitem__ raw'' key = Raise KeyError
         ∧ __delitem__ raw'' key = Raise KeyError
         ∧ S (__len__ raw'') = __len__ raw'
         ∧ ∀ fuel default, get fuel raw'' key default = Some (Ret default)))
    as Hstore.
  { intros v raw'. subst raw'. unfold __getitem__, __delitem__, __len__, get.
    rewrite lookup_insert_eq. split; [|split].
    - intros k Hne. by rewrite lookup_insert_ne.
    - intros Hk. by rewrite delete_insert_id.
    - intros raw'' [= <-]. rewrite !lookup_delete_eq.
      repeat split; try done.
      rewrite map_size_delete, lookup_insert_eq.
      assert (size (<[key := v]> raw) ≠ 0); [|lia].
      intros Hz. apply map_size_empty_iff in Hz.
      apply (f_equal (fun m => m !! key)) in Hz.
      by rewrite lookup_insert_eq, lookup_empty in Hz. }
  unfold __setitem__. destruct val as [s|v0].
  - destruct (Shlex.split s) as [l|e] eqn:Hs; simpl; [|eauto].
    split; [|apply Hstore].
    exists (VList l). unfold __getitem__. rewrite lookup_insert_eq. eauto.
  - split; [|apply Hstore].
    exists v0. unfold __getitem__. by rewrite lookup_insert_eq.
Qed.

End AliasFacts.

(** ** More on the redirection parser *)

Module RedirectFacts.
Import Regex Redirect.

Section Facts.

Variable handle : Type.
Variable FS : Type.
Variable py_open : FS -> string -> string -> option (handle * FS).

Abbreviation stream_dict := (Redirect.stream_dict handle).
Abbreviation _redirect_io := (Redirect._redirect_io handle FS py_open).
Abbreviation _open := (Redirect._open handle FS py_open).
Abbreviation contains := (Redirect.contains handle).
Abbreviation setitem := (Redirect.setitem handle).
Abbreviation binds := (Redirect.binds handle).
Abbreviation writes := (Redirect.writes handle).

Lemma _open_inv loc mode fs v fs' :
  _open loc mode fs = Ret (v, fs') →
  (∃ n, loc = Some (TFd n) ∧ v = BInt n ∧ fs' = fs)
  ∨ (∃ p h, loc = Some (TPath p) ∧ py_open fs p mode = Some (h, fs') ∧ v = BFile h).
Proof.
  unfold Redirect._open. destruct loc as [[p|n]|]; [|intros [= <- <-]; eauto|done].
  destruct (py_open fs p mode) as [[h fs1]|] eqn:Ho; [|done].
  intros [= <- <-]. right. eauto.
Qed.

Lemma binds_setitem_ne k k' v (d : stream_dict) :
  k ≠ k' → binds (setitem k v d) !! k' = binds d !! k'.
Proof. intros Hne. unfold Redirect.setitem. simpl. by rewrite lookup_insert_ne. Qed.

Lemma binds_setitem_eq k v (d : stream_dict) :
  binds (setitem k v d) !! k = Some v.
Proof. unfold Redirect.setitem. simpl. by rewrite lookup_insert_eq. Qed.

(** [new] are the keys assigned on the way from [d] to [d'], all to [v]. *)
Definition added (new : list string) (v : binding handle) (d d' : stream_dict)
  : Prop :=
  writes d' = writes d ++ new
  ∧ (∀ k, k ∈ new → binds d !! k = None ∧ binds d' !! k = Some v)
  ∧ (∀ k, k ∉ new → binds d' !! k = binds d !! k).

Lemma added_one k v (d : stream_dict) :
  contains k d = false → added [k] v d (setitem k v d).
Proof.
  intros Hc. apply contains_false in Hc. split; [done|]. split.
  - intros k' ->%list_elem_of_singleton. split; [done|apply binds_setitem_eq].
  - intros k' Hk'. apply binds_setitem_ne. intros ->. apply Hk'. by left.
Qed.

Lemma added_two k1 k2 v (d : stream_dict) :
  k1 ≠ k2 → contains k1 d = false → contains k2 d = false →
  added [k1; k2] v d (setitem k2 v (setitem k1 v d)).
Proof.
  intros Hne Hc1 Hc2. apply contains_false in Hc1, Hc2. split; [|split].
  - unfold Redirect.setitem. simpl. by rewrite <- app_assoc.
  - intros k Hk. apply elem_of_cons in Hk as [->|Hk].
    + split; [done|]. rewrite binds_setitem_ne by done. apply binds_setitem_eq.
    + apply list_elem_of_singleton in Hk as ->. split; [done|].
      apply binds_setitem_eq.
  - intros k Hk. rewrite !binds_setitem_ne; [done| |].
    + intros ->. apply Hk. by left.
    + intros ->. apply Hk. right. by left.
Qed.

(** X7: What a successful token does: it assigns one or two streams that were
    not bound, all to one value, and leaves every other binding alone.  The
    value is an integer ([subprocess.STDOUT] or a file descriptor), with the
    file system untouched, or the one file opened under the name [loc], in
    mode ['r'] for [stdin] and ['w'] or ['a'] otherwise. *)
Theorem redirect_new_bindings (d d' : stream_dict) (r : string)
    (loc : option target) (fs fs' : FS) :
  _redirect_io d r loc fs = Ret (d', fs') →
  ∃ new v,
    writes d' = writes d ++ new
    ∧ (new = ["stdin"] ∨ new = ["stdout"] ∨ new = ["stderr"]
       ∨ new = ["stdout"; "stderr"])
    ∧ (∀ k, k ∈ new → binds d !! k = None ∧ binds d' !! k = Some v)
    ∧ (∀ k, k ∉ new → binds d' !! k = binds d !! k)
    ∧ ((fs' = fs ∧ ∃ n, v = BInt n)
       ∨ (∃ p mode h,
            loc = Some (TPath p) ∧ py_open fs p mode = Some (h, fs')
            ∧ v = BFile h
            ∧ (mode = "r" ↔ new = ["stdin"])
            ∧ (mode = "r" ∨ mode = "w" ∨ mode = "a"))).
Proof.
  assert (∀ new v d', added new v d d' →
    (new = ["stdin"] ∨ new = ["stdout"] ∨ new = ["stderr"]
       ∨ new = ["stdout"; "stderr"]) →
    ((fs' = fs ∧ ∃ n, v = BInt n)
       ∨ (∃ p mode h,
            loc = Some (TPath p) ∧ py_open fs p mode = Some (h, fs')
            ∧ v = BFile h
            ∧ (mode = "r" ↔ new = ["stdin"])
            ∧ (mode = "r" ∨ mode = "w" ∨ mode = "a"))) →
    ∃ new v,
    writes d' = writes d ++ new
    ∧ (new = ["stdin"] ∨ new = ["stdout"] ∨ new = ["stderr"]
       ∨ new = ["stdout"; "stderr"])
    ∧ (∀ k, k ∈ new → binds d !! k = None ∧ binds d' !! k = Some v)
    ∧ (∀ k, k ∉ new → binds d' !! k = binds d !! k)
    ∧ ((fs' = fs ∧ ∃ n, v = BInt n)
       ∨ (∃ p mode h,
            loc = Some (TPath p) ∧ py_open fs p mode = Some (h, fs')
            ∧ v = BFile h
            ∧ (mode = "r" ↔ new = ["stdin"])
            ∧ (mode = "r" ∨ mode = "w" ∨ mode = "a")))) as Hpack.
  { intros new v d0 (Hw & Hnew & Hold) Hshape Hval. exists new, v. eauto 10. }
  intros H. unfold Redirect._redirect_io in H.
  destruct (bool_decide (delete_char _ r ∈ _E2O_MAP)).
  { destruct (Redirect.contains handle "stderr" d) eqn:Hc; [done|].
    injection H as <- <-.
    apply (Hpack ["stderr"] (BInt STDOUT)); [by apply added_one|auto|].
    left. eauto. }
  destruct (re_match _REDIR_REGEX r) as [m|]; [|done]. cbv zeta in H.
  set (ld := (if startswith _ (group m 3) then _ else _)) in H.
  assert (∀ loc' dest', ld = Ret (loc', dest') →
            loc' = loc ∨ ∃ n, loc' = Some (TFd n)) as Hld.
  { subst ld. intros loc' dest'. destruct (startswith "&" (group m 3)).
    - unfold bind. destruct (py_int _) as [n|]; [|done].
      destruct loc; [done|]. intros [= <- <-]. eauto.
    - intros [= <- <-]. by left. }
  clearbody ld. destruct ld as [[loc' dest']|e]; [|done].
  specialize (Hld loc' dest' eq_refl). unfold bind in H. cbn [fst snd] in H.
  assert (∀ mode v, _open loc' mode fs = Ret (v, fs') →
            (fs' = fs ∧ ∃ n, v = BInt n)
            ∨ (∃ p h, loc = Some (TPath p)
                      ∧ py_open fs p mode = Some (h, fs') ∧ v = BFile h))
    as Hopen.
  { intros mode v Ho.
    apply _open_inv in Ho as [(n & -> & -> & ->)|(p & h & -> & Ho & ->)].
    - left. eauto.
    - right. destruct Hld as [<-|[n Hn]]; [eauto|done]. }
  destruct (bool_decide (_MODES !! group m 2 = Some "r")) eqn:Hr.
  { destruct (_ || _); [done|].
    destruct (Redirect.contains handle "stdin" d) eqn:Hc; [done|].
    destruct (Redirect._open handle FS py_open loc' "r" fs) as [[v fs1]|] eqn:Ho;
      [|done].
    cbn [fst snd] in H. injection H as <- <-.
    apply (Hpack ["stdin"] v); [by apply added_one|auto|].
    destruct (Hopen _ _ Ho) as [?|(p & h & ? & ? & ?)]; [by left|].
    right. exists p, "r", h. repeat split; auto. }
  apply bool_decide_eq_false in Hr.
  destruct (_MODES !! group m 2) as [wmode|]; [|done].
  destruct (bool_decide (wmode ∈ _WRITE_MODES)) eqn:Hw; [|done].
  apply bool_decide_eq_true in Hw.
  assert (wmode = "w" ∨ wmode = "a") as Hwa by (unfold _WRITE_MODES in Hw; set_solver).
  assert (wmode ≠ "r") as Hnr by (destruct Hwa; subst; done).
  assert (∀ new v, new ≠ ["stdin"] →
            _open loc' wmode fs = Ret (v, fs') →
            (fs' = fs ∧ ∃ n, v = BInt n)
            ∨ (∃ p mode h,
                 loc = Some (TPath p) ∧ py_open fs p mode = Some (h, fs')
                 ∧ v = BFile h
                 ∧ (mode = "r" ↔ new = ["stdin"])
                 ∧ (mode = "r" ∨ mode = "w" ∨ mode = "a"))) as Hwrite.
  { intros new v Hnew Ho.
    destruct (Hopen _ _ Ho) as [?|(p & h & ? & ? & ?)]; [by left|].
    right. exists p, wmode, h. repeat split; auto; try done.
    all: destruct Hwa; auto. }
  destruct (bool_decide (group m 1 ∈ _REDIR_ALL)).
  { destruct (Redirect.contains handle "stderr" d) eqn:Hce; [done|].
    destruct (Redirect.contains handle "stdout" d) eqn:Hco; [done|].
    destruct (0 <? String.length dest'); [done|].
    destruct (Redirect._open handle FS py_open loc' wmode fs) as [[v fs1]|] eqn:Ho;
      [|done].
    cbn [fst snd foldl] in H. injection H as <- <-.
    apply (Hpack ["stdout"; "stderr"] v); [by apply added_two|auto|].
    by apply Hwrite. }
  destruct (bool_decide (group m 1 ∈ _REDIR_ERR)).
  { destruct (Redirect.contains handle "stderr" d) eqn:Hce; [done|].
    destruct (0 <? String.length dest'); [done|].
    destruct (Redirect._open handle FS py_open loc' wmode fs) as [[v fs1]|] eqn:Ho;
      [|done].
    cbn [fst snd foldl] in H. injection H as <- <-.
    apply (Hpack ["stderr"] v); [by apply added_one|auto|].
    by apply Hwrite. }
  destruct (bool_decide (group m 1 ∈ _REDIR_OUT)); [|done].
  destruct (Redirect.contains handle "stdout" d) eqn:Hco; [done|].
  destruct (0 <? String.length dest'); [done|].
  destruct (Redirect._open handle FS py_open loc' wmode fs) as [[v fs1]|] eqn:Ho;
    [|done].
  cbn [fst snd foldl] in H. injection H as <- <-.
  apply (Hpack ["stdout"] v); [by apply added_one|auto|].
  by apply Hwrite.
Qed.

End Facts.

Arguments added {handle} new v d d'.

Lemma redirect_new_bindings_witness :
  ∃ new v,
    writes string (setitem string "stderr" (BFile "all.txt")
                     (setitem string "stdout" (BFile "all.txt") empty_streams))
    = writes string empty_streams ++ new
    ∧ (new = ["stdin"] ∨ new = ["stdout"] ∨ new = ["stderr"]
       ∨ new = ["stdout"; "stderr"])
    ∧ (∀ k, k ∈ new →
         binds string empty_streams !! k = None
         ∧ binds string (setitem string "stderr" (BFile "all.txt")
                           (setitem string "stdout" (BFile "all.txt") empty_streams))
           !! k = Some v)
    ∧ (∀ k, k ∉ new →
         binds string (setitem string "stderr" (BFile "all.txt")
                         (setitem string "stdout" (BFile "all.txt") empty_streams))
         !! k = binds string empty_streams !! k)
    ∧ ((tt = tt ∧ ∃ n, v = BInt n)
       ∨ (∃ p mode h,
            Some (TPath "all.txt") = Some (TPath p)
            ∧ open_any tt p mode = Some (h, tt)
            ∧ v = BFile h
            ∧ (mode = "r" ↔ new = ["stdin"])
            ∧ (mode = "r" ∨ mode = "w" ∨ mode = "a"))).
Proof.
  apply (redirect_new_bindings string unit open_any empty_streams _ "&>"
           (Some (TPath "all.txt")) tt tt).
  vm_compute. reflexivity.
Defined.

End RedirectFacts.

(** ** The front half of [proc.get_proc]: redirections and stream wiring *)

Module GetProc.
Import Regex Redirect.

(** [subprocess.PIPE] *)
Definition PIPE : Z := (-1)%Z.

(** [cmd[-(i+1)]] and [cmd[i]], on indices the length tests guard. *)
Definition from_end (cmd : list string) (i : nat) : string :=
  nth i (rev cmd) "".

Definition item (cmd : list string) (i : nat) : string := nth i cmd "".

Section GetProc.

Variable handle : Type.
Variable FS : Type.
Variable py_open : FS -> string -> string -> option (handle * FS).

(** [prev_proc], as far as [get_proc] looks at it: it is [None] or has a
    [stdout]. *)
Variable P : Type.

Abbreviation stream_dict := (Redirect.stream_dict handle).
Abbreviation _redirect_io := (Redirect._redirect_io handle FS py_open).
Abbreviation binds := (Redirect.binds handle).
Abbreviation bound_once := (Redirect.bound_once handle).

(** One turn of the [while True] loop: [None] is [break]. *)
Definition strip_step (cmd : list string) (streams : stream_dict) (fs : FS)
  : option (outcome (list string * (stream_dict * FS))) :=
  if (3 <=? length cmd) && _is_redirect (from_end cmd 1) then
    Some (do s <- _redirect_io streams (from_end cmd 1)
                    (Some (TPath (from_end cmd 0))) fs;
          Ret (take (length cmd - 2) cmd, s))
  else if (2 <=? length cmd) && _is_redirect (from_end cmd 0) then
    Some (do s <- _redirect_io streams (from_end cmd 0) None fs;
          Ret (take (length cmd - 1) cmd, s))
  else if (3 <=? length cmd) && (item cmd 0 =? "<")%string then
    Some (do s <- _redirect_io streams (item cmd 0) (Some (TPath (item cmd 1))) fs;
          Ret (drop 2 cmd, s))
  else None.

(** A [while True] loop around a turn [step] that says [None] to break;
    each turn spends one unit of [fuel]. *)
Fixpoint while_true {A} (step : A -> option (outcome A)) (fuel : nat) (a : A)
  : option (outcome A) :=
  match step a with
  | None => Some (Ret a)
  | Some (Raise e) => Some (Raise e)
  | Some (Ret a') =>
      match fuel with
      | O => None
      | S n => while_true step n a'
      end
  end.

(** The loop of [get_proc]. *)
Definition strip_loop (fuel : nat) (cmd : list string) (streams : stream_dict)
    (fs : FS) : option (outcome (list string * (stream_dict * FS))) :=
  while_true (fun a => strip_step (fst a) (fst (snd a)) (snd (snd a)))
    fuel (cmd, (streams, fs)).

(** Where [stdin] comes from. *)
Inductive stdin_source :=
| InNone
| InBinding (b : binding handle)
| InPrev (prev_proc : P).             (* prev_proc.stdout *)

(** The streams [get_proc] settles on, with the command left once the
    redirections are taken off. *)
Record wiring := {
  w_cmd : list string;
  w_stdin : stdin_source;
  w_stdout : option (binding handle);
  w_stderr : option (binding handle)
}.

(** [# set standard input], [# set standard output], [# set standard error] *)
Definition wire (cmd : list string) (streams : stream_dict) (prev_proc : option P)
    (uninew captured : bool) : outcome wiring :=
  do stdin <-
    (match binds streams !! "stdin", prev_proc with
     | Some _, Some _ => Raise (XonshError "Multiple inputs for stdin")
     | Some b, None => Ret (InBinding b)
     | None, Some p => Ret (InPrev p)
     | None, None => Ret InNone
     end);
  do stdout <-
    (match binds streams !! "stdout" with
     | Some b =>
         if negb uninew then Raise (XonshError "Multiple redirects for stdout")
         else Ret (Some b)
     | None =>
         if captured || negb uninew then Ret (Some (BInt PIPE)) else Ret None
     end);
  Ret {| w_cmd := cmd; w_stdin := stdin; w_stdout := stdout;
         w_stderr := binds streams !! "stderr" |}.

(** [get_proc] on the token list of a ['cmd'] stage, up to the point where
    the command is resolved. *)
Definition get_proc_streams (cmd : list string) (prev_proc : option P)
    (uninew captured : bool) (fs : FS) : option (outcome (wiring * FS)) :=
  match strip_loop (length cmd) cmd empty_streams fs with
  | None => None
  | Some (Raise e) => Some (Raise e)
  | Some (Ret (cmd', (streams, fs'))) =>
      Some (do w <- wire cmd' streams prev_proc uninew captured; Ret (w, fs'))
  end.

(** *** The loop *)

Lemma strip_step_shrinks cmd streams fs cmd' s :
  strip_step cmd streams fs = Some (Ret (cmd', s)) →
  0 < length cmd' < length cmd
  ∧ (∃ r loc, _redirect_io streams r loc fs = Ret s)
  ∧ ((∃ post, cmd = cmd' ++ post) ∨ (item cmd 0 = "<" ∧ cmd' = drop 2 cmd)).
Proof.
  unfold strip_step.
  set (b1 := _is_redirect (from_end cmd 1)). set (b0 := _is_redirect (from_end cmd 0)).
  clearbody b1 b0.
  remember (_redirect_io streams (from_end cmd 1) (Some (TPath (from_end cmd 0))) fs)
    as x1 eqn:E1.
  remember (_redirect_io streams (from_end cmd 0) None fs) as x0 eqn:E0.
  remember (_redirect_io streams (item cmd 0) (Some (TPath (item cmd 1))) fs)
    as x2 eqn:E2.
  assert (∀ x (keep : list string),
            0 < length keep < length cmd →
            (∃ r loc, x = _redirect_io streams r loc fs) →
            ((∃ post, cmd = keep ++ post) ∨ (item cmd 0 = "<" ∧ keep = drop 2 cmd)) →
            Some (do s0 <- x; Ret (keep, s0)) = Some (Ret (cmd', s)) →
            0 < length cmd' < length cmd
            ∧ (∃ r loc, _redirect_io streams r loc fs = Ret s)
            ∧ ((∃ post, cmd = cmd' ++ post)
               ∨ (item cmd 0 = "<" ∧ cmd' = drop 2 cmd))) as Hturn.
  { intros x keep Hlen (r & loc & Hx) Hkeep. destruct x as [s0|e]; cbn [bind].
    - intros H. injection H as <- <-. eauto. 
    - intros H. discriminate H. }
  destruct (Nat.leb_spec 3 (length cmd)) as [H3|H3];
    destruct (Nat.leb_spec 2 (length cmd)) as [H2|H2]; try lia.
  all: cbn [andb].
  - destruct b1; [|destruct b0; [|destruct (item cmd 0 =? "<")%string eqn:Hlt]].
    + apply Hturn; [rewrite length_take; lia|eauto|].
      left. eexists. symmetry. apply take_drop.
    + apply Hturn; [rewrite length_take; lia|eauto|].
      left. eexists. symmetry. apply take_drop.
    + apply Hturn; [rewrite length_drop; lia|eauto|].
      right. split; [by apply String.eqb_eq|reflexivity].
    + intros H. discriminate H.
  - destruct b0; [|intros H; discriminate H].
    apply Hturn; [rewrite length_take; lia|eauto|].
    left. eexists. symmetry. apply take_drop.
  - intros H. discriminate H.
Qed.

Lemma while_true_unfold {A} (step : A → option (outcome A)) fuel a :
  while_true step fuel a
  = match step a with
    | None => Some (Ret a)
    | Some (Raise e) => Some (Raise e)
    | Some (Ret a') =>
        match fuel with
        | O => None
        | S n => while_true step n a'
        end
    end.
Proof. by destruct fuel. Qed.

Lemma strip_loop_unfold fuel cmd streams fs :
  strip_loop fuel cmd streams fs
  = match strip_step cmd streams fs with
    | None => Some (Ret (cmd, (streams, fs)))
    | Some (Raise e) => Some (Raise e)
    | Some (Ret (cmd', (streams', fs'))) =>
        match fuel with
        | O => None
        | S n => strip_loop n cmd' streams' fs'
        end
    end.
Proof.
  unfold strip_loop. rewrite while_true_unfold. cbn [fst snd].
  destruct (strip_step cmd streams fs) as [[[cmd' [streams' fs']]|e]|];
    reflexivity.
Qed.

Lemma item_0_app (l post : list string) :
  l ≠ [] → item (l ++ post) 0 = item l 0.
Proof. by destruct l. Qed.

Lemma strip_loop_result (cmd : list string) (streams : stream_dict) (fs : FS) :
  ∃ r,
    (∀ fuel, length cmd ≤ fuel → strip_loop fuel cmd streams fs = Some r)
    ∧ ∀ cmd' streams' fs',
        r = Ret (cmd', (streams', fs')) →
        strip_step cmd' streams' fs' = None
        ∧ (cmd ≠ [] → cmd' ≠ [])
        ∧ (∃ pre post, cmd = pre ++ cmd' ++ post)
        ∧ (item cmd 0 ≠ "<" → ∃ post, cmd = cmd' ++ post)
        ∧ (bound_once streams → bound_once streams').
Proof.
  remember (length cmd) as n eqn:Hn.
  assert (length cmd ≤ n) as Hle by lia. clear Hn.
  revert cmd streams fs Hle.
  induction n as [|n IH]; intros cmd streams fs Hle.
  all: destruct (strip_step cmd streams fs) as [[[cmd1 [s1 fs1]]|e]|] eqn:Hs.
  (* the turn raised, or the loop broke: no further turn *)
  2,5: exists (Raise e); split;
        [intros fuel _; rewrite strip_loop_unfold, Hs; reflexivity
        |intros cmd' streams' fs' H; discriminate H].
  2,4: exists (Ret (cmd, (streams, fs))); split;
        [intros fuel _; rewrite strip_loop_unfold, Hs; reflexivity|];
        intros cmd' streams' fs' H; injection H as <- <- <-;
        split; [exact Hs|]; split; [tauto|];
        split; [exists [], []; by rewrite app_nil_r|];
        split; [intros _; exists []; by rewrite app_nil_r|tauto].
  (* a turn was taken *)
  all: destruct (strip_step_shrinks _ _ _ _ _ Hs) as (Hlen & (r0 & loc0 & Hr0) & Hshape).
  { lia. }
  destruct (IH cmd1 s1 fs1 ltac:(lia)) as (r & Hfuel & Hr).
  exists r. split.
  - intros fuel Hf. rewrite strip_loop_unfold, Hs.
    destruct fuel as [|fuel]; [lia|]. apply Hfuel. lia.
  - intros cmd' streams' fs' ->.
    destruct (Hr cmd' streams' fs' eq_refl) as (Hbreak & Hne & Hrun & Hpre & Hbo).
    assert (cmd1 ≠ []) as Hne1.
    { intros ->. cbn [length] in Hlen. lia. }
    split; [exact Hbreak|]. split; [tauto|]. split; [|split].
    + destruct Hrun as (pre & post & ->).
      destruct Hshape as [[post1 ->]|[_ Hdrop]].
      * exists pre, (post ++ post1). by rewrite <- !app_assoc.
      * exists (take 2 cmd ++ pre), post.
        rewrite <- (take_drop 2 cmd) at 1. rewrite <- Hdrop.
        by rewrite <- !app_assoc.
    + intros Hhead. destruct Hshape as [[post1 ->]|[Hlt _]]; [|tauto].
      rewrite item_0_app in Hhead by exact Hne1.
      destruct (Hpre Hhead) as [post ->].
      exists (post ++ post1). by rewrite <- app_assoc.
    + intros Hb. apply Hbo.
      exact (Redirect._redirect_io_bound_once handle FS py_open
               streams r0 loc0 fs s1 fs1 Hb Hr0).
Qed.

(** X8: The loop of [get_proc] ends within [len(cmd)] turns.  It never takes
    the last token away, what it leaves is a run of consecutive tokens of
    the command, a prefix of it when the command does not start with ['<'],
    and no stream is assigned twice on the way. *)
Theorem strip_loop_leaves_command (cmd : list string) (streams : stream_dict)
    (fs : FS) :
  ∃ r,
    (∀ fuel, length cmd ≤ fuel → strip_loop fuel cmd streams fs = Some r)
    ∧ ∀ cmd' streams' fs',
        r = Ret (cmd', (streams', fs')) →
        strip_step cmd' streams' fs' = None
        ∧ (cmd ≠ [] → cmd' ≠ [])
        ∧ (∃ pre post, cmd = pre ++ cmd' ++ post)
        ∧ (item cmd 0 ≠ "<" → ∃ post, cmd = cmd' ++ post)
        ∧ (bound_once streams → bound_once streams').
Proof. apply strip_loop_result. Qed.

(** X9: The inner ends of a pipe are never redirected.  When [get_proc] gets
    as far as wiring the streams: a stage that is not the last one
    ([uninew] false) has its [stdout] on a pipe, a stage that follows
    another has that one's [stdout] as [stdin], a captured stage never
    inherits [stdout], and the command still has its first token. *)
Theorem pipe_ends_are_pipes (cmd : list string) (prev_proc : option P)
    (uninew captured : bool) (fs fs' : FS) (w : wiring) :
  get_proc_streams cmd prev_proc uninew captured fs = Some (Ret (w, fs')) →
  (uninew = false → w_stdout w = Some (BInt PIPE))
  ∧ (∀ p, prev_proc = Some p → w_stdin w = InPrev p)
  ∧ (captured = true → w_stdout w ≠ None)
  ∧ (w_stdout w = None → uninew = true ∧ captured = false)
  ∧ (cmd ≠ [] → w_cmd w ≠ []).
Proof.
  unfold get_proc_streams.
  destruct (strip_loop_result cmd empty_streams fs) as (r & Hfuel & Hr).
  rewrite (Hfuel (length cmd) (le_n _)).
  destruct r as [[cmd' [streams fs1]]|e]; [|intros H; discriminate H].
  destruct (Hr cmd' streams fs1 eq_refl) as (_ & Hne & _).
  unfold wire.
  destruct (binds streams !! "stdin") as [bi|], prev_proc as [p|];
    cbn [bind]; try (intros H; discriminate H).
  all: destruct (binds streams !! "stdout") as [bo|], uninew, captured;
    cbn [bind negb orb]; try (intros H; discriminate H).
  all: intros H; injection H as <- <-; cbn [w_stdout w_stdin w_cmd].
  all: repeat split; try done; try (intros ? [= <-]; done); auto.
Qed.

End GetProc.

Arguments InNone {handle P}.
Arguments InBinding {handle P} b.
Arguments InPrev {handle P} prev_proc.

(** [cat > out.txt] as the last stage of a pipeline. *)
Definition cat_to_file : wiring string unit :=
  {| w_cmd := ["cat"]; w_stdin := InPrev tt;
     w_stdout := Some (BFile "out.txt"); w_stderr := None |}.

Lemma pipe_ends_are_pipes_witness :
  (true = false → w_stdout string unit cat_to_file = Some (BInt PIPE))
  ∧ (∀ p, Some tt = Some p → w_stdin string unit cat_to_file = InPrev p)
  ∧ (false = true → w_stdout string unit cat_to_file ≠ None)
  ∧ (w_stdout string unit cat_to_file = None → true = true ∧ false = false)
  ∧ (["cat"; ">"; "out.txt"] ≠ [] → w_cmd string unit cat_to_file ≠ []).
Proof.
  apply (pipe_ends_are_pipes string unit open_any unit ["cat"; ">"; "out.txt"]
           (Some tt) true false tt tt cat_to_file).
  vm_compute. reflexivity.
Defined.

Example redirect_before_pipe :
  get_proc_streams string unit open_any unit ["ls"; ">"; "out.txt"] None false false tt
  = Some (Raise (XonshError "Multiple redirects for stdout")).
Proof. vm_compute. reflexivity. Qed.

Example redirect_without_path :
  get_proc_streams string unit open_any unit ["ls"; ">"] None true false tt
  = Some (Raise (XonshError "xonsh: None: no such file or directory")).
Proof. vm_compute. reflexivity. Qed.

Example leading_stdin_redirect :
  get_proc_streams string unit open_any unit ["<"; "in.txt"; "cat"] None true true tt
  = Some (Ret ({| w_cmd := ["cat"]; w_stdin := InBinding (BFile "in.txt");
                  w_stdout := Some (BInt PIPE); w_stderr := None |}, tt)).
Proof. vm_compute. reflexivity. Qed.

End GetProc.

(** ** The handles of a proc-proxy ([ProcProxy.__init__], [_get_handles],
       [_get_devnull] and the streams [run] hands to the callable), as they
       are where [ON_WINDOWS] is false *)

Module Handles.

(** [subprocess.PIPE], [subprocess.STDOUT], [subprocess.DEVNULL] *)
Definition PIPE : Z := (-1)%Z.
Definition STDOUT : Z := (-2)%Z.
Definition DEVNULL : Z := (-3)%Z.

(** A [stdin], [stdout] or [stderr] argument: [None], an integer (one of
    the three constants or a file descriptor), or a file-like object, given
    by its [fileno()]. *)
Inductive std_arg :=
| ANone
| AInt (n : Z)
| AFile (fileno : Z).

(** The stream the callable gets for its output. *)
Inductive child_out :=
| SysStdout                  (* sys.stdout *)
| SysStderr                  (* sys.stderr *)
| OnFd (fd : Z).             (* io.TextIOWrapper(io.open(fd, 'wb', -1)) *)

(** The parent's side of [stdin]: the argument as it was given, or the
    write end of the pipe, opened. *)
Inductive parent_in :=
| AsGiven (a : std_arg)
| Opened (fd : Z).

Section Posix.

(** The operating system: [os.pipe()] and [os.open(os.devnull, os.O_RDWR)]. *)
Variable OS : Type.
Variable os_pipe : stateful OS (Z * Z).
Variable os_open_devnull : stateful OS Z.

(** The object under construction, as far as the handles go: the system
    and the attribute [_devnull], if set. *)
Record self_state := {
  os : OS;
  _devnull : option Z
}.

Definition in_os {A} (m : stateful OS A) : stateful self_state A :=
  fun s =>
    match m (os s) with
    | (r, os') => (r, {| os := os'; _devnull := _devnull s |})
    end.

(** [_get_devnull] *)
Definition _get_devnull : stateful self_state Z :=
  fun s =>
    match _devnull s with
    | Some fd => (Ret fd, s)                                (* hasattr(self, '_devnull') *)
    | None =>
        match os_open_devnull (os s) with
        | (Ret fd, os') => (Ret fd, {| os := os'; _devnull := Some fd |})
        | (Raise e, os') => (Raise e, {| os := os'; _devnull := None |})
        end
    end.

(** The six handles. *)
Record handles := {
  p2cread : Z; p2cwrite : Z;
  c2pread : Z; c2pwrite : Z;
  errread : Z; errwrite : Z
}.

(** The three parts of [_get_handles(stdin, stdout, stderr)], POSIX
    version: the read and write handle settled for each argument. *)
Definition stdin_handles (stdin : std_arg) : stateful self_state (Z * Z) :=
  match stdin with
  | ANone => ret ((-1)%Z, (-1)%Z)
  | AInt n =>
      if (n =? PIPE)%Z then in_os os_pipe
      else if (n =? DEVNULL)%Z then perform d <- _get_devnull; ret (d, (-1)%Z)
      else ret (n, (-1)%Z)
  | AFile fileno => ret (fileno, (-1)%Z)
  end.

Definition stdout_handles (stdout : std_arg) : stateful self_state (Z * Z) :=
  match stdout with
  | ANone => ret ((-1)%Z, (-1)%Z)
  | AInt n =>
      if (n =? PIPE)%Z then in_os os_pipe
      else if (n =? DEVNULL)%Z then perform d <- _get_devnull; ret ((-1)%Z, d)
      else ret ((-1)%Z, n)
  | AFile fileno => ret ((-1)%Z, fileno)
  end.

Definition stderr_handles (stderr : std_arg) (c2pwrite : Z)
  : stateful self_state (Z * Z) :=
  match stderr with
  | ANone => ret ((-1)%Z, (-1)%Z)
  | AInt n =>
      if (n =? PIPE)%Z then in_os os_pipe
      else if (n =? STDOUT)%Z then ret ((-1)%Z, c2pwrite)
      else if (n =? DEVNULL)%Z then perform d <- _get_devnull; ret ((-1)%Z, d)
      else ret ((-1)%Z, n)
  | AFile fileno => ret ((-1)%Z, fileno)
  end.

(** [_get_handles(stdin, stdout, stderr)] *)
Definition _get_handles (stdin stdout stderr : std_arg) : stateful self_state handles :=
  perform p2c <- stdin_handles stdin;
  perform c2p <- stdout_handles stdout;
  perform err <- stderr_handles stderr (snd c2p);
  ret {| p2cread := fst p2c; p2cwrite := snd p2c;
         c2pread := fst c2p; c2pwrite := snd c2p;
         errread := fst err; errwrite := snd err |}.

(** What [__init__] leaves in the object: the handles and the parent's
    [stdin], [stdout] and [stderr]. *)
Record proxy := {
  h : handles;
  self_stdin : parent_in;
  self_stdout : option Z;
  self_stderr : option Z
}.

(** [ProcProxy.__init__], the part about streams *)
Definition __init__ (stdin stdout stderr : std_arg) : stateful self_state proxy :=
  perform hs <- _get_handles stdin stdout stderr;
  ret {| h := hs;
         self_stdin := if (p2cwrite hs =? -1)%Z then AsGiven stdin
                       else Opened (p2cwrite hs);
         self_stdout := if (c2pread hs =? -1)%Z then None else Some (c2pread hs);
         self_stderr := if (errread hs =? -1)%Z then None else Some (errread hs) |}.

(** [sp_stdout] and [sp_stderr] of [ProcProxy.run] *)
Definition sp_stdout (p : proxy) : child_out :=
  if (c2pwrite (h p) =? -1)%Z then SysStdout else OnFd (c2pwrite (h p)).

Definition sp_stderr (p : proxy) : child_out :=
  if (errwrite (h p) =? c2pwrite (h p))%Z then sp_stdout p
  else if negb (errwrite (h p) =? -1)%Z then OnFd (errwrite (h p))
  else SysStderr.

(** The descriptors the system hands out are not [-1]. *)
Definition sound_os : Prop :=
  (∀ s r w s', os_pipe s = (Ret (r, w), s') → r ≠ (-1)%Z ∧ w ≠ (-1)%Z)
  ∧ (∀ s fd s', os_open_devnull s = (Ret fd, s') → fd ≠ (-1)%Z).

(** *** What the callable gets as [stderr] *)

Lemma sp_stderr_sys_stderr (p : proxy) :
  sp_stderr p = SysStderr
  ↔ errwrite (h p) = (-1)%Z ∧ c2pwrite (h p) ≠ (-1)%Z.
Proof.
  unfold sp_stderr, sp_stdout.
  destruct (Z.eqb_spec (errwrite (h p)) (c2pwrite (h p))) as [Heq|Hne].
  - destruct (Z.eqb_spec (c2pwrite (h p)) (-1)) as [Hc|Hc];
      split; try done; intros [? ?]; congruence.
  - destruct (Z.eqb_spec (errwrite (h p)) (-1)) as [He|He]; simpl.
    + split; [|done]. intros _. split; [done|congruence].
    + split; [done|]. by intros [? _].
Qed.

Lemma __init___inv stdin stdout stderr s p s' :
  __init__ stdin stdout stderr s = (Ret p, s') →
  ∃ p2c s1 c2p s2 err,
    stdin_handles stdin s = (Ret p2c, s1)
    ∧ stdout_handles stdout s1 = (Ret c2p, s2)
    ∧ stderr_handles stderr (snd c2p) s2 = (Ret err, s')
    ∧ p = {| h := {| p2cread := fst p2c; p2cwrite := snd p2c;
                     c2pread := fst c2p; c2pwrite := snd c2p;
                     errread := fst err; errwrite := snd err |};
             self_stdin := if (snd p2c =? -1)%Z then AsGiven stdin
                           else Opened (snd p2c);
             self_stdout := if (fst c2p =? -1)%Z then None else Some (fst c2p);
             self_stderr := if (fst err =? -1)%Z then None else Some (fst err) |}.
Proof.
  unfold __init__, _get_handles, bind_st, ret.
  destruct (stdin_handles stdin s) as [[p2c|e] s1] eqn:Hin; simpl; [|done].
  destruct (stdout_handles stdout s1) as [[c2p|e] s2] eqn:Hout; simpl; [|done].
  destruct (stderr_handles stderr (snd c2p) s2) as [[err|e] s3] eqn:Herr;
    simpl; [|done].
  intros [= <- <-]. by exists p2c, s1, c2p, s2, err.
Qed.

(** X10: The callable's [stderr].  With [stderr=STDOUT] it is the stream the
    callable has as [stdout].  With neither [stdout] nor [stderr] given it
    is [sys.stdout], like [stdout]: the two handles are both [-1], and so
    equal.  It is [sys.stderr] exactly when [errwrite] is [-1] and
    [c2pwrite] is not, as with [stdout=PIPE] and no [stderr]. *)
Theorem callable_stderr (stdin stdout stderr : std_arg) (s s' : self_state)
    (p : proxy) :
  __init__ stdin stdout stderr s = (Ret p, s') →
  (stderr = AInt STDOUT → sp_stderr p = sp_stdout p)
  ∧ (stdout = ANone → stderr = ANone →
     sp_stdout p = SysStdout ∧ sp_stderr p = SysStdout)
  ∧ (sp_stderr p = SysStderr
     ↔ errwrite (h p) = (-1)%Z ∧ c2pwrite (h p) ≠ (-1)%Z)
  ∧ (sound_os → stdout = AInt PIPE → stderr = ANone → sp_stderr p = SysStderr).
Proof.
  intros H. apply __init___inv in H
    as (p2c & s1 & c2p & s2 & err & Hin & Hout & Herr & ->).
  split; [|split; [|split]].
  - intros ->. simpl in Herr. injection Herr as <- <-.
    unfold sp_stderr. simpl. by rewrite Z.eqb_refl.
  - intros -> ->. simpl in Hout, Herr.
    injection Hout as <- <-. injection Herr as <- <-. done.
  - apply sp_stderr_sys_stderr.
  - intros [Hpipe _] -> ->. simpl in Hout, Herr. injection Herr as <- <-.
    unfold in_os in Hout.
    destruct (os_pipe (os s1)) as [[[r w]|e] os2] eqn:Hp; [|done].
    injection Hout as <- <-. apply sp_stderr_sys_stderr. simpl.
    split; [done|]. by apply Hpipe in Hp as [_ ?].
Qed.

Lemma stdin_handles_pipe stdin s ends s' :
  sound_os → stdin_handles stdin s = (Ret ends, s') →
  snd ends ≠ (-1)%Z ↔ stdin = AInt PIPE.
Proof.
  intros [Hpipe _]. destruct stdin as [|n|fileno]; simpl.
  1,3: intros [= <- <-]; simpl; split; done.
  destruct (Z.eqb_spec n PIPE) as [->|Hn].
  - unfold in_os. destruct (os_pipe (os s)) as [[[r w]|e] os2] eqn:Hp; [|done].
    intros [= <- <-]. apply Hpipe in Hp as [? ?]. done.
  - assert (AInt n ≠ AInt PIPE) by congruence.
    destruct (n =? DEVNULL)%Z.
    + unfold bind_st. destruct (_get_devnull s) as [[d|e] s3]; [|done].
      intros [= <- <-]. done.
    + intros [= <- <-]. done.
Qed.

Lemma stdout_handles_pipe stdout s ends s' :
  sound_os → stdout_handles stdout s = (Ret ends, s') →
  fst ends ≠ (-1)%Z ↔ stdout = AInt PIPE.
Proof.
  intros [Hpipe _]. destruct stdout as [|n|fileno]; simpl.
  1,3: intros [= <- <-]; simpl; split; done.
  destruct (Z.eqb_spec n PIPE) as [->|Hn].
  - unfold in_os. destruct (os_pipe (os s)) as [[[r w]|e] os2] eqn:Hp; [|done].
    intros [= <- <-]. apply Hpipe in Hp as [? ?]. done.
  - assert (AInt n ≠ AInt PIPE) by congruence.
    destruct (n =? DEVNULL)%Z.
    + unfold bind_st. destruct (_get_devnull s) as [[d|e] s3]; [|done].
      intros [= <- <-]. done.
    + intros [= <- <-]. done.
Qed.

Lemma stderr_handles_pipe stderr c s ends s' :
  sound_os → stderr_handles stderr c s = (Ret ends, s') →
  fst ends ≠ (-1)%Z ↔ stderr = AInt PIPE.
Proof.
  intros [Hpipe _]. destruct stderr as [|n|fileno]; simpl.
  1,3: intros [= <- <-]; simpl; split; done.
  destruct (Z.eqb_spec n PIPE) as [->|Hn].
  - unfold in_os. destruct (os_pipe (os s)) as [[[r w]|e] os2] eqn:Hp; [|done].
    intros [= <- <-]. apply Hpipe in Hp as [? ?]. done.
  - assert (AInt n ≠ AInt PIPE) by congruence.
    destruct (n =? STDOUT)%Z; [intros [= <- <-]; done|].
    destruct (n =? DEVNULL)%Z.
    + unfold bind_st. destruct (_get_devnull s) as [[d|e] s3]; [|done].
      intros [= <- <-]. done.
    + intros [= <- <-]. done.
Qed.

(** X11: The parent's side.  Where the system's descriptors are sound, the
    object has a [stdout] to read from exactly when it was made with
    [stdout=PIPE], a [stderr] exactly when made with [stderr=PIPE], and its
    [stdin] is the write end of a new pipe exactly when made with
    [stdin=PIPE]; otherwise [stdin] is the argument as given. *)
Theorem parent_streams_are_pipes (stdin stdout stderr : std_arg)
    (s s' : self_state) (p : proxy) :
  sound_os →
  __init__ stdin stdout stderr s = (Ret p, s') →
  (is_Some (self_stdout p) ↔ stdout = AInt PIPE)
  ∧ (is_Some (self_stderr p) ↔ stderr = AInt PIPE)
  ∧ ((∃ fd, self_stdin p = Opened fd) ↔ stdin = AInt PIPE)
  ∧ (stdin ≠ AInt PIPE → self_stdin p = AsGiven stdin).
Proof.
  intros Hos H. apply __init___inv in H
    as (p2c & s1 & c2p & s2 & err & Hin & Hout & Herr & ->).
  apply (stdin_handles_pipe _ _ _ _ Hos) in Hin.
  apply (stdout_handles_pipe _ _ _ _ Hos) in Hout.
  apply (stderr_handles_pipe _ _ _ _ _ Hos) in Herr. simpl.
  destruct (Z.eqb_spec (snd p2c) (-1)) as [E1|E1];
    destruct (Z.eqb_spec (fst c2p) (-1)) as [E2|E2];
    destruct (Z.eqb_spec (fst err) (-1)) as [E3|E3].
  all: repeat split.
  all: try (intros [? ?]; first [done|tauto]).
  all: try (intros ?; exfalso; tauto).
  all: try (intros ?; first [by eexists|tauto]).
Qed.

(** Once [_devnull] is set, it stays as it is. *)
Definition keeps_devnull {A} (m : stateful self_state A) : Prop :=
  ∀ s r s' fd, m s = (r, s') → _devnull s = Some fd → _devnull s' = Some fd.

Lemma ret_keeps_devnull {A} (a : A) : keeps_devnull (ret a).
Proof. intros s r s' fd [= <- <-]. done. Qed.

Lemma in_os_keeps_devnull {A} (m : stateful OS A) : keeps_devnull (in_os m).
Proof.
  intros s r s' fd. unfold in_os. destruct (m (os s)) as [r0 os1].
  intros [= <- <-]. done.
Qed.

Lemma _get_devnull_sets s d s' :
  _get_devnull s = (Ret d, s') → _devnull s' = Some d.
Proof.
  unfold _get_devnull. destruct (_devnull s) as [fd0|] eqn:Hd.
  - intros [= <- <-]. done.
  - destruct (os_open_devnull (os s)) as [[fd|e] os1]; intros [= <- <-]; done.
Qed.

Lemma _get_devnull_keeps : keeps_devnull _get_devnull.
Proof.
  intros s r s' fd. unfold _get_devnull. intros H Hd. rewrite Hd in H.
  injection H as <- <-. done.
Qed.

Lemma devnull_then_keeps {A} (f : Z → A) :
  keeps_devnull (perform d <- _get_devnull; ret (f d)).
Proof.
  intros s r s' fd. unfold bind_st, ret. intros H Hd.
  pose proof (_get_devnull_keeps s) as Hk.
  destruct (_get_devnull s) as [[d|e] s1]; injection H as <- <-;
    by eapply Hk.
Qed.

Lemma stdin_handles_keeps a : keeps_devnull (stdin_handles a).
Proof.
  destruct a as [|n|fileno]; simpl; try apply ret_keeps_devnull.
  destruct (n =? PIPE)%Z; [apply in_os_keeps_devnull|].
  destruct (n =? DEVNULL)%Z; [|apply ret_keeps_devnull].
  apply (devnull_then_keeps (fun d => (d, (-1)%Z))).
Qed.

Lemma stdout_handles_keeps a : keeps_devnull (stdout_handles a).
Proof.
  destruct a as [|n|fileno]; simpl; try apply ret_keeps_devnull.
  destruct (n =? PIPE)%Z; [apply in_os_keeps_devnull|].
  destruct (n =? DEVNULL)%Z; [|apply ret_keeps_devnull].
  apply (devnull_then_keeps (fun d => ((-1)%Z, d))).
Qed.

Lemma stderr_handles_keeps a c : keeps_devnull (stderr_handles a c).
Proof.
  destruct a as [|n|fileno]; simpl; try apply ret_keeps_devnull.
  destruct (n =? PIPE)%Z; [apply in_os_keeps_devnull|].
  destruct (n =? STDOUT)%Z; [apply ret_keeps_devnull|].
  destruct (n =? DEVNULL)%Z; [|apply ret_keeps_devnull].
  apply (devnull_then_keeps (fun d => ((-1)%Z, d))).
Qed.

(** X12: [os.devnull] is opened at most once for one object.  Every stream
    given as [DEVNULL] gets the descriptor that [_devnull] holds in the
    end, so the streams on [DEVNULL] share one descriptor; and a
    [_devnull] that was set before is the one used. *)
Theorem devnull_is_shared (stdin stdout stderr : std_arg) (s s' : self_state)
    (p : proxy) :
  __init__ stdin stdout stderr s = (Ret p, s') →
  (stdin = AInt DEVNULL → _devnull s' = Some (p2cread (h p)))
  ∧ (stdout = AInt DEVNULL → _devnull s' = Some (c2pwrite (h p)))
  ∧ (stderr = AInt DEVNULL → _devnull s' = Some (errwrite (h p)))
  ∧ (∀ fd, _devnull s = Some fd → _devnull s' = Some fd).
Proof.
  intros H. apply __init___inv in H
    as (p2c & s1 & c2p & s2 & err & Hin & Hout & Herr & ->).
  pose proof (fun fd => stdout_handles_keeps _ _ _ _ fd Hout) as Kout.
  pose proof (fun fd => stderr_handles_keeps _ _ _ _ _ fd Herr) as Kerr.
  pose proof (fun fd => stdin_handles_keeps _ _ _ _ fd Hin) as Kin.
  simpl. split; [|split; [|split]].
  - intros ->. simpl in Hin. unfold bind_st, ret in Hin.
    destruct (_get_devnull s) as [[d|e] t] eqn:Hd; [|done].
    injection Hin as <- <-. apply _get_devnull_sets in Hd. simpl. auto.
  - intros ->. simpl in Hout. unfold bind_st, ret in Hout.
    destruct (_get_devnull s1) as [[d|e] t] eqn:Hd; [|done].
    injection Hout as <- <-. apply _get_devnull_sets in Hd. simpl. auto.
  - intros ->. simpl in Herr. unfold bind_st, ret in Herr.
    destruct (_get_devnull s2) as [[d|e] t] eqn:Hd; [|done].
    injection Herr as <- <-. by apply _get_devnull_sets in Hd.
  - intros fd Hfd. auto.
Qed.

End Posix.

(** A system that hands out descriptors by counting. *)
Definition counter_pipe : stateful nat (Z * Z) :=
  fun n => (Ret (Z.of_nat n, Z.of_nat (S n)), S (S n)).

Definition counter_devnull : stateful nat Z :=
  fun n => (Ret (Z.of_nat n), S n).

Lemma counter_sound : sound_os nat counter_pipe counter_devnull.
Proof.
  split.
  - intros s r w s' [= <- <- <-]. lia.
  - intros s fd s' [= <- <-]. lia.
Qed.

(** [ProcProxy(f, args, stdout=PIPE)] on descriptors 3 and 4 *)
Definition piped_out : proxy :=
  {| h := {| p2cread := -1; p2cwrite := -1;
             c2pread := 3; c2pwrite := 4;
             errread := -1; errwrite := -1 |};
     self_stdin := AsGiven ANone;
     self_stdout := Some 3%Z;
     self_stderr := None |}.

Lemma callable_stderr_witness :
  (ANone = AInt STDOUT → sp_stderr piped_out = sp_stdout piped_out)
  ∧ (AInt PIPE = ANone → ANone = ANone →
     sp_stdout piped_out = SysStdout ∧ sp_stderr piped_out = SysStdout)
  ∧ (sp_stderr piped_out = SysStderr
     ↔ errwrite (h piped_out) = (-1)%Z ∧ c2pwrite (h piped_out) ≠ (-1)%Z)
  ∧ (sound_os nat counter_pipe counter_devnull → AInt PIPE = AInt PIPE →
     ANone = ANone → sp_stderr piped_out = SysStderr).
Proof.
  apply (callable_stderr nat counter_pipe counter_devnull ANone (AInt PIPE) ANone
           {| os := 3; _devnull := None |} {| os := 5; _devnull := None |}).
  vm_compute. reflexivity.
Defined.

Lemma parent_streams_are_pipes_witness :
  (is_Some (self_stdout piped_out) ↔ AInt PIPE = AInt PIPE)
  ∧ (is_Some (self_stderr piped_out) ↔ ANone = AInt PIPE)
  ∧ ((∃ fd, self_stdin piped_out = Opened fd) ↔ ANone = AInt PIPE)
  ∧ (ANone ≠ AInt PIPE → self_stdin piped_out = AsGiven ANone).
Proof.
  apply (parent_streams_are_pipes nat counter_pipe counter_devnull
           ANone (AInt PIPE) ANone
           {| os := 3; _devnull := None |} {| os := 5; _devnull := None |}).
  - exact counter_sound.
  - vm_compute. reflexivity.
Defined.

(** [ProcProxy(f, args, stdin=DEVNULL, stdout=DEVNULL, stderr=STDOUT)] *)
Definition all_devnull : proxy :=
  {| h := {| p2cread := 3; p2cwrite := -1;
             c2pread := -1; c2pwrite := 3;
             errread := -1; errwrite := 3 |};
     self_stdin := AsGiven (AInt DEVNULL);
     self_stdout := None;
     self_stderr := None |}.

Lemma devnull_is_shared_witness :
  (AInt DEVNULL = AInt DEVNULL → Some 3%Z = Some (p2cread (h all_devnull)))
  ∧ (AInt DEVNULL = AInt DEVNULL → Some 3%Z = Some (c2pwrite (h all_devnull)))
  ∧ (AInt STDOUT = AInt DEVNULL → Some 3%Z = Some (errwrite (h all_devnull)))
  ∧ (∀ fd, None = Some fd → Some 3%Z = Some fd).
Proof.
  apply (devnull_is_shared nat counter_pipe counter_devnull
           (AInt DEVNULL) (AInt DEVNULL) (AInt STDOUT)
           {| os := 3; _devnull := None |} {| os := 4; _devnull := Some 3%Z |}).
  vm_compute. reflexivity.
Defined.

End Handles.

(** ** Exceptions inside short-circuit stages ([AndProc.run], [OrProc.run]
       on their own threads) *)

Module StageFacts.
Import Proc Stages.

Section Facts.

Variable W : Type.
Variable leaf : Type.
Variable ctx : Type.
Variable run_leaf : ctx -> leaf -> stateful W pyval.

Abbreviation cmd := (Stages.cmd leaf).
Abbreviation st := (Stages.st W leaf).
Abbreviation get_proc_wait := (Stages.get_proc_wait W leaf ctx run_leaf).

(** The state once [get_proc] has made the object of stage [c]. *)
Definition built (c : cmd) (s : st) : st := (fst s, snd s ++ [Build c]).

(** The state once [wait()] on the object of stage [c] has returned. *)
Definition waited (c : cmd) (s : st) : st := (fst s, snd s ++ [Wait c]).

Lemma and_stage x c1 c2 s :
  get_proc_wait x (And c1 c2) s
  = match Stages.AndProc_run W leaf (get_proc_wait x) c1 c2 (built (And c1 c2) s) with
    | (Ret v, s') => (Ret v, waited (And c1 c2) s')
    | (Raise _, s') => (Ret PNone, waited (And c1 c2) s')
    end.
Proof.
  cbn [Stages.get_proc_wait]. unfold bind_st, log, join, try_except, ret, built, waited.
  cbn [fst snd].
  by destruct (Stages.AndProc_run W leaf (get_proc_wait x) c1 c2 _) as [[v|e] s'].
Qed.

Lemma or_stage x c1 c2 s :
  get_proc_wait x (Or c1 c2) s
  = match Stages.OrProc_run W leaf (get_proc_wait x) c1 c2 (built (Or c1 c2) s) with
    | (Ret v, s') => (Ret v, waited (Or c1 c2) s')
    | (Raise _, s') => (Ret PNone, waited (Or c1 c2) s')
    end.
Proof.
  cbn [Stages.get_proc_wait]. unfold bind_st, log, join, try_except, ret, built, waited.
  cbn [fst snd].
  by destruct (Stages.OrProc_run W leaf (get_proc_wait x) c1 c2 _) as [[v|e] s'].
Qed.

(** X13: Waiting on an ['and'] or ['or'] stage never raises, whatever its
    sub-commands do: the return code is [True], [False] or, when building
    or running a sub-command raised on the stage's thread, still [None],
    which [get_return_code] takes for a failure.  When [cmd1] raises,
    nothing of [cmd2] is built; when [cmd1] leaves the decision to [cmd2]
    and [cmd2] raises, the return code is [None] as well. *)
Theorem composite_never_raises (x : ctx) (c1 c2 : cmd) (s : st) :
  (∀ c, c = And c1 c2 ∨ c = Or c1 c2 →
     ∃ v s', get_proc_wait x c s = (Ret v, s')
             ∧ (v = PNone ∨ v = PBool true ∨ v = PBool false))
  ∧ (∀ c e s1, c = And c1 c2 ∨ c = Or c1 c2 →
       get_proc_wait x c1 (built c s) = (Raise e, s1) →
       get_proc_wait x c s = (Ret PNone, waited c s1))
  ∧ (∀ o1 s1 e s2,
       get_proc_wait x c1 (built (And c1 c2) s) = (Ret o1, s1) →
       get_return_code o1 = true →
       get_proc_wait x c2 s1 = (Raise e, s2) →
       get_proc_wait x (And c1 c2) s = (Ret PNone, waited (And c1 c2) s2))
  ∧ (∀ o1 s1 e s2,
       get_proc_wait x c1 (built (Or c1 c2) s) = (Ret o1, s1) →
       get_return_code o1 = false →
       get_proc_wait x c2 s1 = (Raise e, s2) →
       get_proc_wait x (Or c1 c2) s = (Ret PNone, waited (Or c1 c2) s2))
  ∧ get_return_code PNone = false.
Proof.
  split; [|split; [|split; [|split; [|reflexivity]]]].
  - intros c [->| ->]; [rewrite and_stage|rewrite or_stage].
    + unfold AndProc_run, bind_st, ret.
      destruct (get_proc_wait x c1 _) as [[o1|e] s1]; [|eauto].
      destruct (negb (get_return_code o1)); [eauto 6|].
      destruct (get_proc_wait x c2 s1) as [[o2|e] s2]; [|eauto].
      destruct (get_return_code o2); eauto 6.
    + unfold OrProc_run, bind_st, ret.
      destruct (get_proc_wait x c1 _) as [[o1|e] s1]; [|eauto].
      destruct (get_return_code o1); [eauto 6|].
      destruct (get_proc_wait x c2 s1) as [[o2|e] s2]; [|eauto].
      destruct (get_return_code o2); eauto 6.
  - intros c e s1 [->| ->] H1; [rewrite and_stage|rewrite or_stage].
    + unfold AndProc_run, bind_st. by rewrite H1.
    + unfold OrProc_run, bind_st. by rewrite H1.
  - intros o1 s1 e s2 H1 Hb H2. rewrite and_stage.
    unfold AndProc_run, bind_st. rewrite H1, Hb. cbn [negb]. by rewrite H2.
  - intros o1 s1 e s2 H1 Hb H2. rewrite or_stage.
    unfold OrProc_run, bind_st. rewrite H1, Hb. by rewrite H2.
Qed.

End Facts.

(** [ls <missing-redirect-target> && true || true] with stages that raise:
    a leaf is [None] when building it raises. *)
Definition run_opt (x : unit) (l : option bool) : stateful nat pyval :=
  fun w =>
    match l with
    | Some b => (Ret (PInt (if b then 0 else 1)), S w)
    | None => (Raise (XonshError "Multiple redirects for stdout"), w)
    end.

Example raising_stage_then_or :
  Stages.get_proc_wait nat (option bool) unit run_opt tt
    (Or (And (Cmd None) (Cmd (Some true))) (Cmd (Some true))) (0, [])
  = (Ret (PBool true),
     (1, [Build (Or (And (Cmd None) (Cmd (Some true))) (Cmd (Some true)));
          Build (And (Cmd None) (Cmd (Some true)));
          Build (Cmd None);
          Wait (And (Cmd None) (Cmd (Some true)));
          Build (Cmd (Some true)); Wait (Cmd (Some true));
          Wait (Or (And (Cmd None) (Cmd (Some true))) (Cmd (Some true)))])).
Proof. reflexivity. Qed.

End StageFacts.

(** ** What [run_subproc] returns and which job it leaves registered *)

Module PipelineFacts.
Import Proc Pipeline.

Section Facts.

Variable W : Type.
Variable proc : Type.
Variable stage : Type.
Variable get_proc_stage : stage -> option proc -> bool -> bool -> stateful W (option proc).
Variable is_ProcProxy : proc -> bool.
Variable pid : proc -> option Z.
Variable stdout_close : proc -> stateful W unit.
Variable proc_wait : proc -> stateful W unit.
Variable stdout_read : proc -> stateful W (option string).
Variable proc_returncode : proc -> W -> pyval.

Abbreviation shell := (Pipeline.shell W proc stage).
Abbreviation entry := (Pipeline.entry stage).
Abbreviation _active_job := (Pipeline._active_job W proc stage).
Abbreviation in_world := (Pipeline.in_world W proc stage).
Abbreviation build_procs := (Pipeline.build_procs W proc stage get_proc_stage).
Abbreviation close_all := (Pipeline.close_all W proc stage stdout_close).
Abbreviation wait_for_active_job := (Pipeline.wait_for_active_job W proc stage proc_wait).
Abbreviation run_subproc :=
  (Pipeline.run_subproc W proc stage get_proc_stage is_ProcProxy pid stdout_close
     proc_wait stdout_read proc_returncode).

(** Code that leaves the registered job as it is. *)
Definition keeps_job {A} (m : stateful shell A) : Prop :=
  ∀ s r s', m s = (r, s') → _active_job s' = _active_job s.

Lemma in_world_keeps_job {A} (m : stateful W A) : keeps_job (in_world m).
Proof.
  intros s r s'. unfold Pipeline.in_world.
  destruct (m (world W proc stage s)) as [r0 w']. by intros [= <- <-].
Qed.

Lemma ret_keeps_job {A} (a : A) : keeps_job (ret a).
Proof. by intros s r s' [= <- <-]. Qed.

Lemma raise_keeps_job {A} e : keeps_job (raise e : stateful shell A).
Proof. by intros s r s' [= <- <-]. Qed.

Lemma bind_keeps_job {A B} (m : stateful shell A) (k : A → stateful shell B) :
  keeps_job m → (∀ a, keeps_job (k a)) → keeps_job (bind_st m k).
Proof.
  intros Hm Hk s r s'. unfold bind_st.
  destruct (m s) as [[a|e] s1] eqn:H1; apply Hm in H1.
  - intros H2. apply Hk in H2. congruence.
  - intros [= <- <-]. done.
Qed.

Lemma get_proc_keeps_job cmd prev uninew captured :
  keeps_job (Pipeline.get_proc W proc stage get_proc_stage cmd prev uninew captured).
Proof.
  destruct cmd as [[|c t]|c]; simpl.
  - apply raise_keeps_job.
  - apply ret_keeps_job.
  - apply in_world_keeps_job.
Qed.

Lemma build_procs_keeps_job cmds :
  ∀ ix last_cmd captured procs prev,
    keeps_job (build_procs cmds ix last_cmd captured procs prev).
Proof.
  induction cmds as [|cmd rest IH]; intros; simpl.
  - apply ret_keeps_job.
  - apply bind_keeps_job; [apply get_proc_keeps_job|].
    intros [o|]; apply IH.
Qed.

Lemma close_all_keeps_job procs : keeps_job (close_all procs).
Proof.
  induction procs as [|p rest IH]; simpl.
  - apply ret_keeps_job.
  - apply bind_keeps_job; [apply in_world_keeps_job|]. intros _. exact IH.
Qed.

Lemma wait_for_active_job_keeps_job : keeps_job wait_for_active_job.
Proof.
  intros s r s'. unfold Pipeline.wait_for_active_job.
  destruct (Pipeline._active_job W proc stage s) as [j|] eqn:Hj; rewrite <- Hj.
  - destruct (job_obj proc stage j) as [obj|].
    + exact (in_world_keeps_job (proc_wait obj) s r s').
    + by intros [= <- <-].
  - by intros [= <- <-].
Qed.

(** The objects the loop appends are the ones it made, the last of them
    is [prev_proc]. *)
Lemma build_procs_last cmds :
  ∀ ix last_cmd captured procs prev s procs' prev' s',
    build_procs cmds ix last_cmd captured procs prev s = (Ret (procs', prev'), s') →
    last procs = prev →
    last procs' = prev'.
Proof.
  induction cmds as [|cmd rest IH]; intros ix last_cmd captured procs prev s
    procs' prev' s'; simpl.
  - intros [= <- <- <-]. done.
  - unfold bind_st.
    destruct (Pipeline.get_proc W proc stage get_proc_stage cmd prev _ captured s)
      as [[[o|]|e] s1]; [| |done].
    + intros H _. apply IH in H; [done|]. by rewrite last_snoc.
    + intros H Hl. by apply IH in H.
Qed.

(** What comes after [add_job] in a foreground call. *)
Lemma foreground_keeps_job (prev_proc : option proc) (captured : bool) :
  keeps_job
    (perform _u <-
       (match prev_proc with
        | Some p => if is_ProcProxy p then in_world (proc_wait p) else ret tt
        | None => ret tt
        end);
     perform _u <- wait_for_active_job;
     match prev_proc with
     | None => raise AttributeError
     | Some p =>
         perform out <- in_world (stdout_read p);
         let output := match out with Some o => o | None => "" end in
         if captured then ret (ROutput output)
         else fun s =>
                (Ret (RStatus (get_return_code
                                 (proc_returncode p (world W proc stage s)))), s)
     end).
Proof.
  apply bind_keeps_job.
  { destruct prev_proc as [p|]; [|apply ret_keeps_job].
    destruct (is_ProcProxy p); [apply in_world_keeps_job|apply ret_keeps_job]. }
  intros _. apply bind_keeps_job; [apply wait_for_active_job_keeps_job|].
  intros _. destruct prev_proc as [p|]; [|apply raise_keeps_job].
  apply bind_keeps_job; [apply in_world_keeps_job|].
  intros out. destruct captured; [apply ret_keeps_job|].
  by intros s r s' [= <- <-].
Qed.

(** The steps of a foreground call once the objects are made and the
    [stdout] of all but the last are closed (the state [s2]): [wait] on
    the last object [p] if it is a [ProcProxy]; [wait_for_active_job], on
    the object of the job then registered, which is [p] itself unless [p]
    is a [ProcProxy], and then is the one of the job [stale] registered
    before the call, if any; and [p.stdout.read()], giving [out] and
    leaving the world [w']. *)
Definition foreground_steps (stale : option (job proc stage)) (p : proc)
    (w2 : W) (out : option string) (w' : W) : Prop :=
  ∃ w3 w4,
    (if is_ProcProxy p
     then proc_wait p w2 = (Ret tt, w3)
          ∧ match stale with
            | None => w4 = w3
            | Some j =>
                ∃ obj, job_obj proc stage j = Some obj
                       ∧ proc_wait obj w3 = (Ret tt, w4)
            end
     else w3 = w2 ∧ proc_wait p w3 = (Ret tt, w4))
    ∧ stdout_read p w4 = (Ret out, w').

Lemma foreground_result (prev_proc : option proc) (captured : bool) s r s' :
  (perform _u <-
     (match prev_proc with
      | Some p => if is_ProcProxy p then in_world (proc_wait p) else ret tt
      | None => ret tt
      end);
   perform _u <- wait_for_active_job;
   match prev_proc with
   | None => raise AttributeError
   | Some p =>
       perform out <- in_world (stdout_read p);
       let output := match out with Some o => o | None => "" end in
       if captured then ret (ROutput output)
       else fun s =>
              (Ret (RStatus (get_return_code
                               (proc_returncode p (world W proc stage s)))), s)
   end) s = (Ret r, s') →
  ∃ p out w3 w4,
    prev_proc = Some p
    ∧ (if is_ProcProxy p then proc_wait p (world W proc stage s) = (Ret tt, w3)
       else w3 = world W proc stage s)
    ∧ match _active_job s with
      | None => w4 = w3
      | Some j =>
          ∃ obj, job_obj proc stage j = Some obj ∧ proc_wait obj w3 = (Ret tt, w4)
      end
    ∧ stdout_read p w4 = (Ret out, world W proc stage s')
    ∧ r = if captured
          then ROutput (match out with Some o => o | None => "" end)
          else RStatus (get_return_code (proc_returncode p (world W proc stage s'))).
Proof.
  destruct prev_proc as [p|].
  2: { unfold bind_st, ret. cbv beta iota.
       destruct (wait_for_active_job s) as [[[]|e] s2]; intros H; discriminate H. }
  unfold bind_st at 1.
  destruct ((if is_ProcProxy p then in_world (proc_wait p) else ret tt) s)
    as [[[]|e] s1] eqn:H1; [|intros H; discriminate H].
  assert (_active_job s1 = _active_job s
          ∧ if is_ProcProxy p
            then proc_wait p (world W proc stage s)
                 = (Ret tt, world W proc stage s1)
            else world W proc stage s1 = world W proc stage s) as [Hj1 Hw1].
  { destruct (is_ProcProxy p).
    - unfold Pipeline.in_world in H1.
      destruct (proc_wait p (world W proc stage s)) as [[[]|e] w]; [|discriminate H1].
      injection H1 as <-. by split.
    - injection H1 as <-. by split. }
  clear H1. unfold bind_st at 1.
  destruct (wait_for_active_job s1) as [[[]|e] s2] eqn:H2; [|intros H; discriminate H].
  assert (_active_job s2 = _active_job s
          ∧ match _active_job s with
            | None => world W proc stage s2 = world W proc stage s1
            | Some j =>
                ∃ obj, job_obj proc stage j = Some obj
                       ∧ proc_wait obj (world W proc stage s1)
                         = (Ret tt, world W proc stage s2)
            end) as [Hj2 Hw2].
  { rewrite <- Hj1. unfold Pipeline.wait_for_active_job in H2.
    destruct (Pipeline._active_job W proc stage s1) as [j|] eqn:Hj.
    - destruct (job_obj proc stage j) as [obj|] eqn:Ho; [|discriminate H2].
      unfold Pipeline.in_world in H2.
      destruct (proc_wait obj (world W proc stage s1)) as [[[]|e] w] eqn:Hw;
        [|discriminate H2].
      injection H2 as <-. cbn [Pipeline._active_job Pipeline.world].
      split; [by rewrite Hj|]. by exists obj.
    - injection H2 as <-. by rewrite Hj. }
  clear H2. unfold bind_st at 1. unfold Pipeline.in_world at 1.
  destruct (stdout_read p (world W proc stage s2)) as [[out|e] w5] eqn:H3;
    [|intros H; discriminate H].
  cbv zeta. intros H.
  exists p, out, (world W proc stage s1), (world W proc stage s2).
  split; [reflexivity|].
  split; [destruct (is_ProcProxy p); exact Hw1|].
  split; [destruct (_active_job s) as [j|]; exact Hw2|].
  destruct captured; injection H as <- <-; cbn [Pipeline.world]; by split.
Qed.

(** X14: What a call of [run_subproc] that returns gives back, and the job it
    leaves.  [prev_proc] is the last object made.  A command list that
    ends with ['&'] gives [None] without waiting or reading: the world is
    as the closing of the earlier [stdout]s left it.  Any other gives,
    after the waiting, what [prev_proc.stdout.read()] gave (the empty
    string where there is nothing to read) when [captured], and otherwise
    the normalised return code [prev_proc] has in the end, never the
    output.  When [prev_proc] is a [ProcProxy] no job is added: the one
    registered before stays.  Otherwise the job of this call is the one
    registered in the end, with [prev_proc] as its [obj]; there is no such
    object only in a background call. *)
Theorem run_subproc_result (cmds : list entry) (captured : bool) (s s' : shell)
    (r : result) :
  run_subproc cmds captured s = (Ret r, s') →
  ∃ l procs prev_proc s1 s2,
    last cmds = Some l
    ∧ build_procs (if is_amp stage l then removelast cmds else cmds) 0
        (Z.of_nat (length (if is_amp stage l then removelast cmds else cmds)) - 1)%Z
        captured [] None s
      = (Ret (procs, prev_proc), s1)
    ∧ last procs = prev_proc
    ∧ close_all (removelast procs) s1 = (Ret tt, s2)
    ∧ match r with
      | RNone =>
          is_amp stage l = true
          ∧ world W proc stage s' = world W proc stage s2
      | ROutput output =>
          is_amp stage l = false ∧ captured = true
          ∧ ∃ p out,
              prev_proc = Some p
              ∧ foreground_steps (_active_job s) p (world W proc stage s2) out
                  (world W proc stage s')
              ∧ output = match out with Some o => o | None => "" end
      | RStatus ok =>
          is_amp stage l = false ∧ captured = false
          ∧ ∃ p out,
              prev_proc = Some p
              ∧ foreground_steps (_active_job s) p (world W proc stage s2) out
                  (world W proc stage s')
              ∧ ok = get_return_code (proc_returncode p (world W proc stage s'))
      end
    ∧ match prev_proc with
      | Some p =>
          if is_ProcProxy p then _active_job s' = _active_job s
          else _active_job s'
               = Some {| job_cmds := if is_amp stage l then removelast cmds else cmds;
                         job_pids := map pid procs;
                         job_obj := Some p;
                         job_bg := is_amp stage l |}
      | None =>
          is_amp stage l = true
          ∧ _active_job s'
            = Some {| job_cmds := removelast cmds;
                      job_pids := map pid procs;
                      job_obj := None;
                      job_bg := true |}
      end.
Proof.
  unfold Pipeline.run_subproc.
  destruct (last cmds) as [l|] eqn:Hlast; [|intros H; discriminate H].
  cbv zeta. set (cmds' := if is_amp stage l then removelast cmds else cmds).
  unfold bind_st at 1.
  destruct (build_procs cmds' 0 _ captured [] None s) as [[[procs prev]|e] s1] eqn:Hb;
    [|intros H; discriminate H].
  pose proof (build_procs_keeps_job _ _ _ _ _ _ _ _ _ Hb) as Hj1.
  pose proof (build_procs_last _ _ _ _ _ _ _ _ _ _ Hb eq_refl) as Hprev.
  cbn [fst snd]. unfold bind_st at 1.
  destruct (close_all (removelast procs) s1) as [[[]|e] s2] eqn:Hc;
    [|intros H; discriminate H].
  pose proof (close_all_keeps_job _ _ _ _ Hc) as Hj2.
  intros H. exists l, procs, prev, s1, s2.
  split; [reflexivity|]. split; [exact Hb|]. split; [exact Hprev|].
  split; [exact Hc|].
  revert H. unfold bind_st at 1.
  match goal with
  | |- context [(if negb ?b then add_job ?W0 ?P0 ?S0 ?j else ret tt) s2] =>
      destruct ((if negb b then add_job W0 P0 S0 j else ret tt) s2)
        as [[[]|e] s3] eqn:Hm
  end; [|intros H; discriminate H].
  assert (world W proc stage s3 = world W proc stage s2
          ∧ match prev with
            | Some p =>
                if is_ProcProxy p then _active_job s3 = _active_job s
                else _active_job s3
                     = Some {| job_cmds := cmds'; job_pids := map pid procs;
                               job_obj := Some p; job_bg := is_amp stage l |}
            | None =>
                _active_job s3
                = Some {| job_cmds := cmds'; job_pids := map pid procs;
                          job_obj := None; job_bg := is_amp stage l |}
            end) as [Hw3 Hjob].
  { destruct prev as [p|]; [destruct (is_ProcProxy p)|]; cbn [negb] in Hm.
    - injection Hm as <-. split; [reflexivity|congruence].
    - injection Hm as <-. split; reflexivity.
    - injection Hm as <-. split; reflexivity. }
  clear Hm. destruct (is_amp stage l) eqn:Hamp.
  - intros [= <- <-]. split; [by split|].
    destruct prev as [p|]; [exact Hjob|]. split; [reflexivity|exact Hjob].
  - intros H. pose proof (foreground_keeps_job prev captured s3 (Ret r) s' H) as Hj3.
    apply foreground_result in H
      as (p & out & w3 & w4 & -> & Hwait & Hactive & Hread & ->).
    rewrite Hw3 in Hwait.
    assert (foreground_steps (_active_job s) p (world W proc stage s2) out
              (world W proc stage s')) as Hsteps.
    { exists w3, w4. split; [|exact Hread].
      destruct (is_ProcProxy p).
      - rewrite Hjob in Hactive. by split.
      - rewrite Hjob in Hactive. destruct Hactive as (obj & [= <-] & Hobj).
        by split. }
    split.
    + destruct captured; (split; [reflexivity|]); (split; [reflexivity|]);
        exists p, out; by repeat split.
    + destruct (is_ProcProxy p); rewrite Hj3; exact Hjob.
Qed.

End Facts.

(** The shell after one child process was run in the foreground. *)
Definition after_one_stage : Pipeline.shell unit unit unit :=
  {| world := tt;
     _active_job := Some {| job_cmds := [Stage tt]; job_pids := [Some 1%Z];
                            job_obj := Some tt; job_bg := false |} |}.

Lemma run_subproc_result_witness :
  ∃ l procs prev_proc s1 s2,
    last [Stage tt] = Some l
    ∧ Pipeline.build_procs unit unit unit plain_get_proc
        (if is_amp unit l then removelast [Stage tt] else [Stage tt]) 0
        (Z.of_nat (length (if is_amp unit l then removelast [Stage tt]
                           else [Stage tt])) - 1)%Z
        false [] None fresh_shell
      = (Ret (procs, prev_proc), s1)
    ∧ last procs = prev_proc
    ∧ Pipeline.close_all unit unit unit (fun _ => ret tt) (removelast procs) s1
      = (Ret tt, s2)
    ∧ (is_amp unit l = false ∧ false = false
       ∧ ∃ p out,
           prev_proc = Some p
           ∧ foreground_steps unit unit unit (fun _ => false) (fun _ => ret tt)
               (fun _ => ret None)
               (Pipeline._active_job unit unit unit fresh_shell) p
               (world unit unit unit s2) out (world unit unit unit after_one_stage)
           ∧ true = Proc.get_return_code
                      ((fun _ _ => PInt 0) p (world unit unit unit after_one_stage)))
    ∧ match prev_proc with
      | Some p =>
          if (fun _ : unit => false) p
          then Pipeline._active_job unit unit unit after_one_stage
               = Pipeline._active_job unit unit unit fresh_shell
          else Pipeline._active_job unit unit unit after_one_stage
               = Some {| job_cmds := if is_amp unit l then removelast [Stage tt]
                                     else [Stage tt];
                         job_pids := map (fun _ : unit => Some 1%Z) procs;
                         job_obj := Some p;
                         job_bg := is_amp unit l |}
      | None =>
          is_amp unit l = true
          ∧ Pipeline._active_job unit unit unit after_one_stage
            = Some {| job_cmds := removelast [Stage tt];
                      job_pids := map (fun _ : unit => Some 1%Z) procs;
                      job_obj := None;
                      job_bg := true |}
      end.
Proof.
  apply (run_subproc_result unit unit unit plain_get_proc (fun _ => false)
           (fun _ => Some 1%Z) (fun _ => ret tt) (fun _ => ret tt)
           (fun _ => ret None) (fun _ _ => PInt 0)
           [Stage tt] false fresh_shell after_one_stage (RStatus true)).
  reflexivity.
Defined.

End PipelineFacts.

(** ** More on the command resolver *)

Module ResolverFacts.
Import Regex Resolver.

(** *** Strings as lists of characters *)

Lemma list_ascii_app (a b : string) :
  list_ascii_of_string (a +:+ b) = list_ascii_of_string a ++ list_ascii_of_string b.
Proof. induction a as [|c a IH]; simpl; [done|]. by rewrite IH. Qed.

Lemma length_list_ascii (s : string) :
  String.length s = length (list_ascii_of_string s).
Proof. induction s as [|c s IH]; simpl; [done|]. by rewrite IH. Qed.

Lemma substring_prefix (pre s : string) :
  substring 0 (String.length pre) (pre +:+ s) = pre.
Proof.
  induction pre as [|c pre IH]; simpl.
  - by destruct s.
  - by rewrite IH.
Qed.

Lemma consumed_app (pre s : string) : consumed (pre +:+ s) s = pre.
Proof.
  unfold consumed.
  replace (String.length (pre +:+ s) - String.length s) with (String.length pre).
  - apply substring_prefix.
  - rewrite !length_list_ascii, list_ascii_app, length_app. lia.
Qed.

(** *** What a match of a pattern consumed *)

Lemma strip_prefix_inv (p s s1 : string) :
  strip_prefix p s = Some s1 → s = p +:+ s1.
Proof.
  revert s. induction p as [|a p IH]; intros s; simpl.
  - by intros [= ->].
  - destruct s as [|b s]; [done|].
    destruct (Ascii.eqb_spec a b) as [->|]; [|done].
    intros H. by rewrite (IH s H).
Qed.

Lemma star_class_inv {A} (p : ascii → bool) (s : string) (k : string → option A) g :
  star_class p s k = Some g → ∃ pre s2, s = pre +:+ s2 ∧ k s2 = Some g.
Proof.
  induction s as [|c s IH]; simpl.
  - intros H. by exists "", "".
  - destruct (p c).
    + destruct (star_class p s k) as [g'|] eqn:Hs; simpl.
      * intros [= <-]. destruct (IH eq_refl) as (pre & s2 & -> & Hk).
        by exists (String c pre), s2.
      * intros H. by exists "", (String c s).
    + intros H. by exists "", (String c s).
Qed.

Lemma lazy_plus_class_inv {A} (p : ascii → bool) (s : string)
    (k : string → option A) g :
  lazy_plus_class p s k = Some g →
  ∃ pre s3, pre ≠ "" ∧ s = pre +:+ s3 ∧ k s3 = Some g.
Proof.
  induction s as [|c s IH]; simpl; [done|].
  destruct (p c); [|done].
  destruct (k s) as [g'|] eqn:Hk; simpl.
  - intros [= <-]. by exists (String c ""), s.
  - intros H. destruct (IH H) as (pre & s3 & Hne & -> & Hk3).
    by exists (String c pre), s3.
Qed.

(** A match of [RE_SHEBANG]: the line is [#!], blanks, the group, and
    nothing more or one last newline. *)
Lemma shebang_match_inv (s : string) (m : groups) :
  re_match RE_SHEBANG s = Some m →
  ∃ blanks interp rest,
    s = "#!" +:+ blanks +:+ interp +:+ rest
    ∧ interp ≠ ""
    ∧ (rest = "" ∨ rest = String LF "")
    ∧ group m 1 = interp.
Proof.
  unfold re_match, RE_SHEBANG. cbn [run].
  destruct (strip_prefix "#!" s) as [s1|] eqn:H1; [|done].
  apply strip_prefix_inv in H1 as ->.
  intros H. apply star_class_inv in H as (blanks & s2 & -> & H).
  apply lazy_plus_class_inv in H as (interp & rest & Hne & -> & H).
  destruct (at_eol rest) eqn:Heol; [|done].
  injection H as <-. exists blanks, interp, rest.
  split; [done|]. split; [done|]. split.
  - destruct rest as [|c [|c' rest]]; simpl in Heol; [by left| |done].
    apply Ascii.eqb_eq in Heol as ->. by right.
  - simpl. apply consumed_app.
Qed.

Lemma no_shebang_no_match (s : string) :
  Resolver.startswith "#!" s = false → re_match RE_SHEBANG s = None.
Proof.
  unfold Resolver.startswith, re_match, RE_SHEBANG. cbn [run].
  by destruct (strip_prefix "#!" s).
Qed.

(** *** What [strip] leaves at the end *)

Lemma strip_last (x : string) :
  strip x = ""
  ∨ ∃ l c, list_ascii_of_string (strip x) = l ++ [c] ∧ is_py_space c = false.
Proof.
  unfold strip, rstrip.
  destruct (lstrip (string_rev (lstrip x))) as [|c t] eqn:Hl; [by left|].
  right. apply lstrip_head in Hl. exists (rev (list_ascii_of_string t)), c.
  split; [|done]. unfold string_rev.
  by rewrite list_ascii_of_string_of_list_ascii.
Qed.

Lemma strip_nonempty (l : list ascii) (c : ascii) :
  is_py_space c = false →
  strip (string_of_list_ascii (l ++ [c])) ≠ "".
Proof.
  intros Hc. unfold strip.
  destruct (lstrip_keeps_last l c Hc) as [l' ->].
  unfold rstrip, string_rev at 2.
  rewrite list_ascii_of_string_of_list_ascii, rev_app_distr. simpl. rewrite Hc.
  unfold string_rev. simpl.
  destruct (rev (list_ascii_of_string (string_of_list_ascii (rev l')))); done.
Qed.

(** X15: The interpreter taken from a shebang line is never empty: when the
    stripped first line matches [RE_SHEBANG], the group, stripped, has a
    character, so the resolver falls back on [xonsh] only for a line that
    does not match. *)
Theorem shebang_interpreter_not_empty (line : string) (m : groups) :
  re_match RE_SHEBANG (strip line) = Some m →
  (0 <? String.length (strip (group m 1))) = true.
Proof.
  intros Hm.
  apply shebang_match_inv in Hm as (blanks & interp & rest & Hs & Hne & Hrest & ->).
  destruct (strip_last line) as [Hempty|(l & c & Hl & Hc)].
  { rewrite Hempty in Hs. discriminate Hs. }
  rewrite Hs, !list_ascii_app in Hl.
  assert (∃ li ci, list_ascii_of_string interp = li ++ [ci]) as (li & ci & Hi).
  { destruct (list_ascii_of_string interp) as [|a t] eqn:Hli.
    - destruct interp; [done|discriminate Hli].
    - destruct (exists_last (l:=a :: t) ltac:(done)) as (li & ci & ->). eauto. }
  assert (interp = string_of_list_ascii (li ++ [ci])) as Hinterp.
  { by rewrite <- Hi, string_of_list_ascii_of_string. }
  assert (is_py_space ci = false) as Hci.
  { destruct Hrest as [->| ->]; rewrite Hi in Hl; simpl in Hl.
    - rewrite app_nil_r in Hl.
      change (("#"%char :: "!"%char :: list_ascii_of_string blanks ++ li ++ [ci])
              = l ++ [c]) in Hl.
      rewrite (app_assoc _ li [ci]) in Hl.
      change ((["#"%char; "!"%char] ++ list_ascii_of_string blanks ++ li) ++ [ci]
              = l ++ [c]) in Hl.
      apply app_inj_tail in Hl as [_ ->]. exact Hc.
    - exfalso.
      change ((["#"%char; "!"%char] ++ list_ascii_of_string blanks
               ++ (li ++ [ci]) ++ [LF]) = l ++ [c]) in Hl.
      rewrite !app_assoc in Hl.
      apply app_inj_tail in Hl as [_ <-]. discriminate Hc. }
  pose proof (strip_nonempty li ci Hci) as Hstrip. rewrite <- Hinterp in Hstrip.
  apply Nat.ltb_lt. destruct (strip interp); [done|simpl; lia].
Qed.

Lemma shebang_interpreter_not_empty_witness :
  (0 <? String.length (strip (group [(1, "/bin/sh")] 1))) = true.
Proof.
  apply (shebang_interpreter_not_empty ("#! /bin/sh" +:+ String LF "")
           [(1, "/bin/sh")]).
  vm_compute. reflexivity.
Defined.

Section Facts.

Variable ON_WINDOWS : bool.
Variable PATHEXT : list string.
Variable decode : string -> outcome string.
Variable fs : gmap string file.

Abbreviation get_script_subproc_command :=
  (Resolver.get_script_subproc_command ON_WINDOWS PATHEXT decode fs).

Lemma command_ends_with_args (fname : string) (args argv : list string) :
  get_script_subproc_command fname args = Ret argv →
  (∃ f, fs !! fname = Some f ∧ f_exec f = true ∧ f_read f = true)
  ∧ ∃ interp, argv = interp ++ fname :: args.
Proof.
  unfold Resolver.get_script_subproc_command, _is_binary, open_rb, access_x.
  destruct (fs !! fname) as [f|]; [|intros H; discriminate H].
  destruct (f_exec f) eqn:Hx; [|intros H; discriminate H].
  destruct (f_read f) eqn:Hr; [|intros H; discriminate H].
  cbn [negb bind]. intros H. split; [by exists f|].
  destruct (scan_binary 80 (f_bytes f)).
  { injection H as <-. by exists []. }
  destruct (ON_WINDOWS && bool_decide (upper (splitext_ext ON_WINDOWS fname) ∈ PATHEXT)).
  { injection H as <-. by exists []. }
  destruct (decode (readline (f_bytes f))) as [line|e]; [|discriminate H].
  cbn [bind] in H.
  destruct (match re_match RE_SHEBANG (strip line) with
            | Some m =>
                if 0 <? String.length (strip (group m 1))
                then Shlex.split (strip (group m 1)) else Ret ["xonsh"]
            | None => Ret ["xonsh"]
            end) as [interp|e]; [|discriminate H].
  cbn [bind] in H. injection H as <-. eauto.
Qed.

Lemma not_executable_refused (fname : string) (args : list string) :
  access_x fs fname = false →
  get_script_subproc_command fname args = Raise PermissionError.
Proof. unfold Resolver.get_script_subproc_command. by intros ->. Qed.

(** X16: A file that is missing or not executable is refused with
    [PermissionError] before anything is read.  A command is returned only
    for a file that is there, executable and readable, and it always ends
    with the path and the arguments as they were given; what comes before
    is the interpreter, if any. *)
Theorem resolved_command_shape (fname : string) (args : list string) :
  (access_x fs fname = false →
   get_script_subproc_command fname args = Raise PermissionError)
  ∧ (∀ argv, get_script_subproc_command fname args = Ret argv →
       (∃ f, fs !! fname = Some f ∧ f_exec f = true ∧ f_read f = true)
       ∧ ∃ interp, argv = interp ++ fname :: args).
Proof.
  split; [apply not_executable_refused|apply command_ends_with_args].
Qed.

(** X17: A script without a shebang line is run by xonsh: when the first line
    of an executable, readable file that is not a binary does not start
    with [#!] once stripped, the command is [xonsh path args...], and on
    Windows [python -m xonsh.main path args...], unless the extension of
    the path is in [PATHEXT]. *)
Theorem script_without_shebang (fname : string) (args : list string) (f : file)
    (line : string) :
  fs !! fname = Some f → f_exec f = true → f_read f = true →
  scan_binary 80 (f_bytes f) = false →
  decode (readline (f_bytes f)) = Ret line →
  Resolver.startswith "#!" (strip line) = false →
  get_script_subproc_command fname args
  = if ON_WINDOWS
    then if bool_decide (upper (splitext_ext ON_WINDOWS fname) ∈ PATHEXT)
         then Ret (fname :: args)
         else Ret ("python" :: "-m" :: "xonsh.main" :: fname :: args)
    else Ret ("xonsh" :: fname :: args).
Proof.
  intros Hf Hx Hr Hbin Hline Hno.
  rewrite (script_resolution ON_WINDOWS PATHEXT decode fs fname args f line
             Hf Hx Hr Hbin Hline).
  rewrite (no_shebang_no_match _ Hno). cbn [bind].
  destruct ON_WINDOWS; cbn [andb]; [|reflexivity].
  destruct (bool_decide (upper (splitext_ext true fname) ∈ PATHEXT)); reflexivity.
Qed.

End Facts.

(** A readable, executable file that starts with a comment. *)
Definition plain_script : gmap string file :=
  {[ "/tmp/s" := {| f_exec := true; f_read := true;
                    f_bytes := "# a script" +:+ String LF "echo hi" |} ]}.

Lemma script_without_shebang_witness :
  Resolver.get_script_subproc_command true [".EXE"] Ret plain_script "/tmp/s" ["-v"]
  = if true
    then if bool_decide (upper (splitext_ext true "/tmp/s") ∈ [".EXE"])
         then Ret ("/tmp/s" :: ["-v"])
         else Ret ("python" :: "-m" :: "xonsh.main" :: "/tmp/s" :: ["-v"])
    else Ret ("xonsh" :: "/tmp/s" :: ["-v"]).
Proof.
  apply (script_without_shebang true [".EXE"] Ret plain_script "/tmp/s" ["-v"]
           {| f_exec := true; f_read := true;
              f_bytes := "# a script" +:+ String LF "echo hi" |}
           ("# a script" +:+ String LF ""));
    reflexivity.
Defined.

End ResolverFacts.

(** ** Finding the program of a command ([proc._get_runnable_name] and the
       last part of [proc.get_proc]) *)

Module Resolve.
Import Aliases Resolver.

(** The root of [os.path.splitext]: the path without its extension. *)
Definition splitext_root (windows : bool) (x : string) : string :=
  substring 0 (String.length x - String.length (splitext_ext windows x)) x.

Section Resolve.

(** The platform; [PATH] and [PATHEXT] of the environment; the file system
    as [os.path.isfile], [os.path.isdir], [os.listdir] and [os.path.join]
    see it. *)
Variable ON_WINDOWS : bool.
Variable PATH : list string.
Variable PATHEXT : list string.
Variable isfile : string -> bool.
Variable isdir : string -> bool.
Variable listdir : string -> outcome (list string).
Variable join : string -> string -> string.

(** The alias table [builtins.aliases], the parameter count of a callable
    ([len(inspect.signature(f).parameters)]), and what the command
    resolver reads: the decoder and the files. *)
Variable raw : gmap string alias_val.
Variable numargs : callable -> nat.
Variable decode : string -> outcome string.
Variable fs : gmap string file.

(** The loop [for dirfile in files] *)
Fixpoint match_pathext (fname : string) (files : list string) : option string :=
  match files with
  | [] => None
  | dirfile :: rest =>
      if (fname =? splitext_root ON_WINDOWS dirfile)%string
         && bool_decide (upper (splitext_ext ON_WINDOWS dirfile) ∈ PATHEXT)
      then Some dirfile
      else match_pathext fname rest
  end.

(** The loop [for d in builtins.__xonsh_env__['PATH']] *)
Fixpoint search (fname : string) (path : list string) : outcome (option string) :=
  match path with
  | [] => Ret None
  | d :: rest =>
      if isdir d then
        do files <- listdir d;
        if bool_decide (fname ∈ files) then Ret (Some (join d fname))
        else if ON_WINDOWS then
          match match_pathext fname files with
          | Some dirfile => Ret (Some (join d dirfile))
          | None => search fname rest
          end
        else search fname rest
      else search fname rest
  end.

(** [_get_runnable_name(fname)] *)
Definition _get_runnable_name (fname : string) : outcome (option string) :=
  if isfile fname && negb (fname =? basename ON_WINDOWS fname)%string
  then Ret (Some fname)
  else search fname PATH.






(** The class [get_proc] picks for a callable. *)
Inductive proxy_class :=
| SimpleProcProxy
| ProcProxy.

(** What [get_proc] makes the object from: [cls(aliased_cmd, cmd[1:], ...)]
    or [Popen(aliased_cmd, ...)]. *)
Inductive plan :=
| Proxy (cls : proxy_class) (f : callable) (args : list string)
| Child (argv : list string).

Definition permission_denied (name : string) : exn :=
  XonshError ("xonsh: subprocess mode: permission denied: " +:+ name).

Definition wrong_arity (n : nat) : exn :=
  XonshError ("Expected callable with 2 or 4 arguments, not "
              +:+ NilZero.string_of_uint (Nat.to_uint n)).

(** The lines of [get_proc] from [alias = builtins.aliases.get(cmd[0], None)]
    up to the making of the object, on a ['cmd'] stage. *)
Definition plan_of (cmd : list string) : option (outcome plan) :=
  match cmd with
  | [] => Some (Raise IndexError)                         (* cmd[0] *)
  | head :: tail =>
      match Aliases.lookup raw head with
      | None => None
      | Some (Raise e) => Some (Raise e)
      | Some (Ret (Some (ACallable f))) =>                (* callable(alias) *)
          Some (if numargs f =? 2 then Ret (Proxy SimpleProcProxy f tail)
                else if numargs f =? 4 then Ret (Proxy ProcProxy f tail)
                else Raise (wrong_arity (numargs f)))
      | Some (Ret alias) =>
          let cmd :=
            match alias with
            | Some (AList l) => l ++ tail                 (* alias + cmd[1:] *)
            | _ => head :: tail
            end in
          Some (match cmd with
                | [] => Raise IndexError
                | c0 :: rest =>
                    do n <- _get_runnable_name c0;
                    match n with
                    | None => Ret (Child cmd)
                    | Some n =>
                        match Resolver.get_script_subproc_command
                                ON_WINDOWS PATHEXT decode fs n rest with
                        | Ret argv => Ret (Child argv)
                        | Raise PermissionError => Raise (permission_denied c0)
                        | Raise e => Raise e
                        end
                    end
                end)
      end
  end.

Lemma lookup_returns (key : string) : ∃ r, Aliases.lookup raw key = Some r.
Proof.
  destruct (get_enough_fuel raw key None) as [r Hr].
  exists r. apply Hr. lia.
Qed.

Lemma lookup_list_head (key : string) (L : list string) :
  Aliases.lookup raw key = Some (Ret (Some (AList L))) →
  ∃ token rest, L = token :: rest.
Proof.
  unfold Aliases.lookup, Aliases.get.
  destruct (raw !! key) as [[|tokens|f|]|]; try (intros H; discriminate H).
  all: match goal with
       | |- context [eval_alias ?n raw ?v ?seen ?acc] =>
           destruct (eval_alias n raw v seen acc) as [[[L'|g]|e]|] eqn:He
       end; try (intros H; discriminate H).
  all: intros [= <-];
    apply eval_alias_list_head in He as (token & rest & seen' & -> & _); eauto.
Qed.

(** X19: Building the plan of a command always comes to an end, and the
    arguments typed after the command name reach what is run as they are:
    a callable alias gets exactly them as its [args], and the argument
    list of a child process ends with them, whatever the alias and the
    interpreter of a script put in front.  A command without an alias
    that is found but may not be executed is refused with the name as it
    was typed. *)
Theorem arguments_reach_the_program (head : string) (tail : list string) :
  (∃ r, plan_of (head :: tail) = Some r)
  ∧ (∀ p, plan_of (head :: tail) = Some (Ret p) →
       match p with
       | Proxy cls f args =>
           args = tail
           ∧ numargs f = match cls with SimpleProcProxy => 2 | ProcProxy => 4 end
       | Child argv => ∃ pre, pre ≠ [] ∧ argv = pre ++ tail
       end)
  ∧ (∀ n, raw !! head = None →
          _get_runnable_name head = Ret (Some n) →
          access_x fs n = false →
          plan_of (head :: tail) = Some (Raise (permission_denied head))).
Proof.
  assert (∀ (c0 : string) (rest0 : list string) p,
            (do n <- _get_runnable_name c0;
             match n with
             | None => Ret (Child (c0 :: rest0 ++ tail))
             | Some n =>
                 match Resolver.get_script_subproc_command
                         ON_WINDOWS PATHEXT decode fs n (rest0 ++ tail) with
                 | Ret argv => Ret (Child argv)
                 | Raise PermissionError => Raise (permission_denied c0)
                 | Raise e => Raise e
                 end
             end) = Ret p →
            ∃ pre argv, p = Child argv ∧ pre ≠ [] ∧ argv = pre ++ tail) as Hchild.
  { intros c0 rest0 p.
    destruct (_get_runnable_name c0) as [[n|]|e]; cbn [bind];
      [| |intros H; discriminate H].
    - destruct (Resolver.get_script_subproc_command ON_WINDOWS PATHEXT decode fs n
                  (rest0 ++ tail)) as [argv|e] eqn:Hc.
      + intros [= <-].
        apply ResolverFacts.command_ends_with_args in Hc as [_ [interp ->]].
        exists (interp ++ n :: rest0), (interp ++ n :: rest0 ++ tail).
        split; [done|]. split; [by destruct interp|].
        by rewrite <- app_assoc.
      + destruct e; intros H; discriminate H.
    - intros [= <-]. exists (c0 :: rest0), (c0 :: rest0 ++ tail). by split. }
  split; [|split].
  - unfold plan_of. destruct (lookup_returns head) as [r ->].
    destruct r as [[[L|f]|]|e]; eauto.
  - intros p. unfold plan_of.
    destruct (Aliases.lookup raw head) as [[[[L|f]|]|e]|] eqn:Hl;
      try (intros H; discriminate H).
    + apply lookup_list_head in Hl as (token & rest0 & ->).
      cbn [app]. intros [= H]. apply Hchild in H as (pre & argv & -> & Hne & ->).
      eauto.
    + destruct (Nat.eqb_spec (numargs f) 2) as [H2|H2]; [by intros [= <-]|].
      destruct (Nat.eqb_spec (numargs f) 4) as [H4|H4]; [by intros [= <-]|].
      intros H; discriminate H.
    + intros [= H]. apply (Hchild head []) in H as (pre & argv & -> & Hne & ->).
      eauto.
  - intros n Hraw Hn Hx. unfold plan_of, Aliases.lookup, Aliases.get.
    rewrite Hraw, Hn. cbn [bind].
    by rewrite (ResolverFacts.not_executable_refused _ _ _ _ _ _ Hx).
Qed.

End Resolve.

(** Two directories on [PATH]; [ls] is in the second. *)
Definition two_dirs (d : string) : outcome (list string) :=
  if (d =? "/bin")%string then Ret ["ls"; "sh"] else Ret ["env"].

Definition slash_join (d f : string) : string := d +:+ "/" +:+ f.


Example alias_then_path :
  plan_of false ["/usr/bin"; "/bin"] [] (fun _ => false) (fun _ => true) two_dirs
    slash_join ls_raw (fun _ => 2) Ret
    {[ "/bin/ls" := {| f_exec := true; f_read := true;
                       f_bytes := String "127" (String NUL "ELF") |} ]}
    ["l"; "/tmp"]
  = Some (Ret (Child ["/bin/ls"; "--color=auto"; "-CF"; "/tmp"])).
Proof. vm_compute. reflexivity. Qed.

End Resolve.

(** ** The job commands where job control is missing
       ([jobs_not_implemented.jobs], [fg], [bg]) run as proc-proxies *)

Module JobControl.
Import Proc.

(** [msg] *)
Definition msg : string :=
  "Job control not implemented on this platform." +:+ String "010" "".







End JobControl.

(** ** Loading and unloading the built-ins ([built_ins.load_builtins],
       [unload_builtins], [xonsh_builtins]) *)

Module Builtins.

(** The objects bound to names of the [builtins] module. *)
Inductive obj :=
| OEnv                          (* Env(default_env()) *)
| ODict                         (* {} *)
| OFunc (name : string)         (* a function of [built_ins] *)
| OBool (b : bool)
| ONone
| OExecer                       (* execer *)
| OMethod (name : string)       (* execer.eval, execer.exec, execer.compile *)
| OAliases                      (* Aliases(DEFAULT_ALIASES), updated *)
| OOther (id : nat).            (* anything else, as Python's own [exit] *)

(** The statements the two functions are made of. *)
Inductive stmt :=
| SetAttr (name : string) (v : obj)   (* builtins.name = v *)
| MoveAttr (a b : string)             (* if hasattr(builtins, a):
                                           builtins.b = builtins.a; del builtins.a *)
| CopyAttr (a b : string)             (* if hasattr(builtins, a):
                                           builtins.b = builtins.a *)
| DelAttrIf (name : string).          (* if hasattr(builtins, name):
                                           delattr(builtins, name) *)

Definition exec (m : gmap string obj) (st : stmt) : gmap string obj :=
  match st with
  | SetAttr name v => <[name := v]> m
  | MoveAttr a b =>
      match m !! a with
      | Some v => delete a (<[b := v]> m)
      | None => m
      end
  | CopyAttr a b =>
      match m !! a with
      | Some v => <[b := v]> m
      | None => m
      end
  | DelAttrIf name => delete name m
  end.

(** The attributes of [builtins] and the globals [ENV] and
    [BUILTINS_LOADED].  [ENV.undo_replace_env()] acts on [os.environ]
    only, which is left out. *)
Record state := {
  attrs : gmap string obj;
  ENV : option obj;
  BUILTINS_LOADED : bool
}.

(** [None if execer is None else execer.<name>] *)
Definition method (execer : option obj) (name : string) : obj :=
  match execer with
  | None => ONone
  | Some _ => OMethod name
  end.

Definition load_stmts (execer : option obj) : list stmt :=
  [ (* private built-ins *)
    SetAttr "__xonsh_env__" OEnv;
    SetAttr "__xonsh_ctx__" ODict;
    SetAttr "__xonsh_help__" (OFunc "helper");
    SetAttr "__xonsh_superhelp__" (OFunc "superhelper");
    SetAttr "__xonsh_regexpath__" (OFunc "regexpath");
    SetAttr "__xonsh_glob__" (OFunc "globpath");
    SetAttr "__xonsh_exit__" (OBool false);
    MoveAttr "exit" "__xonsh_pyexit__";
    MoveAttr "quit" "__xonsh_pyquit__";
    SetAttr "__xonsh_subproc_captured__" (OFunc "subproc_captured");
    SetAttr "__xonsh_subproc_uncaptured__" (OFunc "subproc_uncaptured");
    SetAttr "__xonsh_execer__" (match execer with Some e => e | None => ONone end);
    SetAttr "__xonsh_all_jobs__" ODict;
    SetAttr "__xonsh_active_job__" ONone;
    SetAttr "__xonsh_ensure_list_of_strs__" (OFunc "ensure_list_of_strs");
    (* public built-ins *)
    SetAttr "evalx" (method execer "eval");
    SetAttr "execx" (method execer "exec");
    SetAttr "compilex" (method execer "compile");
    SetAttr "default_aliases" OAliases;
    SetAttr "aliases" OAliases ].

(** [load_builtins(execer=None)] *)
Definition load_builtins (execer : option obj) (s : state) : state :=
  {| attrs := foldl exec (attrs s) (load_stmts execer);
     ENV := Some OEnv;
     BUILTINS_LOADED := true |}.

(** [names] of [unload_builtins] *)
Definition names : list string :=
  ["__xonsh_env__";
   "__xonsh_ctx__";
   "__xonsh_help__";
   "__xonsh_superhelp__";
   "__xonsh_regexpath__";
   "__xonsh_glob__";
   "__xonsh_exit__";
   "__xonsh_pyexit__";
   "__xonsh_pyquit__";
   "__xonsh_subproc_captured__";
   "__xonsh_subproc_uncaptured__";
   "__xonsh_execer__";
   "evalx";
   "execx";
   "compilex";
   "default_aliases";
   "__xonsh_all_jobs__";
   "__xonsh_active_job__";
   "__xonsh_ensure_list_of_strs__"].

Definition unload_stmts (loaded : bool) : list stmt :=
  [ CopyAttr "__xonsh_pyexit__" "exit";
    CopyAttr "__xonsh_pyquit__" "quit" ]
  ++ (if negb loaded then [] else map DelAttrIf names).

(** [unload_builtins()] *)
Definition unload_builtins (s : state) : state :=
  {| attrs := foldl exec (attrs s) (unload_stmts (BUILTINS_LOADED s));
     ENV := None;
     BUILTINS_LOADED := false |}.

(** [with xonsh_builtins(execer): pass] *)
Definition xonsh_builtins (execer : option obj) (s : state) : state :=
  unload_builtins (load_builtins execer s).

(** *** The attributes as a statement leaves them *)

Definition view : Type := string -> option obj.

Definition see (f : view) (st : stmt) : view :=
  fun k =>
    match st with
    | SetAttr name v => if (k =? name)%string then Some v else f k
    | MoveAttr a b =>
        match f a with
        | Some v => if (k =? a)%string then None
                    else if (k =? b)%string then Some v else f k
        | None => f k
        end
    | CopyAttr a b =>
        match f a with
        | Some v => if (k =? b)%string then Some v else f k
        | None => f k
        end
    | DelAttrIf name => if (k =? name)%string then None else f k
    end.

(** The names a statement may bind or unbind. *)
Definition touched (st : stmt) : list string :=
  match st with
  | SetAttr name _ => [name]
  | MoveAttr a b => [a; b]
  | CopyAttr a b => [b]
  | DelAttrIf name => [name]
  end.

Lemma lookup_insert_eqb (m : gmap string obj) (n k : string) (v : obj) :
  <[n := v]> m !! k = if (k =? n)%string then Some v else m !! k.
Proof.
  destruct (String.eqb_spec k n) as [->|Hne].
  - apply lookup_insert_eq.
  - by apply lookup_insert_ne.
Qed.

Lemma lookup_delete_eqb (m : gmap string obj) (n k : string) :
  delete n m !! k = if (k =? n)%string then None else m !! k.
Proof.
  destruct (String.eqb_spec k n) as [->|Hne].
  - apply lookup_delete_eq.
  - by apply lookup_delete_ne.
Qed.

Lemma exec_see (m : gmap string obj) (st : stmt) (k : string) :
  exec m st !! k = see (fun k => m !! k) st k.
Proof.
  destruct st as [n v|a b|a b|n]; simpl.
  - apply lookup_insert_eqb.
  - destruct (m !! a) as [v|]; [|done].
    by rewrite lookup_delete_eqb, lookup_insert_eqb.
  - destruct (m !! a) as [v|]; [|done]. apply lookup_insert_eqb.
  - apply lookup_delete_eqb.
Qed.

Lemma see_ext (f g : view) (st : stmt) :
  (∀ k, f k = g k) → ∀ k, see f st k = see g st k.
Proof.
  intros H k. destruct st as [n v|a b|a b|n]; simpl; by rewrite ?H.
Qed.

Lemma foldl_see_ext (l : list stmt) :
  ∀ f g : view, (∀ k, f k = g k) → ∀ k, foldl see f l k = foldl see g l k.
Proof.
  induction l as [|st l IH]; intros f g H k; simpl; [apply H|].
  apply IH. by apply see_ext.
Qed.

Lemma foldl_exec_see (l : list stmt) :
  ∀ (m : gmap string obj) (k : string),
    foldl exec m l !! k = foldl see (fun k => m !! k) l k.
Proof.
  induction l as [|st l IH]; intros m k; simpl; [done|].
  rewrite IH. apply foldl_see_ext. intros k'. apply exec_see.
Qed.

Lemma see_untouched (f : view) (st : stmt) (k : string) :
  k ∉ touched st → see f st k = f k.
Proof.
  destruct st as [n v|a b|a b|n]; simpl; intros Hk.
  - apply not_elem_of_cons in Hk as [Hn _].
    by rewrite (proj2 (String.eqb_neq _ _) Hn).
  - apply not_elem_of_cons in Hk as [Ha Hk].
    apply not_elem_of_cons in Hk as [Hb _].
    rewrite (proj2 (String.eqb_neq _ _) Ha), (proj2 (String.eqb_neq _ _) Hb).
    by destruct (f a).
  - apply not_elem_of_cons in Hk as [Hb _].
    rewrite (proj2 (String.eqb_neq _ _) Hb). by destruct (f a).
  - apply not_elem_of_cons in Hk as [Hn _].
    by rewrite (proj2 (String.eqb_neq _ _) Hn).
Qed.

Lemma foldl_see_untouched (l : list stmt) :
  ∀ (f : view) (k : string),
    k ∉ concat (map touched l) → foldl see f l k = f k.
Proof.
  induction l as [|st l IH]; intros f k Hk; simpl; [done|].
  simpl in Hk. apply not_elem_of_app in Hk as [Hst Hl].
  rewrite IH by done. by apply see_untouched.
Qed.

(** The names [load_builtins] binds. *)
Definition loaded_names : list string := names ++ ["aliases"].

Lemma round_trip_view (execer : option obj) (f : view) :
  (∀ name, name ∈ loaded_names → f name = None) →
  ∀ k, foldl see f (load_stmts execer ++ unload_stmts true) k
       = if (k =? "aliases")%string then Some OAliases else f k.
Proof.
  intros Hfresh k.
  destruct (decide (k ∈ concat (map touched (load_stmts execer ++ unload_stmts true))))
    as [Hin|Hout].
  - assert (∀ n, bool_decide (n ∈ loaded_names) = true → f n = None) as Hnone.
    { intros n Hn. apply Hfresh. by apply bool_decide_eq_true in Hn. }
    pose proof (Hnone "__xonsh_pyexit__" eq_refl) as Hpyexit.
    pose proof (Hnone "__xonsh_pyquit__" eq_refl) as Hpyquit.
    cbn in Hin.
    repeat (apply elem_of_cons in Hin as [->|Hin]).
    all: try (by apply elem_of_nil in Hin).
    all: cbn; rewrite ?Hpyexit, ?Hpyquit.
    all: try (symmetry; apply Hnone; reflexivity).
    all: try reflexivity.
    all: destruct (f "exit"), (f "quit"); cbn; rewrite ?Hpyexit, ?Hpyquit;
      reflexivity.
  - rewrite foldl_see_untouched by done.
    destruct (String.eqb_spec k "aliases") as [->|Hne]; [|done].
    exfalso. apply Hout. cbn. set_solver.
Qed.

Lemma aliases_not_in_names : "aliases" ∉ names.
Proof.
  apply (bool_decide_eq_false_1 ("aliases" ∈ names)). vm_compute. reflexivity.
Qed.

Lemma unloaded_view (execer : option obj) (f : view) (k : string) :
  k ∈ loaded_names →
  foldl see f (load_stmts execer ++ unload_stmts true) k
  = if (k =? "aliases")%string then Some OAliases else None.
Proof.
  intros Hin. cbn in Hin.
  repeat (apply elem_of_cons in Hin as [->|Hin]).
  all: try (by apply elem_of_nil in Hin).
  all: cbn; repeat case_match; reflexivity.
Qed.

(** X21: Loading the built-ins and unloading them again, as [xonsh_builtins]
    does around its body, takes away every name of [names] and leaves
    [aliases] bound: it is the one name [load_builtins] binds that
    [unload_builtins] does not remove.  Where none of these names was bound
    before, all other attributes, Python's [exit] and [quit] among them,
    are as they were. *)
Theorem unload_after_load (execer : option obj) (s : state) :
  (∀ name, name ∈ names → attrs (xonsh_builtins execer s) !! name = None)
  ∧ attrs (xonsh_builtins execer s) !! "aliases" = Some OAliases
  ∧ ENV (xonsh_builtins execer s) = None
  ∧ BUILTINS_LOADED (xonsh_builtins execer s) = false
  ∧ ((∀ name, name ∈ loaded_names → attrs s !! name = None) →
     attrs (xonsh_builtins execer s) = <["aliases" := OAliases]> (attrs s)).
Proof.
  assert (∀ k, attrs (xonsh_builtins execer s) !! k
               = foldl see (fun k => attrs s !! k)
                   (load_stmts execer ++ unload_stmts true) k) as Hview.
  { intros k. unfold xonsh_builtins, unload_builtins, load_builtins.
    cbn [attrs BUILTINS_LOADED]. rewrite <- foldl_app. apply foldl_exec_see. }
  split; [|split; [|split; [|split]]]; try reflexivity.
  - intros name Hin. rewrite Hview, unloaded_view.
    + destruct (String.eqb_spec name "aliases") as [->|]; [|done].
      exfalso. revert Hin. apply aliases_not_in_names.
    + apply elem_of_app. by left.
  - rewrite Hview, unloaded_view; [done|]. apply elem_of_app. right.
    apply elem_of_cons. by left.
  - intros Hfresh. apply map_eq. intros k.
    rewrite Hview, round_trip_view by done. by rewrite lookup_insert_eqb.
Qed.

(** The attributes of a Python that was just started, as far as they
    matter here. *)
Definition fresh_python : state :=
  {| attrs := {[ "exit" := OOther 0; "quit" := OOther 1; "len" := OOther 2 ]};
     ENV := None;
     BUILTINS_LOADED := false |}.

Lemma unload_after_load_witness :
  attrs (xonsh_builtins None fresh_python)
  = <["aliases" := OAliases]> (attrs fresh_python).
Proof.
  apply (unload_after_load None fresh_python).
  intros name Hin. cbn in Hin.
  repeat (apply elem_of_cons in Hin as [->|Hin]); try reflexivity.
  by apply elem_of_nil in Hin.
Defined.

End Builtins.

(** ** Windows handles ([proc.Handle], defined where [ON_WINDOWS] holds) *)

Module WinHandle.

(** A [Handle] is an integer with the attribute [closed]; the system is
    seen through the handles given to [_winapi.CloseHandle]. *)
Record Handle := {
  value : Z;
  closed : bool
}.

Record world := {
  self : Handle;
  CloseHandle_calls : list Z
}.

(** [Handle(h)]: the class attribute [closed = False] *)
Definition new_Handle (h : Z) : world :=
  {| self := {| value := h; closed := false |}; CloseHandle_calls := [] |}.

(** [Close(self, CloseHandle=_winapi.CloseHandle)], also [__del__] *)
Definition Close : stateful world unit :=
  fun w =>
    if negb (closed (self w)) then
      (Ret tt,
       {| self := {| value := value (self w); closed := true |};
          CloseHandle_calls := CloseHandle_calls w ++ [value (self w)] |})
    else (Ret tt, w).

(** [Detach(self)] *)
Definition Detach : stateful world Z :=
  fun w =>
    if negb (closed (self w)) then
      (Ret (value (self w)),
       {| self := {| value := value (self w); closed := true |};
          CloseHandle_calls := CloseHandle_calls w |})
    else (Raise ValueError, w).            (* already closed *)

(** A use of the handle. *)
Inductive use :=
| UClose
| UDetach.

(** The outcome of a use: [Detach] gives the integer. *)
Definition apply_use (u : use) (w : world) : outcome (option Z) * world :=
  match u with
  | UClose => match Close w with (r, w') => (bind r (fun _ => Ret None), w') end
  | UDetach => match Detach w with (r, w') => (bind r (fun z => Ret (Some z)), w') end
  end.

(** The uses one after the other, going on after an exception, with the
    outcomes in order. *)
Fixpoint apply_uses (us : list use) (w : world) : list (outcome (option Z)) * world :=
  match us with
  | [] => ([], w)
  | u :: rest =>
      let '(r, w1) := apply_use u w in
      let '(rs, w2) := apply_uses rest w1 in
      (r :: rs, w2)
  end.

Lemma closed_stays (us : list use) (w : world) :
  closed (self w) = true →
  snd (apply_uses us w) = w
  ∧ Forall2 (fun u r => r = match u with
                           | UClose => Ret None
                           | UDetach => Raise ValueError
                           end) us (fst (apply_uses us w)).
Proof.
  intros Hc. induction us as [|u rest [IHw IHr]]; simpl; [by split|].
  assert (apply_use u w
          = (match u with UClose => Ret None | UDetach => Raise ValueError end, w))
    as ->.
  { destruct u; unfold apply_use, Close, Detach; by rewrite Hc. }
  destruct (apply_uses rest w) as [rs w2]. simpl in *. subst w2.
  split; [done|]. by constructor.
Qed.

(** X22: A handle is given up once.  Whatever is done with a new handle, and
    in whatever order, the first use settles it: [CloseHandle] is called
    exactly once, with the handle, when the first use is [Close], and never
    when it is [Detach], which hands the integer over; after that every
    [Close], the one of [__del__] included, does nothing and every
    [Detach] raises [ValueError]. *)
Theorem handle_given_up_once (h : Z) (u : use) (us : list use) :
  let '(rs, w) := apply_uses (u :: us) (new_Handle h) in
  closed (self w) = true
  ∧ value (self w) = h
  ∧ CloseHandle_calls w = match u with UClose => [h] | UDetach => [] end
  ∧ ∃ rest,
      rs = match u with UClose => Ret None | UDetach => Ret (Some h) end :: rest
      ∧ Forall2 (fun u r => r = match u with
                               | UClose => Ret None
                               | UDetach => Raise ValueError
                               end) us rest.
Proof.
  cbn [apply_uses].
  destruct (apply_use u (new_Handle h)) as [r w1] eqn:Hu.
  assert (closed (self w1) = true ∧ value (self w1) = h
          ∧ CloseHandle_calls w1 = match u with UClose => [h] | UDetach => [] end
          ∧ r = match u with UClose => Ret None | UDetach => Ret (Some h) end)
    as (Hc & Hv & Hcalls & ->).
  { destruct u; injection Hu as <- <-; by repeat split. }
  destruct (closed_stays us w1 Hc) as [Hw Hrs].
  destruct (apply_uses us w1) as [rs w2]. simpl in Hw, Hrs. subst w2.
  split; [done|]. split; [done|]. split; [done|]. by exists rs.
Qed.

End WinHandle.
